(** * useAudioPlayer: a model of the audio playback hook

    Shallow embedding of [src/hooks/useAudioPlayer.ts].  The hook keeps
    three mutable refs (audio context, decoded buffer, pitch shifter),
    seven pieces of React state, and drives a Web Audio context together
    with a SoundTouch [PitchShifter] node.

    Modelling conventions.
    - A JavaScript [number] is modelled by the rational it denotes
      ([Q]).  The session only copies numbers and divides once in
      [seek]; there arithmetic is exact.  [formatTime] divides, takes
      floors and prints: module [Binary64] models it on doubles, with
      the rounding of the division, the infinities and not-a-number.
    - Web Audio objects live in a store indexed by addresses ([nat]); a
      ref holds an address, so two refs can alias one object.
    - [loadFile] is [async]: it is cut at its [await]s into segments,
      and the pending continuations are kept in the session. *)

From Stdlib Require Import ZArith QArith Qround Qabs Qpower String Ascii.
From Stdlib Require Import DecimalString Lia Lqa.
From Stdlib Require Import DecimalFacts DecimalPos DecimalZ.
From stdpp Require Import gmap list strings.

Local Open Scope Q_scope.

(** ** JavaScript primitives used by the hook *)

Module JS.

(** [Math.floor]; the hook applies it to finite numbers only. *)
Definition Math_floor (x : Q) : Z := Qfloor x.

(** Truncation toward zero, the quotient behind the [%] operator. *)
Definition trunc (x : Q) : Z :=
  if Qle_bool 0 x then Qfloor x else Qceiling x.

(** [a % b]: the remainder has the sign of the dividend. *)
Definition rem (a b : Q) : Q := a - b * inject_Z (trunc (a / b)).

(** [Number.prototype.toString] on an integral value: the decimal
    numeral, with a minus sign for negatives. *)
Definition toString (n : Z) : string :=
  NilZero.string_of_int (Z.to_int n).

(** [n] characters taken cyclically from [pad], starting with [rest]. *)
Fixpoint fill (pad rest : string) (n : nat) : string :=
  match n with
  | O => EmptyString
  | S n' =>
      match rest with
      | String c r => String c (fill pad r n')
      | EmptyString =>
          match pad with
          | String c r => String c (fill pad r n')
          | EmptyString => EmptyString
          end
      end
  end.

(** [s.padStart(targetLength, padString)]. *)
Definition padStart (targetLength : nat) (padString s : string) : string :=
  (fill padString padString (targetLength - String.length s) ++ s)%string.

(** [a > b] and [a >= b] on numbers. *)
Definition gt (a b : Q) : bool := negb (Qle_bool a b).
Definition ge (a b : Q) : bool := Qle_bool b a.

End JS.

(** [formatTime], lines 183-187, on the real numbers that the doubles
    denote: every operation is exact. *)
Definition formatTime (seconds : Q) : string :=
  let mins := JS.Math_floor (seconds / 60) in
  let secs := JS.Math_floor (JS.rem seconds 60) in
  (JS.toString mins ++ ":" ++ JS.padStart 2 "0" (JS.toString secs))%string.

(** The display format as the specification words it: whole minutes,
    a colon, and the whole seconds modulo 60 written with two digits. *)
Definition digit (n : Z) : ascii := ascii_of_nat (48 + Z.to_nat n).

Definition two_digits (n : Z) : string :=
  String (digit (n / 10)) (String (digit (n mod 10)) EmptyString).

Definition formatTime_spec (s : Q) : string :=
  (JS.toString (Qfloor s / 60) ++ ":" ++ two_digits (Qfloor s mod 60))%string.

(** The string is a decimal numeral of the integer [m]. *)
Definition reads_as (str : string) (m : Z) : Prop :=
  Z.of_int <$> NilZero.int_of_string str = Some m.

(** A numeral without a leading zero: ["0"] itself, or a string whose
    first character is one of [1]..[9]. *)
Definition no_leading_zero (m : string) : Prop :=
  m = "0"%string \/
  exists c rest, m = String c rest /\ (49 <= nat_of_ascii c <= 57)%nat.

(** ** [formatTime] as the engine computes it *)

(** A JavaScript [number] is an IEEE 754 binary64.  [formatTime] above
    computes with the real numbers that the doubles denote; the module
    below follows the engine: the division of line 184 is rounded to the
    nearest double, the remainder of line 185 is exact (as IEEE 754 has
    it), and [toString] prints the shortest numeral that reads back as
    the double. *)
Module Binary64.

(** A number: not-a-number, an infinity, or a finite double, given by the
    rational it denotes.  The two zeros are not told apart: [formatTime]
    divides by 60 only, and both zeros print as "0". *)
Inductive number :=
| NaN
| Infinity (negative : bool)
| Finite (q : Q).

(** An integral number, which is what [Math.floor] returns. *)
Inductive integral :=
| INaN
| IInfinity (negative : bool)
| IFinite (n : Z).

(** [floor(log2 x)] for [x > 0]. *)
Definition log2_floor (x : Q) : Z :=
  let c := (Z.log2 (Qnum x) - Z.log2 (Zpos (Qden x)))%Z in
  if Qle_bool (2 ^ c) x then c else (c - 1)%Z.

(** The exponent of the unit in the last place of the doubles around
    [x <> 0]: 53 significant bits, and no exponent below -1074 (there the
    subnormal numbers begin). *)
Definition ulp_exponent (x : Q) : Z :=
  Z.max (log2_floor (Qabs x) - 52) (-1074).

(** The nearest integer, the even one of two that are equally near. *)
Definition nearest_even (q : Q) : Z :=
  let f := Qfloor q in
  match Qcompare (q - inject_Z f) (1 # 2) with
  | Lt => f
  | Gt => (f + 1)%Z
  | Eq => if Z.even f then f else (f + 1)%Z
  end.

(** Round to nearest, ties to even: the double that stores the exact
    result [x].  A result of magnitude [2^1024] or more is an infinity. *)
Definition round (x : Q) : number :=
  if Qeq_bool x 0 then Finite 0
  else
    let e := ulp_exponent x in
    let r := inject_Z (nearest_even (x / 2 ^ e)) * 2 ^ e in
    if Qle_bool (2 ^ 1024) (Qabs r)
    then Infinity (negb (Qle_bool 0 x))
    else Finite (Qred r).

(** The rationals that are doubles: rounding leaves them as they are. *)
Definition is_double (x : Q) : bool :=
  match round x with
  | Finite r => Qeq_bool r x
  | _ => false
  end.

(** [a / d] for a finite divisor [d] other than zero. *)
Definition div (a : number) (d : Q) : number :=
  match a with
  | NaN => NaN
  | Infinity negative => Infinity (xorb negative (negb (Qle_bool 0 d)))
  | Finite x => round (x / d)
  end.

(** [a % d] for a finite divisor [d] other than zero.  The remainder of
    two doubles is a double: nothing is rounded. *)
Definition rem (a : number) (d : Q) : number :=
  match a with
  | NaN | Infinity _ => NaN
  | Finite x => Finite (JS.rem x d)
  end.

(** [Math.floor]. *)
Definition Math_floor (a : number) : integral :=
  match a with
  | NaN => INaN
  | Infinity negative => IInfinity negative
  | Finite x => IFinite (Qfloor x)
  end.

(** The numeral of the integer [y] reads back as the double [n]. *)
Definition reads_back (n y : Z) : bool :=
  match round (inject_Z y) with
  | Finite r => Qeq_bool r (inject_Z n)
  | _ => false
  end.

(** The number of decimal digits of [n >= 0]. *)
Definition digits10 (n : Z) : Z := Z.of_nat (String.length (JS.toString n)).

(** [Number::toString], step 5, for a whole double [n >= 2^53]: the
    integer made of the fewest significant digits, [k] or more, followed
    by zeros, that reads back as [n]; of two such integers the one nearer
    to [n].  Seventeen digits always suffice. *)
Fixpoint shortest (fuel : nat) (k : Z) (n : Z) : Z :=
  match fuel with
  | O => n
  | S fuel' =>
      let p := (10 ^ (digits10 n - k))%Z in
      let lo := (n / p * p)%Z in
      let hi := (lo + p)%Z in
      match reads_back n lo, reads_back n hi with
      | true, true => if (n - lo <=? hi - n)%Z then lo else hi
      | true, false => lo
      | false, true => hi
      | false, false => shortest fuel' (k + 1)%Z n
      end
  end.

(** [y] without its zeros at the end. *)
Fixpoint strip_zeros (fuel : nat) (y : Z) : Z :=
  match fuel with
  | O => y
  | S fuel' => if (y mod 10 =? 0)%Z then strip_zeros fuel' (y / 10)%Z else y
  end.

(** The form with an exponent, used from [10^21] on: ["d.ddde+n"]. *)
Definition exponential (y : Z) : string :=
  let e := (digits10 y - 1)%Z in
  match JS.toString (strip_zeros (Z.to_nat e) y) with
  | String d EmptyString => String d ("e+" ++ JS.toString e)
  | String d rest => String d ("." ++ rest ++ "e+" ++ JS.toString e)
  | EmptyString => EmptyString
  end.

(** The digits of a whole double [n >= 0].  Below [2^53] every integer
    is a double, so the only numeral that reads back as [n] is that of
    [n] itself. *)
Definition digits (n : Z) : string :=
  if (n <? 2 ^ 53)%Z then JS.toString n
  else
    let y := shortest 17 1 n in
    if (digits10 y <=? 21)%Z then JS.toString y else exponential y.

(** [Number.prototype.toString] and the conversion in a template
    literal, on an integral number. *)
Definition toString (x : integral) : string :=
  match x with
  | INaN => "NaN"
  | IInfinity false => "Infinity"
  | IInfinity true => "-Infinity"
  | IFinite n => if (n <? 0)%Z then String "-" (digits (- n)) else digits n
  end.

(** [formatTime], lines 183-187. *)
Definition formatTime (seconds : number) : string :=
  let mins := Math_floor (div seconds 60) in
  let secs := Math_floor (rem seconds 60) in
  (toString mins ++ ":" ++ JS.padStart 2 "0" (toString secs))%string.

End Binary64.

(** ** Objects of the host environment *)

(** [AudioContext.state]. *)
Inductive AudioContextState := suspended | running | closed.

#[global] Instance AudioContextState_eq_dec : EqDecision AudioContextState.
Proof. solve_decision. Defined.

(** A thrown value, as handed to [onError]. *)
Record Error := { message : string }.

#[global] Instance Error_eq_dec : EqDecision Error.
Proof. solve_decision. Defined.

(** A decoded [AudioBuffer]; the hook reads its [duration] only. *)
Record AudioBuffer := { buf_duration : Q }.

(** A [File]; the hook reads its [name] and its bytes. *)
Record File := { file_name : string }.

(** The [detail] of a ['play'] event: seconds played, and the position
    as a percentage (0-100) of the whole buffer. *)
Record PlayEvent := { timePlayed : Q; ev_percentagePlayed : Q }.

(** A SoundTouch [PitchShifter].  [ps_context] and [ps_buffer] are the
    constructor arguments; [percentagePlayed] is the cursor as last
    written through the setter (a fraction 0-1); [connections] holds the
    contexts to whose destination the node's output is connected (Web
    Audio keeps at most one connection between an output and an input:
    connecting again is ignored); [listening] tells whether the hook's
    ['play'] listener has been registered with [on]. *)
Record PitchShifter := {
  ps_context : nat;
  ps_buffer : AudioBuffer;
  tempo : Q;
  pitchSemitones : Q;
  percentagePlayed : Q;
  connections : gset nat;
  listening : bool
}.

Definition with_tempo (v : Q) (p : PitchShifter) : PitchShifter :=
  {| ps_context := ps_context p; ps_buffer := ps_buffer p; tempo := v;
     pitchSemitones := pitchSemitones p;
     percentagePlayed := percentagePlayed p; connections := connections p;
     listening := listening p |}.

Definition with_pitchSemitones (v : Q) (p : PitchShifter) : PitchShifter :=
  {| ps_context := ps_context p; ps_buffer := ps_buffer p; tempo := tempo p;
     pitchSemitones := v; percentagePlayed := percentagePlayed p;
     connections := connections p; listening := listening p |}.

Definition with_percentagePlayed (v : Q) (p : PitchShifter) : PitchShifter :=
  {| ps_context := ps_context p; ps_buffer := ps_buffer p; tempo := tempo p;
     pitchSemitones := pitchSemitones p; percentagePlayed := v;
     connections := connections p; listening := listening p |}.

Definition with_connections (v : gset nat) (p : PitchShifter) : PitchShifter :=
  {| ps_context := ps_context p; ps_buffer := ps_buffer p; tempo := tempo p;
     pitchSemitones := pitchSemitones p;
     percentagePlayed := percentagePlayed p; connections := v;
     listening := listening p |}.

Definition with_listening (v : bool) (p : PitchShifter) : PitchShifter :=
  {| ps_context := ps_context p; ps_buffer := ps_buffer p; tempo := tempo p;
     pitchSemitones := pitchSemitones p;
     percentagePlayed := percentagePlayed p; connections := connections p;
     listening := v |}.

(** [new PitchShifter(context, buffer, 1024)]. *)
Definition new_PitchShifter (context : nat) (buffer : AudioBuffer) : PitchShifter :=
  {| ps_context := context; ps_buffer := buffer; tempo := 1;
     pitchSemitones := 0; percentagePlayed := 0; connections := ∅;
     listening := false |}.

(** ** The hook *)

(** [UseAudioPlayerOptions]: both callbacks are optional, the record
    tells which ones the caller supplied. *)
Record UseAudioPlayerOptions := { onPlaybackEnd : bool; onError : bool }.

(** A call of one of the caller's callbacks. *)
Inductive Notification :=
| PlaybackEnd
| ErrorReported (e : Error).

#[global] Instance Notification_eq_dec : EqDecision Notification.
Proof. solve_decision. Defined.

(** A [loadFile] call in flight.  The closure of the call keeps the file
    and the [speed] and [pitch] of the render that created it; the phase
    names the [await] at which the call is parked.  A call parked at
    [AwaitRejectedClose] waits at [await close()] on a promise that is
    rejected already: [close()] was called on a closed context. *)
Inductive LoadPhase :=
  AwaitClose | AwaitRejectedClose | AwaitArrayBuffer | AwaitDecode | Settled.

#[global] Instance LoadPhase_eq_dec : EqDecision LoadPhase.
Proof. solve_decision. Defined.

Record LoadTask := {
  load_file : File;
  load_speed : Q;
  load_pitch : Q;
  load_phase : LoadPhase
}.

(** One mounted hook: the three refs (lines 38-40), the React state
    (lines 42-48), the options, the store of Web Audio objects, the
    [loadFile] calls made so far, and the callback calls made so far
    (oldest first). *)
Record Session := {
  audioContext : option nat;
  audioBuffer : option AudioBuffer;
  pitchShifterRef : option nat;
  speed : Q;
  pitch : Q;
  audioFileName : option string;
  isPlaying : bool;
  currentTime : Q;
  duration : Q;
  isLoading : bool;
  options : option UseAudioPlayerOptions;
  contexts : gmap nat AudioContextState;
  shifters : gmap nat PitchShifter;
  loads : list LoadTask;
  calls : list Notification
}.

(** The session right after the first render. *)
Definition useAudioPlayer (opts : option UseAudioPlayerOptions) : Session :=
  {| audioContext := None; audioBuffer := None; pitchShifterRef := None;
     speed := 1; pitch := 0; audioFileName := None; isPlaying := false;
     currentTime := 0; duration := 0; isLoading := false; options := opts;
     contexts := ∅; shifters := ∅; loads := []; calls := [] |}.

(** *** Assignments to one ref or one piece of state *)

Definition set_audioContext (v : option nat) (s : Session) : Session :=
  {| audioContext := v; audioBuffer := audioBuffer s;
     pitchShifterRef := pitchShifterRef s; speed := speed s;
     pitch := pitch s; audioFileName := audioFileName s;
     isPlaying := isPlaying s; currentTime := currentTime s;
     duration := duration s; isLoading := isLoading s; options := options s;
     contexts := contexts s; shifters := shifters s; loads := loads s;
     calls := calls s |}.

Definition set_audioBuffer (v : option AudioBuffer) (s : Session) : Session :=
  {| audioContext := audioContext s; audioBuffer := v;
     pitchShifterRef := pitchShifterRef s; speed := speed s;
     pitch := pitch s; audioFileName := audioFileName s;
     isPlaying := isPlaying s; currentTime := currentTime s;
     duration := duration s; isLoading := isLoading s; options := options s;
     contexts := contexts s; shifters := shifters s; loads := loads s;
     calls := calls s |}.

Definition set_pitchShifterRef (v : option nat) (s : Session) : Session :=
  {| audioContext := audioContext s; audioBuffer := audioBuffer s;
     pitchShifterRef := v; speed := speed s; pitch := pitch s;
     audioFileName := audioFileName s; isPlaying := isPlaying s;
     currentTime := currentTime s; duration := duration s;
     isLoading := isLoading s; options := options s; contexts := contexts s;
     shifters := shifters s; loads := loads s; calls := calls s |}.

Definition setSpeedState (v : Q) (s : Session) : Session :=
  {| audioContext := audioContext s; audioBuffer := audioBuffer s;
     pitchShifterRef := pitchShifterRef s; speed := v; pitch := pitch s;
     audioFileName := audioFileName s; isPlaying := isPlaying s;
     currentTime := currentTime s; duration := duration s;
     isLoading := isLoading s; options := options s; contexts := contexts s;
     shifters := shifters s; loads := loads s; calls := calls s |}.

Definition setPitchState (v : Q) (s : Session) : Session :=
  {| audioContext := audioContext s; audioBuffer := audioBuffer s;
     pitchShifterRef := pitchShifterRef s; speed := speed s; pitch := v;
     audioFileName := audioFileName s; isPlaying := isPlaying s;
     currentTime := currentTime s; duration := duration s;
     isLoading := isLoading s; options := options s; contexts := contexts s;
     shifters := shifters s; loads := loads s; calls := calls s |}.

Definition setAudioFileName (v : option string) (s : Session) : Session :=
  {| audioContext := audioContext s; audioBuffer := audioBuffer s;
     pitchShifterRef := pitchShifterRef s; speed := speed s;
     pitch := pitch s; audioFileName := v; isPlaying := isPlaying s;
     currentTime := currentTime s; duration := duration s;
     isLoading := isLoading s; options := options s; contexts := contexts s;
     shifters := shifters s; loads := loads s; calls := calls s |}.

Definition setIsPlaying (v : bool) (s : Session) : Session :=
  {| audioContext := audioContext s; audioBuffer := audioBuffer s;
     pitchShifterRef := pitchShifterRef s; speed := speed s;
     pitch := pitch s; audioFileName := audioFileName s; isPlaying := v;
     currentTime := currentTime s; duration := duration s;
     isLoading := isLoading s; options := options s; contexts := contexts s;
     shifters := shifters s; loads := loads s; calls := calls s |}.

Definition setCurrentTime (v : Q) (s : Session) : Session :=
  {| audioContext := audioContext s; audioBuffer := audioBuffer s;
     pitchShifterRef := pitchShifterRef s; speed := speed s;
     pitch := pitch s; audioFileName := audioFileName s;
     isPlaying := isPlaying s; currentTime := v; duration := duration s;
     isLoading := isLoading s; options := options s; contexts := contexts s;
     shifters := shifters s; loads := loads s; calls := calls s |}.

Definition setDuration (v : Q) (s : Session) : Session :=
  {| audioContext := audioContext s; audioBuffer := audioBuffer s;
     pitchShifterRef := pitchShifterRef s; speed := speed s;
     pitch := pitch s; audioFileName := audioFileName s;
     isPlaying := isPlaying s; currentTime := currentTime s; duration := v;
     isLoading := isLoading s; options := options s; contexts := contexts s;
     shifters := shifters s; loads := loads s; calls := calls s |}.

Definition setIsLoading (v : bool) (s : Session) : Session :=
  {| audioContext := audioContext s; audioBuffer := audioBuffer s;
     pitchShifterRef := pitchShifterRef s; speed := speed s;
     pitch := pitch s; audioFileName := audioFileName s;
     isPlaying := isPlaying s; currentTime := currentTime s;
     duration := duration s; isLoading := v; options := options s;
     contexts := contexts s; shifters := shifters s; loads := loads s;
     calls := calls s |}.

Definition set_contexts (v : gmap nat AudioContextState) (s : Session) : Session :=
  {| audioContext := audioContext s; audioBuffer := audioBuffer s;
     pitchShifterRef := pitchShifterRef s; speed := speed s;
     pitch := pitch s; audioFileName := audioFileName s;
     isPlaying := isPlaying s; currentTime := currentTime s;
     duration := duration s; isLoading := isLoading s; options := options s;
     contexts := v; shifters := shifters s; loads := loads s;
     calls := calls s |}.

Definition set_shifters (v : gmap nat PitchShifter) (s : Session) : Session :=
  {| audioContext := audioContext s; audioBuffer := audioBuffer s;
     pitchShifterRef := pitchShifterRef s; speed := speed s;
     pitch := pitch s; audioFileName := audioFileName s;
     isPlaying := isPlaying s; currentTime := currentTime s;
     duration := duration s; isLoading := isLoading s; options := options s;
     contexts := contexts s; shifters := v; loads := loads s;
     calls := calls s |}.

Definition set_loads (v : list LoadTask) (s : Session) : Session :=
  {| audioContext := audioContext s; audioBuffer := audioBuffer s;
     pitchShifterRef := pitchShifterRef s; speed := speed s;
     pitch := pitch s; audioFileName := audioFileName s;
     isPlaying := isPlaying s; currentTime := currentTime s;
     duration := duration s; isLoading := isLoading s; options := options s;
     contexts := contexts s; shifters := shifters s; loads := v;
     calls := calls s |}.

Definition set_calls (v : list Notification) (s : Session) : Session :=
  {| audioContext := audioContext s; audioBuffer := audioBuffer s;
     pitchShifterRef := pitchShifterRef s; speed := speed s;
     pitch := pitch s; audioFileName := audioFileName s;
     isPlaying := isPlaying s; currentTime := currentTime s;
     duration := duration s; isLoading := isLoading s; options := options s;
     contexts := contexts s; shifters := shifters s; loads := loads s;
     calls := v |}.

(** *** Calls into Web Audio and SoundTouch *)

(** [suspend()], [resume()] and [close()] on the context at [c] move it
    to the given state unless it is already closed.  The real calls
    settle a promise later; the model applies the change at once. *)
Definition transition (c : nat) (st : AudioContextState) (s : Session) : Session :=
  match contexts s !! c with
  | Some closed | None => s
  | Some _ => set_contexts (<[c := st]> (contexts s)) s
  end.

Definition suspend (c : nat) : Session -> Session := transition c suspended.
Definition resume (c : nat) : Session -> Session := transition c running.
Definition close (c : nat) : Session -> Session := transition c closed.

(** A method call or property write on the shifter at [n]. *)
Definition update_shifter (n : nat) (f : PitchShifter -> PitchShifter)
    (s : Session) : Session :=
  set_shifters (alter f n (shifters s)) s.

(** [node.connect(ctx.destination)], with [dest] the address of [ctx]. *)
Definition connect (n dest : nat) : Session -> Session :=
  update_shifter n (fun p => with_connections (connections p ∪ {[dest]}) p).

(** [node.disconnect()] drops every outgoing connection. *)
Definition disconnect (n : nat) : Session -> Session :=
  update_shifter n (with_connections ∅).

Definition set_tempo (n : nat) (v : Q) : Session -> Session :=
  update_shifter n (with_tempo v).

Definition set_pitchSemitones (n : nat) (v : Q) : Session -> Session :=
  update_shifter n (with_pitchSemitones v).

Definition set_percentagePlayed (n : nat) (v : Q) : Session -> Session :=
  update_shifter n (with_percentagePlayed v).

(** [node.on('play', listener)]. *)
Definition on_play (n : nat) : Session -> Session :=
  update_shifter n (with_listening true).

(** [if (options?.onPlaybackEnd) options.onPlaybackEnd()]. *)
Definition call_onPlaybackEnd (s : Session) : Session :=
  match options s with
  | Some o => if onPlaybackEnd o then set_calls (calls s ++ [PlaybackEnd]) s else s
  | None => s
  end.

(** [if (options?.onError) options.onError(error as Error)]. *)
Definition call_onError (e : Error) (s : Session) : Session :=
  match options s with
  | Some o => if onError o then set_calls (calls s ++ [ErrorReported e]) s else s
  | None => s
  end.

(** *** Controls *)

(** [stop], lines 146-156. *)
Definition stop (s : Session) : Session :=
  let s1 := match pitchShifterRef s with
            | Some n => set_percentagePlayed n 0 (disconnect n s)
            | None => s
            end in
  let s2 := match audioContext s1 with
            | Some c => suspend c s1
            | None => s1
            end in
  setCurrentTime 0 (setIsPlaying false s2).

(** [play], lines 127-136.  Web Audio throws [InvalidAccessError] from
    [connect] when the destination belongs to another context than the
    node; the handler then ends before [setIsPlaying(true)]. *)
Definition play (s : Session) : Session :=
  match pitchShifterRef s, audioContext s with
  | Some n, Some c =>
      let s1 := if decide (contexts s !! c = Some suspended)
                then resume c s else s in
      if decide (ps_context <$> shifters s1 !! n = Some c)
      then setIsPlaying true (connect n c s1)
      else s1
  | _, _ => s
  end.

(** [pause], lines 138-144. *)
Definition pause (s : Session) : Session :=
  match pitchShifterRef s, audioContext s with
  | Some n, Some c => setIsPlaying false (suspend c (disconnect n s))
  | _, _ => s
  end.

(** [seek], lines 158-173.  The setter of [percentagePlayed] does not
    throw in the model, so the [catch] of lines 166-171 is not entered. *)
Definition seek (time : Q) (s : Session) : Session :=
  let s1 := setCurrentTime time s in
  match pitchShifterRef s1 with
  | Some n =>
      if JS.gt (duration s) 0
      then let percentage := time / duration s in
           set_percentagePlayed n percentage s1
      else s1
  | None => s1
  end.

(** [setSpeed], lines 175-177, with the effect of lines 51-55: React
    runs it after the render, and only when [speed] is another number
    than before. *)
Definition setSpeed (newSpeed : Q) (s : Session) : Session :=
  let s1 := setSpeedState newSpeed s in
  if Qeq_bool (speed s) newSpeed then s1
  else match pitchShifterRef s1 with
       | Some n => set_tempo n (speed s1) s1
       | None => s1
       end.

(** [setPitch], lines 179-181, with the effect of lines 58-62. *)
Definition setPitch (newPitch : Q) (s : Session) : Session :=
  let s1 := setPitchState newPitch s in
  if Qeq_bool (pitch s) newPitch then s1
  else match pitchShifterRef s1 with
       | Some n => set_pitchSemitones n (pitch s1) s1
       | None => s1
       end.

(** The ['play'] listener, lines 107-115.  [stop] works on the refs, so
    it acts on the shifter the ref holds when the event arrives. *)
Definition play_listener (event : PlayEvent) (s : Session) : Session :=
  let s1 := setCurrentTime (timePlayed event) s in
  if JS.ge (ev_percentagePlayed event) 99.9
  then call_onPlaybackEnd (stop s1)
  else s1.

(** A shifter renders blocks, and so raises ['play'] events, while it is
    connected to the destination of its context and that context runs. *)
Definition rendering (n : nat) (s : Session) : bool :=
  match shifters s !! n with
  | Some p =>
      bool_decide (ps_context p ∈ connections p) &&
      bool_decide (contexts s !! ps_context p = Some running)
  | None => false
  end.

(** *** [loadFile], lines 64-125, cut at its [await]s *)

Definition with_phase (ph : LoadPhase) (t : LoadTask) : LoadTask :=
  {| load_file := load_file t; load_speed := load_speed t;
     load_pitch := load_pitch t; load_phase := ph |}.

(** The load [k] moves on to its next [await], or settles. *)
Definition set_phase (k : nat) (ph : LoadPhase) (s : Session) : Session :=
  match loads s !! k with
  | Some t => set_loads (<[k := with_phase ph t]> (loads s)) s
  | None => s
  end.

(** [catch] and [finally], lines 117-124. *)
Definition loadFile_catch (k : nat) (error : Error) (s : Session) : Session :=
  setIsLoading false (call_onError error (set_phase k Settled s)).

(** What reading a property of [null] throws. *)
Definition TypeError : Error := {| message := "TypeError" |}.

(** What [close()] rejects with on a context that is closed already. *)
Definition InvalidStateError : Error := {| message := "InvalidStateError" |}.

(** Lines 79-82: a new context replaces the ref, then the call parks on
    [file.arrayBuffer()]. *)
Definition loadFile_open (k : nat) (s : Session) : Session :=
  let c := fresh (dom (contexts s)) in
  let s1 := set_contexts (<[c := running]> (contexts s)) s in
  set_phase k AwaitArrayBuffer (set_audioContext (Some c) s1).

(** Lines 65-76: the synchronous head of the call.  [isPlaying], [speed]
    and [pitch] are those of the render whose [loadFile] is called.
    [close()] on a context that is closed already returns a rejected
    promise and changes nothing. *)
Definition loadFile_call (file : File) (s : Session) : Session :=
  let k := length (loads s) in
  let task := {| load_file := file; load_speed := speed s;
                 load_pitch := pitch s; load_phase := AwaitClose |} in
  let s0 := set_loads (loads s ++ [task]) s in
  let s1 := setIsLoading true s0 in
  let s2 := if isPlaying s then stop s1 else s1 in
  match audioContext s2 with
  | Some c =>
      if decide (contexts s2 !! c = Some closed)
      then set_phase k AwaitRejectedClose s2
      else close c s2
  | None => loadFile_open k s2
  end.

(** Line 85, first half: [file.arrayBuffer()] has settled; on success
    [decodeAudioData] is called on the context the ref holds now. *)
Definition loadFile_read (k : nat) (failure : option Error) (s : Session) : Session :=
  match failure with
  | Some e => loadFile_catch k e s
  | None =>
      match audioContext s with
      | Some _ => set_phase k AwaitDecode s
      | None => loadFile_catch k TypeError s
      end
  end.

(** Lines 85-115 and 122-124: [decodeAudioData] has settled. *)
Definition loadFile_decoded (k : nat) (t : LoadTask)
    (result : Error + AudioBuffer) (s : Session) : Session :=
  match result with
  | inl e => loadFile_catch k e s
  | inr buffer =>
      let s1 := set_audioBuffer (Some buffer) s in
      match audioContext s1 with
      | None => loadFile_catch k TypeError s1
      | Some c =>
          let n := fresh (dom (shifters s1)) in
          let s2 := set_shifters (<[n := new_PitchShifter c buffer]> (shifters s1)) s1 in
          let s3 := set_pitchShifterRef (Some n) s2 in
          let s4 := set_tempo n (load_speed t) s3 in
          let s5 := set_pitchSemitones n (load_pitch t) s4 in
          let s6 := connect n c s5 in
          let s7 := setDuration (buf_duration buffer) s6 in
          let s8 := setCurrentTime 0 s7 in
          let s9 := setAudioFileName (Some (file_name (load_file t))) s8 in
          let s10 := on_play n s9 in
          setIsLoading false (set_phase k Settled s10)
      end
  end.

(** *** The session as a machine *)

(** What can happen to a session: a control is called, an [await] of a
    pending [loadFile] settles, or a shifter raises a ['play'] event. *)
Inductive Action :=
| CallLoadFile (file : File)
| CallPlay
| CallPause
| CallStop
| CallSeek (time : Q)
| CallSetSpeed (newSpeed : Q)
| CallSetPitch (newPitch : Q)
| CloseSettled (k : nat)
| ArrayBufferSettled (k : nat) (failure : option Error)
| DecodeSettled (k : nat) (result : Error + AudioBuffer)
| PlayRaised (n : nat) (event : PlayEvent).

(** The load [k], when it is parked at phase [ph]. *)
Definition parked (k : nat) (ph : LoadPhase) (s : Session) : option LoadTask :=
  match loads s !! k with
  | Some t => if decide (load_phase t = ph) then Some t else None
  | None => None
  end.

(** One action; [None] when the action cannot happen in [s]. *)
Definition step (a : Action) (s : Session) : option Session :=
  match a with
  | CallLoadFile file => Some (loadFile_call file s)
  | CallPlay => Some (play s)
  | CallPause => Some (pause s)
  | CallStop => Some (stop s)
  | CallSeek time => Some (seek time s)
  | CallSetSpeed v => Some (setSpeed v s)
  | CallSetPitch v => Some (setPitch v s)
  | CloseSettled k =>
      match parked k AwaitClose s with
      | Some _ => Some (loadFile_open k s)
      | None =>
          match parked k AwaitRejectedClose s with
          | Some _ => Some (loadFile_catch k InvalidStateError s)
          | None => None
          end
      end
  | ArrayBufferSettled k failure =>
      match parked k AwaitArrayBuffer s with
      | Some _ => Some (loadFile_read k failure s)
      | None => None
      end
  | DecodeSettled k result =>
      match parked k AwaitDecode s with
      | Some t => Some (loadFile_decoded k t result s)
      | None => None
      end
  | PlayRaised n event =>
      if rendering n s
      then match shifters s !! n with
           | Some p => Some (if listening p then play_listener event s else s)
           | None => None
           end
      else None
  end.

Fixpoint run (acts : list Action) (s : Session) : option Session :=
  match acts with
  | [] => Some s
  | a :: rest =>
      match step a s with
      | Some s' => run rest s'
      | None => None
      end
  end.

(** A [loadFile] call that nothing interleaves with: every [await]
    settles before anything else happens, [close()] resolves, the bytes
    are read, and [decodeAudioData] settles with [result].  [close()]
    resolves when the context in the ref is not closed yet; behind the
    file input it never is when [loadFile] is called, and the call is
    then this run of the machine ([loadFile_behind_the_input]). *)
Definition loadFile (file : File) (result : Error + AudioBuffer) (s : Session) : Session :=
  let k := length (loads s) in
  let task := {| load_file := file; load_speed := speed s;
                 load_pitch := pitch s; load_phase := AwaitDecode |} in
  let s1 := loadFile_call file s in
  let s2 := match audioContext s with
            | Some _ => loadFile_open k s1
            | None => s1
            end in
  loadFile_decoded k task result (loadFile_read k None s2).

(** *** The playback state of the specification *)

(** The hook keeps no state variable of this kind; the state is read off
    the flags and the shifter ref.  Nothing in the hook tells a paused
    session from a ready one, so both read as [Ready]. *)
Inductive PlaybackState := Idle | Loading | Ready | Playing.

Definition playbackState (s : Session) : PlaybackState :=
  if isLoading s then Loading
  else match pitchShifterRef s with
       | None => Idle
       | Some _ => if isPlaying s then Playing else Ready
       end.

(** How often [onPlaybackEnd] has been called. *)
Definition playbackEnds (s : Session) : nat :=
  length (filter (fun c => c = PlaybackEnd) (calls s)).

(** [onError] as the session sees it: whether the caller supplied it. *)
Definition reports_errors (s : Session) : bool :=
  match options s with
  | Some o => onError o
  | None => false
  end.

(** The shifter that a settled decode leaves in the store: built on the
    context [c], set to the speed and pitch of the call, connected to the
    destination of [c], with the listener registered. *)
Definition installed (c : nat) (t : LoadTask) (buffer : AudioBuffer) : PitchShifter :=
  {| ps_context := c; ps_buffer := buffer; tempo := load_speed t;
     pitchSemitones := load_pitch t; percentagePlayed := 0;
     connections := {[c]}; listening := true |}.

(** What a load leaves as it found it up to the moment the decoder
    settles: the parameters, the callbacks, and everything that belongs
    to the asset loaded before.  Playback can only have been stopped. *)
Record load_frame (s s' : Session) : Prop := {
  lf_speed : speed s' = speed s;
  lf_pitch : pitch s' = pitch s;
  lf_options : options s' = options s;
  lf_calls : calls s' = calls s;
  lf_ref : pitchShifterRef s' = pitchShifterRef s;
  lf_buffer : audioBuffer s' = audioBuffer s;
  lf_name : audioFileName s' = audioFileName s;
  lf_duration : duration s' = duration s;
  lf_dom : dom (shifters s') = dom (shifters s);
  lf_playing : isPlaying s' = false \/ isPlaying s' = isPlaying s
}.

(** The state after a list of actions, all of which can happen. *)
Definition after (acts : list Action) (s : Session) : Session :=
  match run acts s with
  | Some s' => s'
  | None => s
  end.

(** ** Sample sessions *)

Definition some_options : option UseAudioPlayerOptions :=
  Some {| onPlaybackEnd := true; onError := true |}.

Definition song : File := {| file_name := "song.mp3" |}.
Definition jingle : File := {| file_name := "jingle.mp3" |}.
Definition two_minutes : AudioBuffer := {| buf_duration := 120 |}.
Definition ten_seconds : AudioBuffer := {| buf_duration := 10 |}.
Definition corrupt : Error := {| message := "EncodingError" |}.

(** A fresh session that has loaded a 120-second asset. *)
Definition loaded_120 : Session :=
  loadFile song (inr two_minutes) (useAudioPlayer some_options).

(** The block that brings a 120-second asset to 99.95 percent. *)
Definition last_block : PlayEvent :=
  {| timePlayed := 119.94; ev_percentagePlayed := 99.95 |}.

(** Two loads that overlap.  [song] is requested first and is slow to
    read; [jingle] is requested while [song] is still being read, closes
    the context of the first call and opens its own; then the bytes of
    [song] arrive, so both files are decoded on the second context, and
    the decoder is done with [jingle] first. *)
Definition overlapping_loads : list Action :=
  [ CallLoadFile song; CallLoadFile jingle; CloseSettled 1;
    ArrayBufferSettled 1 None; ArrayBufferSettled 0 None;
    DecodeSettled 1 (inr ten_seconds) ].

(** ** Auxiliary notions for the proofs *)

(** The two halves of [stop], spelled with the refs of a session [r]:
    rewinding the shifter and halting the context. *)
Definition rewind (r : Session) (x : Session) : Session :=
  match pitchShifterRef r with
  | Some n => set_percentagePlayed n 0 (disconnect n x)
  | None => x
  end.

Definition halt (r : Session) (x : Session) : Session :=
  match audioContext r with
  | Some c => suspend c x
  | None => x
  end.

(** ** Sessions the machine can reach, and what holds in all of them *)

(** A session the hook can be in: the one after the first render, or one
    reached from it by actions that can happen. *)
Definition reachable (s : Session) : Prop :=
  exists opts acts, run acts (useAudioPlayer opts) = Some s.

(** The refs, the flags and the store fit together. *)
Record well_formed (s : Session) : Prop := {
  wf_playing :
    isPlaying s = true ->
    is_Some (pitchShifterRef s) /\ is_Some (audioContext s);
  wf_asset :
    forall n, pitchShifterRef s = Some n ->
    exists p, shifters s !! n = Some p /\
      audioBuffer s = Some (ps_buffer p) /\
      duration s = buf_duration (ps_buffer p) /\
      is_Some (audioFileName s) /\ is_Some (audioContext s);
  wf_empty :
    pitchShifterRef s = None ->
    audioBuffer s = None /\ audioFileName s = None /\
    duration s = 0 /\ isPlaying s = false;
  wf_shifters :
    forall n p, shifters s !! n = Some p ->
    connections p ⊆ {[ps_context p]} /\
    is_Some (contexts s !! ps_context p) /\
    listening p = true;
  wf_context :
    forall c, audioContext s = Some c -> is_Some (contexts s !! c);
  wf_loads :
    forall k t, loads s !! k = Some t ->
    load_phase t = AwaitArrayBuffer \/ load_phase t = AwaitDecode ->
    is_Some (audioContext s)
}.

(** ** The hook behind its callers' file input *)

(** [App.tsx] and [MinimalPlayer.tsx] disable the file input while
    [isLoading] is set, so [loadFile] is not called then. *)
Definition ui_enabled (a : Action) (s : Session) : bool :=
  match a with
  | CallLoadFile _ => negb (isLoading s)
  | _ => true
  end.

(** The same, for a user who also leaves the two sliders alone while a
    file is loading.  (The callers do not disable the sliders.) *)
Definition ui_calm (a : Action) (s : Session) : bool :=
  match a with
  | CallLoadFile _ | CallSetSpeed _ | CallSetPitch _ => negb (isLoading s)
  | _ => true
  end.

(** A run in which every action passes the gate [g] when it happens. *)
Fixpoint guarded_run (g : Action -> Session -> bool) (acts : list Action)
    (s : Session) : option Session :=
  match acts with
  | [] => Some s
  | a :: rest =>
      if g a s
      then match step a s with
           | Some s' => guarded_run g rest s'
           | None => None
           end
      else None
  end.

Definition ui_reachable (s : Session) : Prop :=
  exists opts acts, guarded_run ui_enabled acts (useAudioPlayer opts) = Some s.

Definition calm_reachable (s : Session) : Prop :=
  exists opts acts, guarded_run ui_calm acts (useAudioPlayer opts) = Some s.

(** The load [k] has been started and has not settled. *)
Definition in_flight (k : nat) (s : Session) : Prop :=
  exists t, loads s !! k = Some t /\ load_phase t <> Settled.

(** What holds behind the file input: loads do not overlap, [isLoading]
    tells whether one is in flight, only the context in the ref can be
    open, none is open while a load waits for [close()], the context in
    the ref is closed at no other time, and so no [close()] is
    rejected. *)
Record ui_inv (s : Session) : Prop := {
  ui_idle :
    isLoading s = false ->
    forall k t, loads s !! k = Some t -> load_phase t = Settled;
  ui_busy :
    isLoading s = true ->
    exists k, in_flight k s /\
      forall j t, loads s !! j = Some t -> j <> k -> load_phase t = Settled;
  ui_ctx :
    forall c st, contexts s !! c = Some st -> st <> closed ->
      audioContext s = Some c;
  ui_closing :
    forall k t, loads s !! k = Some t -> load_phase t = AwaitClose ->
      forall c st, contexts s !! c = Some st -> st = closed;
  ui_open :
    (forall k t, loads s !! k = Some t -> load_phase t <> AwaitClose) ->
    forall c, audioContext s = Some c -> contexts s !! c <> Some closed;
  ui_resolves :
    forall k t, loads s !! k = Some t -> load_phase t <> AwaitRejectedClose
}.

(** The shifter in the ref runs at the stored speed and pitch, and so
    will the shifter of a load in flight. *)
Record in_sync (s : Session) : Prop := {
  sync_shifter :
    forall n p, pitchShifterRef s = Some n -> shifters s !! n = Some p ->
      tempo p == speed s /\ pitchSemitones p == pitch s;
  sync_loads :
    forall k t, loads s !! k = Some t -> load_phase t <> Settled ->
      load_speed t == speed s /\ load_pitch t == pitch s
}.

(** A change that leaves the loads, the context ref and the shifter ref
    alone, closes no context and opens none, and keeps the parameters and
    the context of every shifter. *)
Record quiet (s s' : Session) : Prop := {
  q_loads : loads s' = loads s;
  q_loading : isLoading s' = isLoading s;
  q_context : audioContext s' = audioContext s;
  q_ref : pitchShifterRef s' = pitchShifterRef s;
  q_speed : speed s' = speed s;
  q_pitch : pitch s' = pitch s;
  q_closed : forall c, contexts s' !! c = Some closed <-> contexts s !! c = Some closed;
  q_dom : forall c, is_Some (contexts s' !! c) <-> is_Some (contexts s !! c);
  q_params : forall n,
    tempo <$> shifters s' !! n = tempo <$> shifters s !! n /\
    pitchSemitones <$> shifters s' !! n = pitchSemitones <$> shifters s !! n /\
    ps_context <$> shifters s' !! n = ps_context <$> shifters s !! n
}.

(** Behind the file input, a shifter built on the context in the ref is
    the shifter in the ref, and while a load waits for its bytes or for
    the decoder no shifter is built on that context yet. *)
Record ui_shifters (s : Session) : Prop := {
  us_current :
    forall n p, shifters s !! n = Some p ->
      audioContext s = Some (ps_context p) -> pitchShifterRef s = Some n;
  us_pending :
    forall k t, loads s !! k = Some t ->
      load_phase t = AwaitArrayBuffer \/ load_phase t = AwaitDecode ->
      forall n p, shifters s !! n = Some p ->
        audioContext s <> Some (ps_context p)
}.

(** The first load of [song] as a run: the bytes arrive, then the
    decoder succeeds. *)
Definition first_load : list Action :=
  [ CallLoadFile song; ArrayBufferSettled 0 None;
    DecodeSettled 0 (inr two_minutes) ].

(** The speed slider is moved while [song] is being read. *)
Definition slider_during_load : list Action :=
  [ CallLoadFile song; CallSetSpeed 1.5; ArrayBufferSettled 0 None;
    DecodeSettled 0 (inr two_minutes) ].

(** A write to a shifter that keeps its context, buffer and listener and
    leaves it connected to its own destination at most. *)
Definition gentle (f : PitchShifter -> PitchShifter) (n : nat) (s : Session) : Prop :=
  forall p, shifters s !! n = Some p ->
    ps_context (f p) = ps_context p /\ ps_buffer (f p) = ps_buffer p /\
    listening (f p) = listening p /\
    (connections p ⊆ {[ps_context p]} -> connections (f p) ⊆ {[ps_context p]}).

(** The two actions that are calls of [setSpeed] or [setPitch]. *)
Definition is_setter (a : Action) : bool :=
  match a with
  | CallSetSpeed _ | CallSetPitch _ => true
  | _ => false
  end.


(** The call of [play]. *)
Definition is_play (a : Action) : bool :=
  match a with
  | CallPlay => true
  | _ => false
  end.

(** The actions in which a decode settles with a buffer. *)
Definition installs (a : Action) : bool :=
  match a with
  | DecodeSettled _ (inr _) => true
  | _ => false
  end.

(** Two records of one call: only the phase may differ. *)
Definition same_call (t t' : LoadTask) : Prop :=
  load_file t' = load_file t /\ load_speed t' = load_speed t /\
  load_pitch t' = load_pitch t.

(** * Properties *)

(** ** The display format *)

Section FormatTime.

Local Open Scope Z_scope.

Lemma trunc_nonneg (x : Q) : (0 <= x)%Q -> JS.trunc x = Qfloor x.
Proof.
  intros H. unfold JS.trunc.
  destruct (Qle_bool 0 x) eqn:E; [reflexivity|].
  apply Qle_bool_iff in H. congruence.
Qed.

(** Whole minutes: the floor of the quotient is the quotient of the floor. *)
Lemma floor_div_60 (s : Q) : JS.Math_floor (s / 60) = Qfloor s / 60.
Proof.
  destruct s as [n d]. unfold JS.Math_floor, Qdiv, Qmult, Qinv, Qfloor. simpl.
  rewrite Z.mul_1_r, Pos2Z.inj_mul. apply eq_sym, Z.div_div; lia.
Qed.

(** Whole seconds: the floor of the remainder is the floor modulo 60. *)
Lemma floor_rem_60 (s : Q) :
  (0 <= s)%Q -> JS.Math_floor (JS.rem s 60) = Qfloor s mod 60.
Proof.
  intros H. unfold JS.rem. rewrite trunc_nonneg.
  - fold (JS.Math_floor (s / 60)). rewrite floor_div_60.
    destruct s as [n d]. unfold JS.Math_floor, Qminus, Qplus, Qopp, Qmult, inject_Z, Qfloor.
    simpl. rewrite Z.mul_1_r, Pos.mul_1_r.
    replace (n + - (60 * (n / Z.pos d / 60) * 1) * Z.pos d)
      with (n + (- (60 * (n / Z.pos d / 60))) * Z.pos d) by ring.
    rewrite Z.div_add by lia. rewrite Z.mod_eq by lia. ring.
  - unfold Qdiv. apply Qmult_le_0_compat; [assumption|]. unfold Qle; simpl; lia.
Qed.

Lemma padStart_two_digits (n : Z) :
  0 <= n < 60 -> JS.padStart 2 "0" (JS.toString n) = two_digits n.
Proof.
  intros H.
  assert (E : n = Z.of_nat (Z.to_nat n)) by lia.
  assert (L : (Z.to_nat n < 60)%nat) by lia.
  rewrite E. generalize dependent (Z.to_nat n). clear.
  intros m _ L. do 60 (destruct m as [|m]; [reflexivity|]). lia.
Qed.

(** A positive numeral starts with a digit other than zero. *)
Lemma to_uint_head (p : positive) :
  exists c rest, NilEmpty.string_of_uint (Pos.to_uint p) = String c rest /\
                 (49 <= nat_of_ascii c <= 57)%nat.
Proof.
  pose proof (Unsigned.to_uint_nonnil p) as Hnil.
  pose proof (Unsigned.to_uint_nonzero p) as Hnz.
  assert (Hn : Decimal.unorm (Pos.to_uint p) = Pos.to_uint p).
  { pose proof (DecimalZ.to_of (Z.to_int (Z.pos p))) as H.
    rewrite DecimalZ.of_to in H. simpl in H. congruence. }
  destruct (Pos.to_uint p) as [|u|u|u|u|u|u|u|u|u|u] eqn:E;
    try (eexists; eexists; split; [reflexivity|vm_compute; lia]).
  - congruence.
  - exfalso. rewrite DecimalFacts.unorm_D0 in Hn.
    destruct u as [|u|u|u|u|u|u|u|u|u|u]; try congruence;
      match type of Hn with
      | Decimal.unorm ?d = _ =>
          let H := fresh in
          assert (H : (Decimal.nb_digits (Decimal.unorm d) <= Decimal.nb_digits d)%nat)
            by (apply DecimalFacts.nb_digits_unorm; discriminate);
          rewrite Hn in H; simpl in H; lia
      end.
Qed.

Lemma toString_no_leading_zero (m : Z) : 0 <= m -> no_leading_zero (JS.toString m).
Proof.
  intros H. destruct m as [|p|p]; [left; reflexivity| |lia].
  right. unfold JS.toString. simpl.
  destruct (to_uint_head p) as (c & rest & E & R).
  exists c, rest. split; [|exact R].
  unfold NilZero.string_of_uint.
  destruct (Pos.to_uint p); [discriminate E|exact E..].
Qed.

Lemma toString_reads_back (m : Z) : reads_as (JS.toString m) m.
Proof.
  unfold reads_as, JS.toString. rewrite NilZero.isi.
  - simpl. f_equal. apply DecimalZ.of_to.
  - destruct m; simpl; try discriminate.
    intros H. injection H as H. exact (Unsigned.to_uint_nonnil _ H).
  - destruct m; simpl; try discriminate.
    intros H. injection H as H. exact (Unsigned.to_uint_nonnil _ H).
Qed.

End FormatTime.

(** ** [formatTime] on doubles *)

Section Binary64Facts.

Lemma pow2_pos (e : Z) : 0 < 2 ^ e.
Proof. apply Qpower_0_lt. reflexivity. Qed.

Lemma pow2_add (a b : Z) : 2 ^ (a + b) == 2 ^ a * 2 ^ b.
Proof. apply Qpower_plus. discriminate. Qed.

Lemma pow2_le (a b : Z) : (a <= b)%Z -> 2 ^ a <= 2 ^ b.
Proof. intros H. apply Qpower_le_compat_l; [exact H|]. unfold Qle; simpl; lia. Qed.

Lemma pow2_lt (a b : Z) : (a < b)%Z -> 2 ^ a < 2 ^ b.
Proof. intros H. apply Qpower_lt_compat_l; [exact H|]. reflexivity. Qed.

Lemma pow2_lt_inv (a b : Z) : 2 ^ a < 2 ^ b -> (a < b)%Z.
Proof. intros H. apply (Qpower_lt_compat_l_inv 2); [exact H|]. reflexivity. Qed.

Lemma pow2_Z (n : Z) : (0 <= n)%Z -> 2 ^ n == inject_Z (2 ^ n).
Proof. intros H. symmetry. apply (Zpower_Qpower 2 n H). Qed.

Lemma pow2_succ (e : Z) : 2 ^ (e + 1) == 2 * 2 ^ e.
Proof. rewrite pow2_add. change (2 ^ 1) with 2. ring. Qed.

Lemma pow2_pred (e : Z) : 2 * 2 ^ (e - 1) == 2 ^ e.
Proof.
  rewrite <- (pow2_succ (e - 1)). replace (e - 1 + 1)%Z with e by lia. reflexivity.
Qed.

Lemma pow2_inv (e : Z) : 2 ^ e * 2 ^ (- e) == 1.
Proof. rewrite <- pow2_add. replace (e + - e)%Z with 0%Z by lia. reflexivity. Qed.

(** [Binary64.log2_floor] is the binary logarithm rounded down. *)
Lemma log2_floor_spec (x : Q) :
  0 < x -> 2 ^ Binary64.log2_floor x <= x /\ x < 2 ^ (Binary64.log2_floor x + 1).
Proof.
  intros Hx. unfold Binary64.log2_floor.
  destruct x as [n d]. cbn [Qnum Qden].
  assert (Hn : (0 < n)%Z) by (unfold Qlt in Hx; simpl in Hx; lia).
  set (a := Z.log2 n). set (b := Z.log2 (Z.pos d)).
  destruct (Z.log2_spec n Hn) as [Ha1 Ha2]. fold a in Ha1, Ha2.
  destruct (Z.log2_spec (Z.pos d) eq_refl) as [Hb1 Hb2]. fold b in Hb1, Hb2.
  assert (Ha0 : (0 <= a)%Z) by apply Z.log2_nonneg.
  assert (Hb0 : (0 <= b)%Z) by apply Z.log2_nonneg.
  assert (Ea : 2 ^ a == inject_Z (2 ^ a)) by (apply pow2_Z; exact Ha0).
  assert (Ea' : 2 ^ (a + 1) == inject_Z (2 ^ (a + 1))) by (apply pow2_Z; lia).
  assert (Eb : 2 ^ b == inject_Z (2 ^ b)) by (apply pow2_Z; exact Hb0).
  assert (Eb' : 2 ^ (b + 1) == inject_Z (2 ^ (b + 1))) by (apply pow2_Z; lia).
  assert (Ex : (n # d) * inject_Z (Z.pos d) == inject_Z n).
  { rewrite (Qmake_Qdiv n d). field. discriminate. }
  assert (Hd : 0 < inject_Z (Z.pos d)) by reflexivity.
  assert (Qa1 : inject_Z (2 ^ a) <= inject_Z n) by (rewrite <- Zle_Qle; exact Ha1).
  assert (Qa2 : inject_Z n < inject_Z (2 ^ (a + 1))) by (rewrite <- Zlt_Qlt; exact Ha2).
  assert (Qb1 : inject_Z (2 ^ b) <= inject_Z (Z.pos d)) by (rewrite <- Zle_Qle; exact Hb1).
  assert (Qb2 : inject_Z (Z.pos d) < inject_Z (2 ^ (b + 1)))
    by (rewrite <- Zlt_Qlt; exact Hb2).
  rewrite <- Ea, <- Ea', <- Eb, <- Eb' in *.
  assert (Ec : 2 ^ (a - b) * 2 ^ b == 2 ^ a).
  { rewrite <- pow2_add. replace (a - b + b)%Z with a by lia. reflexivity. }
  pose proof (pow2_succ a) as Sa. pose proof (pow2_succ b) as Sb.
  pose proof (pow2_succ (a - b)) as Sc. pose proof (pow2_pred (a - b)) as Pc.
  pose proof (pow2_pos (a - b)) as Pc0. pose proof (pow2_pos b) as Pb0.
  pose proof (pow2_pos (a - b - 1)) as Pc1.
  destruct (Qle_bool (2 ^ (a - b)) (n # d)) eqn:E.
  - apply Qle_bool_iff in E. split; [exact E|].
    rewrite Sc. generalize dependent (2 ^ (a - b)). generalize dependent (2 ^ b).
    generalize dependent (2 ^ a). generalize dependent (2 ^ (a + 1)).
    generalize dependent (2 ^ (b + 1)).
    generalize dependent (inject_Z n). generalize dependent (inject_Z (Z.pos d)).
    generalize dependent (n # d). clear. intros. nra.
  - assert (E' : n # d < 2 ^ (a - b)).
    { apply Qnot_le_lt. intros H. apply Qle_bool_iff in H. congruence. }
    replace (a - b - 1 + 1)%Z with (a - b)%Z by lia. split; [|exact E'].
    generalize dependent (2 ^ (a - b)). generalize dependent (2 ^ b).
    generalize dependent (2 ^ a). generalize dependent (2 ^ (a + 1)).
    generalize dependent (2 ^ (b + 1)). generalize dependent (2 ^ (a - b - 1)).
    generalize dependent (inject_Z n). generalize dependent (inject_Z (Z.pos d)).
    generalize dependent (n # d). clear. intros. nra.
Qed.

Lemma scale_le (a b p q : Q) : 0 < p -> p * q == 1 -> a * q <= b -> a <= b * p.
Proof.
  intros Hp E H.
  assert (H1 : 0 <= (b - a * q) * p) by (apply Qmult_le_0_compat; lra).
  assert (H2 : a * (p * q) == a) by (rewrite E; ring).
  lra.
Qed.

Lemma scale_lt (a b p q : Q) : 0 < p -> p * q == 1 -> a < b * q -> a * p < b.
Proof.
  intros Hp E H.
  assert (H1 : 0 < (b * q - a) * p) by (apply Qmult_lt_0_compat; lra).
  assert (H2 : b * (p * q) == b) by (rewrite E; ring).
  lra.
Qed.

Lemma Qfloor_unique (r : Q) (k : Z) :
  inject_Z k <= r -> r < inject_Z (k + 1) -> Qfloor r = k.
Proof.
  intros H1 H2.
  assert (A : (k <= Qfloor r)%Z).
  { rewrite <- (Qfloor_Z k). apply Qfloor_resp_le. exact H1. }
  assert (B : (Qfloor r < k + 1)%Z).
  { rewrite Zlt_Qlt. eapply Qle_lt_trans; [apply Qfloor_le|exact H2]. }
  lia.
Qed.

Lemma nearest_even_ge (q : Q) (K : Z) : inject_Z K <= q -> (K <= Binary64.nearest_even q)%Z.
Proof.
  intros H. unfold Binary64.nearest_even.
  assert (A : (K <= Qfloor q)%Z).
  { rewrite <- (Qfloor_Z K). apply Qfloor_resp_le. exact H. }
  destruct (Qcompare (q - inject_Z (Qfloor q)) (1 # 2)); [destruct (Z.even (Qfloor q))| |]; lia.
Qed.

Lemma nearest_even_lt (q : Q) (M : Z) :
  q + (1 # 2) < inject_Z M -> (Binary64.nearest_even q < M)%Z.
Proof.
  intros H. unfold Binary64.nearest_even.
  pose proof (Qfloor_le q) as Hf.
  assert (A : (Qfloor q < M)%Z).
  { rewrite Zlt_Qlt. lra. }
  destruct (Qcompare (q - inject_Z (Qfloor q)) (1 # 2)) eqn:E.
  - apply Qeq_alt in E.
    assert (B : (Qfloor q + 1 < M)%Z).
    { rewrite Zlt_Qlt, inject_Z_plus. change (inject_Z 1) with 1. lra. }
    destruct (Z.even (Qfloor q)); lia.
  - exact A.
  - apply Qgt_alt in E. rewrite Zlt_Qlt, inject_Z_plus. change (inject_Z 1) with 1. lra.
Qed.

Lemma ulp_exponent_pos (x : Q) :
  0 < x ->
  let L := Binary64.log2_floor (Qabs x) in
  2 ^ L <= x /\ x < 2 ^ (L + 1) /\ Binary64.ulp_exponent x = Z.max (L - 52) (-1074).
Proof.
  intros Hx L.
  assert (Ha : Qabs x == x) by (apply Qabs_pos; lra).
  assert (Hp : 0 < Qabs x) by (rewrite Ha; exact Hx).
  destruct (log2_floor_spec (Qabs x) Hp) as [H1 H2]. fold L in H1, H2.
  rewrite Ha in H1, H2. auto.
Qed.

(** A positive number below [2^53] whose distance to the next integer
    above exceeds half a unit in the last place rounds to a number with
    the same integer part. *)
Lemma round_keeps_floor (x : Q) (k : Z) :
  0 < x -> x < 2 ^ 53 -> (0 <= k)%Z -> inject_Z k <= x ->
  x + 2 ^ (Binary64.ulp_exponent x - 1) < inject_Z (k + 1) ->
  exists r, Binary64.round x = Binary64.Finite r /\ Qfloor r = k.
Proof.
  intros Hx Hb Hk0 Hk Hgap.
  destruct (ulp_exponent_pos x Hx) as (HL1 & HL2 & He).
  set (L := Binary64.log2_floor (Qabs x)) in *. set (e := Binary64.ulp_exponent x) in *.
  assert (HL : (L <= 52)%Z).
  { assert (2 ^ L < 2 ^ 53) by lra. apply pow2_lt_inv in H. lia. }
  assert (He0 : (e <= 0)%Z) by lia.
  unfold Binary64.round. fold e.
  assert (Hz : Qeq_bool x 0 = false).
  { destruct (Qeq_bool x 0) eqn:E; [|reflexivity]. apply Qeq_bool_iff in E. lra. }
  rewrite Hz.
  set (m := Binary64.nearest_even (x / 2 ^ e)).
  pose proof (pow2_pos e) as Pe. pose proof (pow2_inv e) as Pinv.
  pose proof (pow2_pos (- e)) as Pne.
  assert (Pz : 2 ^ (- e) == inject_Z (2 ^ (- e))) by (apply pow2_Z; lia).
  pose proof (pow2_pred e) as Ppred. pose proof (pow2_pos (e - 1)) as Ppe.
  assert (Hdiv : x / 2 ^ e == x * 2 ^ (- e)).
  { unfold Qdiv. rewrite Qpower_opp. reflexivity. }
  assert (Hlow : (k * 2 ^ (- e) <= m)%Z).
  { apply nearest_even_ge. rewrite inject_Z_mult, <- Pz, Hdiv.
    apply Qmult_le_compat_r; lra. }
  assert (Hhigh : (m < (k + 1) * 2 ^ (- e))%Z).
  { apply nearest_even_lt. rewrite inject_Z_mult, <- Pz, Hdiv.
    generalize dependent (inject_Z (k + 1)). generalize dependent (2 ^ (- e)).
    generalize dependent (2 ^ (e - 1)). generalize dependent (2 ^ e).
    clear. intros. nra. }
  set (r := inject_Z m * 2 ^ e).
  assert (Hr1 : inject_Z k <= r).
  { rewrite Zle_Qle in Hlow. rewrite inject_Z_mult, <- Pz in Hlow. subst r.
    exact (scale_le _ _ _ _ Pe Pinv Hlow). }
  assert (Hr2 : r < inject_Z (k + 1)).
  { rewrite Zlt_Qlt in Hhigh. rewrite inject_Z_mult, <- Pz in Hhigh. subst r.
    exact (scale_lt _ _ _ _ Pe Pinv Hhigh). }
  assert (Hk1 : inject_Z (k + 1) <= x + 1).
  { rewrite inject_Z_plus. change (inject_Z 1) with 1. lra. }
  assert (Hbig : 2 ^ 53 + 1 < 2 ^ 1024) by (vm_compute; reflexivity).
  assert (Hr0 : 0 <= r).
  { eapply Qle_trans; [|exact Hr1]. rewrite <- (Zle_Qle 0). exact Hk0. }
  assert (Hov : Qle_bool (2 ^ 1024) (Qabs r) = false).
  { destruct (Qle_bool (2 ^ 1024) (Qabs r)) eqn:E; [|reflexivity].
    apply Qle_bool_iff in E. rewrite (Qabs_pos r Hr0) in E. lra. }
  cbv zeta. fold m. fold r. rewrite Hov.
  eexists. split; [reflexivity|].
  rewrite (Qfloor_comp _ _ (Qred_correct r)).
  apply Qfloor_unique; assumption.
Qed.

(** A double other than zero is a whole number of units in its last
    place. *)
Lemma double_shape (s : Q) :
  ~ s == 0 -> Binary64.is_double s = true ->
  exists m, s == inject_Z m * 2 ^ Binary64.ulp_exponent s.
Proof.
  intros Hs. unfold Binary64.is_double, Binary64.round.
  destruct (Qeq_bool s 0) eqn:E; [apply Qeq_bool_iff in E; contradiction|].
  cbv zeta.
  destruct (Qle_bool (2 ^ 1024) _); [discriminate|].
  intros H. apply Qeq_bool_iff in H. rewrite Qred_correct in H.
  eexists. symmetry. exact H.
Qed.

(** The quotient of line 184 has the right integer part: for a double
    [0 <= s < 2^53], rounding [s / 60] to a double does not reach the
    next whole minute. *)
Lemma quotient_keeps_floor (s : Q) :
  Binary64.is_double s = true -> 0 <= s -> s < 2 ^ 53 ->
  exists r, Binary64.round (s / 60) = Binary64.Finite r /\ Qfloor r = (Qfloor s / 60)%Z.
Proof.
  intros Hd Hs0 Hs53.
  pose proof (floor_div_60 s) as Hfl. unfold JS.Math_floor in Hfl. rewrite <- Hfl.
  destruct (Qeq_dec s 0) as [Hz|Hnz].
  { exists 0. unfold Binary64.round.
    assert (E : Qeq_bool (s / 60) 0 = true).
    { apply Qeq_bool_iff. rewrite Hz. reflexivity. }
    rewrite E. split; [reflexivity|].
    rewrite (Qfloor_comp (s / 60) 0); [reflexivity|]. rewrite Hz. reflexivity. }
  assert (Hs : 0 < s) by (destruct (Qlt_le_dec 0 s) as [|H]; [assumption|];
                          exfalso; apply Hnz; lra).
  set (x := s / 60).
  assert (Ex : x * 60 == s) by (unfold x; field).
  assert (Hx : 0 < x) by lra.
  assert (Hx53 : x < 2 ^ 53) by lra.
  set (k := Qfloor x).
  assert (Hk1 : inject_Z k <= x) by apply Qfloor_le.
  assert (Hk2 : x < inject_Z (k + 1)) by apply Qlt_floor.
  assert (Hk0 : (0 <= k)%Z).
  { change 0%Z with (Qfloor 0). apply Qfloor_resp_le. lra. }
  apply round_keeps_floor; try assumption.
  destruct (ulp_exponent_pos x Hx) as (HL1 & HL2 & He).
  set (L := Binary64.log2_floor (Qabs x)) in *. set (e := Binary64.ulp_exponent x) in *.
  assert (HL : (L <= 52)%Z).
  { assert (2 ^ L < 2 ^ 53) by lra. apply pow2_lt_inv in H. lia. }
  pose proof (pow2_pred e) as Ppred. pose proof (pow2_pos (e - 1)) as Ppe.
  destruct (Qlt_le_dec x (1 # 2)) as [Hsmall|Hlarge].
  - (* the quotient is below one half *)
    assert (Hk : k = 0%Z).
    { apply Qfloor_unique; [change (inject_Z 0) with 0; lra|].
      change (inject_Z (0 + 1)) with 1. lra. }
    rewrite Hk. change (inject_Z (0 + 1)) with 1.
    assert (He1 : 2 ^ (e - 1) <= 2 ^ (-1)) by (apply pow2_le; lia).
    change (2 ^ (-1)) with (1 # 2) in He1. lra.
  - (* the quotient is at least one half: no subnormal numbers around *)
    assert (HL' : (-1 <= L)%Z).
    { assert (H : 2 ^ (-1) < 2 ^ (L + 1)) by (change (2 ^ (-1)) with (1 # 2); lra).
      apply pow2_lt_inv in H. lia. }
    assert (Ee : e = (L - 52)%Z) by lia.
    assert (Pe : 2 ^ e * 2 ^ 52 == 2 ^ L).
    { rewrite <- pow2_add. rewrite Ee. replace (L - 52 + 52)%Z with L by lia. reflexivity. }
    (* the dividend *)
    destruct (double_shape s Hnz Hd) as [m Hm].
    destruct (ulp_exponent_pos s Hs) as (HS1 & HS2 & HSe).
    set (Ls := Binary64.log2_floor (Qabs s)) in *. set (es := Binary64.ulp_exponent s) in *.
    assert (HLs : (Ls <= 52)%Z).
    { assert (2 ^ Ls < 2 ^ 53) by lra. apply pow2_lt_inv in H. lia. }
    assert (HLs' : (4 <= Ls)%Z).
    { assert (H : 2 ^ 4 < 2 ^ (Ls + 1)) by (change (2 ^ 4) with 16; lra).
      apply pow2_lt_inv in H. lia. }
    assert (Ees : es = (Ls - 52)%Z) by lia.
    assert (Pes : 2 ^ es * 2 ^ 53 == 2 ^ (Ls + 1)).
    { rewrite <- pow2_add. rewrite Ees. replace (Ls - 52 + 53)%Z with (Ls + 1)%Z by lia.
      reflexivity. }
    pose proof (pow2_pos es) as Pes0. pose proof (pow2_inv es) as Pinv.
    pose proof (pow2_pos (- es)) as Pnes.
    assert (Pz : 2 ^ (- es) == inject_Z (2 ^ (- es))) by (apply pow2_Z; lia).
    (* the next multiple of 60 is a whole number of units above [s] *)
    assert (Hint : (m < 60 * (k + 1) * 2 ^ (- es))%Z).
    { rewrite Zlt_Qlt, !inject_Z_mult, <- Pz.
      assert (H : inject_Z m * 2 ^ es < inject_Z 60 * inject_Z (k + 1)).
      { rewrite <- Hm. change (inject_Z 60) with 60. lra. }
      assert (H1 : 0 < (inject_Z 60 * inject_Z (k + 1) - inject_Z m * 2 ^ es) * 2 ^ (- es))
        by (apply Qmult_lt_0_compat; lra).
      assert (H2 : inject_Z m * (2 ^ es * 2 ^ (- es)) == inject_Z m) by (rewrite Pinv; ring).
      lra. }
    assert (Hint' : (m + 1 <= 60 * (k + 1) * 2 ^ (- es))%Z) by lia.
    assert (Hstep : s + 2 ^ es <= 60 * inject_Z (k + 1)).
    { rewrite Zle_Qle, inject_Z_plus, !inject_Z_mult, <- Pz in Hint'.
      change (inject_Z 60) with 60 in Hint'. change (inject_Z 1) with 1 in Hint'.
      assert (H1 : 0 <= (60 * inject_Z (k + 1) * 2 ^ (- es) - (inject_Z m + 1)) * 2 ^ es)
        by (apply Qmult_le_0_compat; lra).
      assert (H2 : 60 * inject_Z (k + 1) * (2 ^ es * 2 ^ (- es)) == 60 * inject_Z (k + 1))
        by (rewrite Pinv; ring).
      lra. }
    change (2 ^ 53) with (2 * 2 ^ 52) in *.
    change (2 ^ 52) with 4503599627370496 in *.
    lra.
Qed.

(** A whole number below [2^53] prints all its digits. *)
Lemma toString_safe (n : Z) :
  (0 <= n < 2 ^ 53)%Z -> Binary64.toString (Binary64.IFinite n) = JS.toString n.
Proof.
  intros [H0 H1]. unfold Binary64.toString, Binary64.digits.
  destruct (n <? 0)%Z eqn:E; [apply Z.ltb_lt in E; lia|].
  destruct (n <? 2 ^ 53)%Z eqn:E'; [reflexivity|]. apply Z.ltb_ge in E'. lia.
Qed.

(** C9 (as the code has it).  For every double [s] with [0 <= s < 2^53],
    [formatTime s] is the decimal numeral of the whole minutes
    [floor(s/60)], without a leading zero, then a colon, then
    [floor(s) mod 60] written with exactly two digits; on these inputs the
    rounding of the division does not show.  In particular 65 gives
    "1:05", 5 gives "0:05" and 600 gives "10:00". *)
Theorem formatTime_minutes_seconds :
  (forall s : Q, Binary64.is_double s = true -> 0 <= s -> s < 2 ^ 53 ->
     Binary64.formatTime (Binary64.Finite s) = formatTime_spec s /\
     Binary64.formatTime (Binary64.Finite s) = formatTime s /\
     reads_as (Binary64.toString (Binary64.Math_floor (Binary64.div (Binary64.Finite s) 60)))
       (Qfloor s / 60) /\
     no_leading_zero
       (Binary64.toString (Binary64.Math_floor (Binary64.div (Binary64.Finite s) 60)))) /\
  Binary64.formatTime (Binary64.Finite 65) = "1:05"%string /\
  Binary64.formatTime (Binary64.Finite 5) = "0:05"%string /\
  Binary64.formatTime (Binary64.Finite 600) = "10:00"%string.
Proof.
  split; [|repeat split; vm_compute; reflexivity].
  intros s Hd Hs Hb.
  assert (Hf : (0 <= Qfloor s)%Z).
  { change 0%Z with (Qfloor 0). apply Qfloor_resp_le. exact Hs. }
  assert (Hf53 : (Qfloor s < 2 ^ 53)%Z).
  { rewrite Zlt_Qlt. eapply Qle_lt_trans; [apply Qfloor_le|].
    rewrite <- pow2_Z by lia. exact Hb. }
  assert (Hm : (0 <= Qfloor s / 60 < 2 ^ 53)%Z).
  { split; [apply Z.div_pos; lia|].
    apply Z.le_lt_trans with (Qfloor s); [|exact Hf53].
    apply Z.div_le_upper_bound; lia. }
  assert (Hsec : (0 <= Qfloor s mod 60 < 60)%Z) by (apply Z.mod_pos_bound; lia).
  destruct (quotient_keeps_floor s Hd Hs Hb) as (r & Hr & Hfl).
  assert (Emins : Binary64.toString (Binary64.Math_floor (Binary64.div (Binary64.Finite s) 60))
                  = JS.toString (Qfloor s / 60)).
  { unfold Binary64.div. rewrite Hr. unfold Binary64.Math_floor. rewrite Hfl.
    apply toString_safe. exact Hm. }
  assert (Esecs : Binary64.toString (Binary64.Math_floor (Binary64.rem (Binary64.Finite s) 60))
                  = JS.toString (Qfloor s mod 60)).
  { unfold Binary64.rem, Binary64.Math_floor.
    pose proof (floor_rem_60 s Hs) as H. unfold JS.Math_floor in H. rewrite H.
    apply toString_safe. lia. }
  assert (Espec : Binary64.formatTime (Binary64.Finite s) = formatTime_spec s).
  { unfold Binary64.formatTime, formatTime_spec. cbv zeta. rewrite Emins, Esecs.
    rewrite padStart_two_digits by exact Hsec. reflexivity. }
  split; [exact Espec|]. split; [|split].
  - rewrite Espec. unfold formatTime, formatTime_spec.
    rewrite floor_div_60, floor_rem_60 by exact Hs.
    rewrite padStart_two_digits by exact Hsec. reflexivity.
  - rewrite Emins. apply toString_reads_back.
  - rewrite Emins. apply toString_no_leading_zero. lia.
Qed.

Lemma formatTime_minutes_seconds_witness :
  Binary64.formatTime (Binary64.Finite 125.75) = formatTime_spec 125.75.
Proof.
  assert (Hd : Binary64.is_double 125.75 = true) by (vm_compute; reflexivity).
  assert (H0 : 0 <= 125.75) by (unfold Qle; simpl; lia).
  assert (Hb : 125.75 < 2 ^ 53) by (vm_compute; reflexivity).
  exact (proj1 (proj1 formatTime_minutes_seconds 125.75 Hd H0 Hb)).
Defined.

(** C9 (as stated) fails on large numbers.  The double
    67553994410557496 holds 1125899906842624 whole minutes and 56
    seconds, but the quotient rounds up to the next double, and
    [formatTime] shows the minute 1125899906842625.  For [10^21] the
    minutes are printed with their 17 significant digits and zeros, not
    as [floor(s/60)]; for [Infinity] the text is "Infinity:NaN". *)
Lemma formatTime_large_seconds :
  (Binary64.is_double 67553994410557496 = true /\
   0 <= 67553994410557496 /\
   (Qfloor 67553994410557496 / 60)%Z = 1125899906842624%Z /\
   formatTime_spec 67553994410557496 = "1125899906842624:56"%string /\
   Binary64.formatTime (Binary64.Finite 67553994410557496)
   = "1125899906842625:56"%string) /\
  (Binary64.is_double (10 ^ 21) = true /\
   (Qfloor (10 ^ 21) / 60)%Z = 16666666666666666666%Z /\
   Binary64.formatTime (Binary64.Finite (10 ^ 21))
   = "16666666666666666000:40"%string) /\
  Binary64.formatTime (Binary64.Infinity false) = "Infinity:NaN"%string.
Proof.
  split; [|split].
  - split; [vm_compute; reflexivity|]. split; [unfold Qle; simpl; lia|].
    split; [vm_compute; reflexivity|]. split; vm_compute; reflexivity.
  - split; [vm_compute; reflexivity|]. split; vm_compute; reflexivity.
  - vm_compute. reflexivity.
Qed.

End Binary64Facts.

Example formatTime_negative : formatTime (-5) = "-1:-5"%string.
Proof. reflexivity. Qed.

Example formatTime_fraction : formatTime 125.75 = "2:05"%string.
Proof. reflexivity. Qed.

(** ** Tactics and frame lemmas *)

(** Unfolds the controls down to record updates and case-splits on every
    ref and store lookup they test. *)
Ltac frame_ops :=
  unfold play_listener;
  unfold stop, play, pause, seek, setSpeed, setPitch,
    call_onPlaybackEnd, call_onError, suspend, resume, close, transition,
    set_percentagePlayed, set_tempo, set_pitchSemitones, disconnect, connect,
    on_play, update_shifter;
  simpl; repeat (case_match; simpl in *); try reflexivity; try congruence.

(** A state change of a context touches the store of contexts only. *)
Lemma transition_frame (c : nat) (st : AudioContextState) (s : Session) :
  shifters (transition c st s) = shifters s /\
  pitchShifterRef (transition c st s) = pitchShifterRef s /\
  audioContext (transition c st s) = audioContext s /\
  isLoading (transition c st s) = isLoading s /\
  isPlaying (transition c st s) = isPlaying s /\
  currentTime (transition c st s) = currentTime s.
Proof. unfold transition. repeat case_match; simpl; auto 10. Qed.

(** What [stop] leaves behind. *)
Lemma stop_effect (s : Session) :
  isPlaying (stop s) = false /\
  currentTime (stop s) = 0 /\
  calls (stop s) = calls s /\
  options (stop s) = options s /\
  forall n, pitchShifterRef s = Some n ->
    shifters (stop s) !! n
    = with_percentagePlayed 0 ∘ with_connections ∅ <$> shifters s !! n.
Proof.
  repeat split; try (frame_ops; fail).
  intros n Hn. unfold stop. rewrite Hn.
  frame_ops; rewrite !lookup_alter_eq; destruct (shifters s !! n); reflexivity.
Qed.

(** ** [seek], [setSpeed], [setPitch] *)

Section Parameters.

(** C1 (as the code has it).  [seek(t)] stores [t] itself as the
    observable position: nothing is clamped, and the duration is not
    touched.  The position lies in [0, d] after [seek(t)] exactly when
    [t] does.  When a shifter is loaded and the duration is positive, its
    cursor is set to the fraction [t / d]. *)
Theorem seek_stores_time (t : Q) (s : Session) :
  currentTime (seek t s) = t /\
  duration (seek t s) = duration s /\
  (0 <= currentTime (seek t s) <= duration (seek t s) <-> 0 <= t <= duration s) /\
  (forall n p, pitchShifterRef s = Some n -> shifters s !! n = Some p ->
     0 < duration s ->
     shifters (seek t s) !! n = Some (with_percentagePlayed (t / duration s) p)).
Proof.
  assert (Hc : currentTime (seek t s) = t) by frame_ops.
  assert (Hd : duration (seek t s) = duration s) by frame_ops.
  split; [exact Hc|]. split; [exact Hd|]. split; [rewrite Hc, Hd; tauto|].
  intros n p Hn Hp Hpos. unfold seek. simpl. rewrite Hn.
  unfold JS.gt. destruct (Qle_bool (duration s) 0) eqn:E.
  - apply Qle_bool_iff in E. exfalso. apply (Qlt_not_le _ _ Hpos E).
  - unfold set_percentagePlayed, update_shifter. simpl.
    rewrite lookup_alter_eq, Hp. reflexivity.
Qed.

Lemma seek_stores_time_witness :
  currentTime (seek 30 loaded_120) = 30 /\
  shifters (seek 30 loaded_120) !! 0%nat
  = Some (with_percentagePlayed (30 / 120) (installed 0 
            {| load_file := song; load_speed := 1; load_pitch := 0;
               load_phase := AwaitDecode |} two_minutes)).
Proof.
  pose proof (seek_stores_time 30 loaded_120) as H.
  split; [exact (proj1 H)|].
  apply (proj2 (proj2 (proj2 H)) 0%nat).
  - reflexivity.
  - vm_compute. reflexivity.
  - reflexivity.
Defined.

(** C1 (as stated) fails: on the 120-second asset [seek(-5)] leaves the
    position at -5, not 0 and not inside [0, 120], and [seek(500)]
    leaves it at 500, not 120. *)
Lemma seek_out_of_range :
  duration loaded_120 = 120 /\
  currentTime (seek (-5) loaded_120) = -5 /\
  ~ currentTime (seek (-5) loaded_120) == 0 /\
  ~ 0 <= currentTime (seek (-5) loaded_120) /\
  currentTime (seek 500 loaded_120) = 500 /\
  ~ currentTime (seek 500 loaded_120) == 120 /\
  ~ currentTime (seek 500 loaded_120) <= duration (seek 500 loaded_120).
Proof.
  vm_compute. repeat split; intros H; try discriminate H; apply H; reflexivity.
Qed.

(** C6.  Speed and pitch are independent: for every new speed (so for
    every speed in [0.5, 2.0]) [setSpeed] leaves the stored pitch and the
    [pitchSemitones] of every shifter as they were, and for every new
    pitch (so for every pitch in [-12, 12]) [setPitch] leaves the stored
    speed and the [tempo] of every shifter as they were. *)
Theorem speed_pitch_independent (newSpeed newPitch : Q) (s : Session) :
  (pitch (setSpeed newSpeed s) = pitch s /\
   forall n, pitchSemitones <$> shifters (setSpeed newSpeed s) !! n
             = pitchSemitones <$> shifters s !! n) /\
  (speed (setPitch newPitch s) = speed s /\
   forall n, tempo <$> shifters (setPitch newPitch s) !! n
             = tempo <$> shifters s !! n).
Proof.
  split; split; try (frame_ops; fail).
  - intros n. unfold setSpeed. simpl. repeat case_match; simpl; try reflexivity.
    rewrite lookup_alter. case_decide; [subst|reflexivity].
    destruct (shifters s !! n); reflexivity.
  - intros n. unfold setPitch. simpl. repeat case_match; simpl; try reflexivity.
    rewrite lookup_alter. case_decide; [subst|reflexivity].
    destruct (shifters s !! n); reflexivity.
Qed.

(** The setters do reach the shifter: a new speed becomes its tempo. *)
Lemma setSpeed_reaches_shifter (v : Q) (s : Session) (n : nat) :
  pitchShifterRef s = Some n -> ~ speed s == v ->
  speed (setSpeed v s) = v /\
  tempo <$> shifters (setSpeed v s) !! n = (fun _ => v) <$> shifters s !! n.
Proof.
  intros Hn Hv. unfold setSpeed.
  destruct (Qeq_bool (speed s) v) eqn:E; [apply Qeq_bool_iff in E; contradiction|].
  simpl. rewrite Hn. simpl. rewrite lookup_alter_eq.
  destruct (shifters s !! n); split; reflexivity.
Qed.

End Parameters.

(** ** [stop] and [play] *)

Section Transport.

(** C7.  With an asset loaded, [stop] called while playing or while not
    playing (paused or ready) leaves the position at 0 and the session
    ready: not playing, with the shifter, the buffer, the file name and
    the duration still in place, the shifter disconnected and its cursor
    back at 0.  [play] then starts again from the beginning with the
    same shifter, nothing is loaded again. *)
Theorem stop_returns_to_ready (s : Session) :
  playbackState s = Playing \/ playbackState s = Ready ->
  currentTime (stop s) = 0 /\
  isPlaying (stop s) = false /\
  playbackState (stop s) = Ready /\
  pitchShifterRef (stop s) = pitchShifterRef s /\
  audioBuffer (stop s) = audioBuffer s /\
  audioFileName (stop s) = audioFileName s /\
  duration (stop s) = duration s /\
  (forall n p, pitchShifterRef s = Some n -> shifters s !! n = Some p ->
     shifters (stop s) !! n
     = Some (with_percentagePlayed 0 (with_connections ∅ p))) /\
  (forall n c, pitchShifterRef s = Some n -> audioContext s = Some c ->
     ps_context <$> shifters s !! n = Some c ->
     playbackState (play (stop s)) = Playing /\
     currentTime (play (stop s)) = 0 /\
     pitchShifterRef (play (stop s)) = Some n).
Proof.
  intros Hst.
  assert (Hl : isLoading s = false /\ exists n, pitchShifterRef s = Some n).
  { unfold playbackState in Hst.
    destruct (isLoading s); [destruct Hst; discriminate|].
    destruct (pitchShifterRef s); [eauto|destruct Hst; discriminate]. }
  destruct Hl as [Hl [n0 Hn0]].
  assert (Hr : pitchShifterRef (stop s) = pitchShifterRef s) by frame_ops.
  assert (Hi : isLoading (stop s) = isLoading s) by frame_ops.
  split; [frame_ops|]. split; [frame_ops|].
  split. { unfold playbackState. rewrite Hi, Hl, Hr, Hn0.
           replace (isPlaying (stop s)) with false by frame_ops. reflexivity. }
  split; [exact Hr|]. split; [frame_ops|]. split; [frame_ops|]. split; [frame_ops|].
  split.
  - intros n p Hn Hp. unfold stop. rewrite Hn.
    frame_ops; rewrite !lookup_alter_eq, Hp; reflexivity.
  - intros n c Hn Hc Ho.
    assert (Hsh : ps_context <$> shifters (stop s) !! n = Some c).
    { unfold stop. rewrite Hn. frame_ops; rewrite !lookup_alter_eq;
        destruct (shifters s !! n); simpl in *; congruence. }
    assert (Hac : audioContext (stop s) = Some c) by (rewrite <- Hc; frame_ops).
    unfold playbackState, play. rewrite Hr, Hn, Hac.
    set (s1 := if decide (contexts (stop s) !! c = Some suspended)
               then resume c (stop s) else stop s).
    assert (H1 : shifters s1 = shifters (stop s) /\ isLoading s1 = false /\
                 currentTime s1 = 0 /\ pitchShifterRef s1 = Some n).
    { subst s1. case_decide as E.
      - unfold resume.
        destruct (transition_frame c running (stop s)) as (-> & -> & _ & -> & _ & ->).
        rewrite Hi, Hl, Hr.
        repeat split; solve [reflexivity | exact Hn | frame_ops].
      - rewrite Hi, Hl, Hr.
        repeat split; solve [reflexivity | exact Hn | frame_ops]. }
    destruct H1 as (Hs1 & Hl1 & Ht1 & Hn1).
    rewrite decide_True by (rewrite Hs1; exact Hsh).
    simpl. rewrite Hl1, Hn1, Ht1. repeat split.
Qed.

Lemma stop_returns_to_ready_witness :
  playbackState (play loaded_120) = Playing /\
  currentTime (stop (play loaded_120)) = 0 /\
  playbackState (stop (play loaded_120)) = Ready.
Proof.
  split; [reflexivity|].
  pose proof (stop_returns_to_ready (play loaded_120) (or_introl eq_refl)) as H.
  split; [exact (proj1 H)|exact (proj1 (proj2 (proj2 H)))].
Defined.

(** Connecting to a destination the output already feeds changes nothing. *)
Lemma connect_twice (n c : nat) (s : Session) :
  connect n c (connect n c s) = connect n c s.
Proof.
  unfold connect, update_shifter, set_shifters. simpl. f_equal.
  apply map_eq. intros i.
  destruct (decide (n = i)) as [->|Hne];
    [rewrite !lookup_alter_eq|rewrite !lookup_alter_ne by done; reflexivity].
  destruct (shifters s !! i) as [p|]; [|reflexivity]. simpl. f_equal.
  unfold with_connections. simpl. f_equal.
  rewrite <- (assoc_L (∪)). f_equal. apply (idemp_L (∪)).
Qed.

Lemma play_idempotent (s : Session) : play (play s) = play s.
Proof.
  destruct (pitchShifterRef s) as [n|] eqn:Hn;
    [destruct (audioContext s) as [c|] eqn:Hc|].
  2, 3: assert (E : play s = s)
         by (unfold play; rewrite Hn; try rewrite Hc; reflexivity);
       rewrite !E; reflexivity.
  set (s1 := if decide (contexts s !! c = Some suspended) then resume c s else s).
  assert (H1 : pitchShifterRef s1 = Some n /\ audioContext s1 = Some c /\
               contexts s1 !! c <> Some suspended).
  { subst s1. case_decide as E1.
    - unfold resume, transition. rewrite E1. simpl.
      rewrite lookup_insert_eq. repeat split; congruence.
    - repeat split; assumption. }
  destruct H1 as (Hn1 & Hc1 & Hs1).
  assert (E : play s = if decide (ps_context <$> shifters s1 !! n = Some c)
                       then setIsPlaying true (connect n c s1) else s1)
    by (unfold play; rewrite Hn, Hc; reflexivity).
  rewrite E. clear E. case_decide as Ho.
  - unfold play. simpl. rewrite Hn1, Hc1.
    destruct (decide (contexts s1 !! c = Some suspended)); [contradiction|].
    rewrite decide_True
      by (simpl; rewrite lookup_alter_eq; destruct (shifters s1 !! n);
          simpl in *; congruence).
    change (setIsPlaying true (connect n c (setIsPlaying true (connect n c s1))))
      with (setIsPlaying true (connect n c (connect n c s1))).
    rewrite connect_twice. reflexivity.
  - unfold play. rewrite Hn1, Hc1.
    destruct (decide (contexts s1 !! c = Some suspended)); [contradiction|].
    rewrite decide_False by exact Ho. reflexivity.
Qed.

(** C5.  [play] is idempotent.  With an asset loaded, a first [play]
    sets [isPlaying]; a second [play] right after it yields the very same
    session: [isPlaying] stays true and the shifter has the same
    connections as after the first call, the destination occurring once. *)
Theorem play_while_playing (s : Session) (n c : nat) (p : PitchShifter) :
  pitchShifterRef s = Some n -> audioContext s = Some c ->
  shifters s !! n = Some p -> ps_context p = c ->
  isPlaying (play s) = true /\
  isPlaying (play (play s)) = true /\
  play (play s) = play s /\
  connections <$> shifters (play s) !! n = Some (connections p ∪ {[c]}) /\
  connections <$> shifters (play (play s)) !! n = Some (connections p ∪ {[c]}).
Proof.
  intros Hn Hc Hp Ho.
  assert (H1 : isPlaying (play s) = true /\
               connections <$> shifters (play s) !! n = Some (connections p ∪ {[c]})).
  { unfold play. rewrite Hn, Hc.
    destruct (decide (contexts s !! c = Some suspended)) as [E|E].
    - unfold resume, transition. rewrite E. simpl.
      rewrite decide_True by (rewrite Hp; simpl; congruence).
      simpl. rewrite lookup_alter_eq, Hp. split; reflexivity.
    - rewrite decide_True by (rewrite Hp; simpl; congruence).
      simpl. rewrite lookup_alter_eq, Hp. split; reflexivity. }
  rewrite play_idempotent. tauto.
Qed.

Lemma play_while_playing_witness :
  isPlaying (play (play loaded_120)) = true /\
  play (play (play loaded_120)) = play (play loaded_120).
Proof.
  assert (Hp : shifters (play loaded_120) !! 0%nat
               = Some (with_listening true (with_connections {[0%nat]}
                         (new_PitchShifter 0 two_minutes)))).
  { vm_compute. reflexivity. }
  pose proof (play_while_playing (play loaded_120) 0%nat 0%nat _
                eq_refl eq_refl Hp eq_refl) as H.
  split; [exact (proj1 H)|exact (proj1 (proj2 (proj2 H)))].
Defined.

End Transport.

(** ** The ['play'] listener *)

Section Listener.

Lemma playbackEnds_snoc (s : Session) :
  playbackEnds (set_calls (calls s ++ [PlaybackEnd]) s) = S (playbackEnds s).
Proof.
  unfold playbackEnds, set_calls. cbn [calls].
  rewrite filter_app, length_app. change (length (filter _ [PlaybackEnd])) with 1%nat. lia.
Qed.

(** An event below the threshold moves the position and nothing else. *)
Lemma play_listener_below (ev : PlayEvent) (s : Session) :
  ev_percentagePlayed ev < 99.9 ->
  play_listener ev s = setCurrentTime (timePlayed ev) s.
Proof.
  intros H. unfold play_listener, JS.ge.
  destruct (Qle_bool 99.9 (ev_percentagePlayed ev)) eqn:E; [|reflexivity].
  apply Qle_bool_iff in E. exfalso. exact (Qlt_not_le _ _ H E).
Qed.

Lemma play_listener_end (ev : PlayEvent) (s : Session) :
  99.9 <= ev_percentagePlayed ev ->
  play_listener ev s = call_onPlaybackEnd (stop (setCurrentTime (timePlayed ev) s)).
Proof.
  intros H. unfold play_listener, JS.ge.
  apply Qle_bool_iff in H. rewrite H. reflexivity.
Qed.

(** C2.  A play-through of the loaded asset is a run of position events
    of its shifter, all below 99.9 percent but the last.  When the last
    one arrives the session stops (shifter disconnected and rewound,
    position 0, not playing) and [onPlaybackEnd] has been called exactly
    once more than before the play-through; once stopped, the shifter
    raises no further event, so no second call can follow until [play]
    is called again. *)
Theorem playback_end_fires_once (n : nat) (o : UseAudioPlayerOptions)
    (evs : list PlayEvent) (final : PlayEvent) (s : Session) :
  pitchShifterRef s = Some n ->
  listening <$> shifters s !! n = Some true ->
  rendering n s = true ->
  options s = Some o -> onPlaybackEnd o = true ->
  Forall (fun ev => ev_percentagePlayed ev < 99.9) evs ->
  99.9 <= ev_percentagePlayed final ->
  exists s', run (PlayRaised n <$> evs ++ [final]) s = Some s' /\
    playbackEnds s' = S (playbackEnds s) /\
    isPlaying s' = false /\
    currentTime s' = 0 /\
    connections <$> shifters s' !! n = Some ∅ /\
    percentagePlayed <$> shifters s' !! n = Some 0 /\
    forall ev, step (PlayRaised n ev) s' = None.
Proof.
  intros Hn Hl Hr Ho Hcb Hevs Hfin. revert s Hn Hl Hr Ho.
  induction Hevs as [|ev evs Hev _ IH]; intros s Hn Hl Hr Ho.
  - simpl. rewrite Hr.
    destruct (shifters s !! n) as [p|] eqn:Hp; [|discriminate Hl].
    simpl in Hl. injection Hl as Hl. rewrite Hl.
    rewrite play_listener_end by exact Hfin.
    set (s0 := setCurrentTime (timePlayed final) s).
    destruct (stop_effect s0) as (Hi & Ht & Hc & Hop & Hsh).
    specialize (Hsh n Hn). simpl in Hsh. rewrite Hp in Hsh. simpl in Hsh.
    assert (Hcall : call_onPlaybackEnd (stop s0)
                    = set_calls (calls (stop s0) ++ [PlaybackEnd]) (stop s0)).
    { unfold call_onPlaybackEnd. rewrite Hop. simpl. rewrite Ho, Hcb. reflexivity. }
    eexists. split; [reflexivity|]. rewrite Hcall.
    split. { rewrite playbackEnds_snoc. unfold playbackEnds. rewrite Hc. reflexivity. }
    simpl. rewrite Hsh. repeat split; try assumption.
    intros ev. unfold rendering. simpl. rewrite Hsh. simpl.
    rewrite bool_decide_eq_false_2 by set_solver. reflexivity.
  - simpl. rewrite Hr.
    destruct (shifters s !! n) as [p|] eqn:Hp; [|discriminate Hl].
    simpl in Hl. injection Hl as Hl. rewrite Hl.
    rewrite play_listener_below by exact Hev.
    destruct (IH (setCurrentTime (timePlayed ev) s)) as (s' & Hrun & Hrest);
      [exact Hn|simpl; rewrite Hp; simpl; congruence|exact Hr|exact Ho|].
    exists s'. split; [exact Hrun|exact Hrest].
Qed.

Lemma playback_end_fires_once_witness :
  exists s', run [PlayRaised 0 last_block] (play loaded_120) = Some s' /\
    playbackEnds s' = 1%nat /\ isPlaying s' = false /\ currentTime s' = 0.
Proof.
  destruct (playback_end_fires_once 0 {| onPlaybackEnd := true; onError := true |}
              [] last_block (play loaded_120)) as (s' & H1 & H2 & H3 & H4 & _).
  - reflexivity.
  - vm_compute. reflexivity.
  - vm_compute. reflexivity.
  - reflexivity.
  - reflexivity.
  - constructor.
  - unfold Qle. simpl. lia.
  - exists s'. repeat split; assumption.
Defined.

End Listener.

(** ** [loadFile] *)

Section Loading.

Lemma load_frame_refl s : load_frame s s.
Proof. split; auto. Qed.

Lemma load_frame_trans s1 s2 s3 : load_frame s1 s2 -> load_frame s2 s3 -> load_frame s1 s3.
Proof.
  intros [] []. split; try congruence.
  destruct lf_playing0, lf_playing1; first [left; congruence | right; congruence].
Qed.

Lemma set_phase_frame k ph s : load_frame s (set_phase k ph s).
Proof. unfold set_phase. case_match; split; auto. Qed.

Lemma transition_load_frame c st s : load_frame s (transition c st s).
Proof. unfold transition. repeat case_match; split; auto. Qed.

Lemma stop_load_frame s : load_frame s (stop s).
Proof.
  split; try (frame_ops; fail).
  - unfold stop. destruct (pitchShifterRef s); frame_ops; rewrite ?dom_alter_L; reflexivity.
  - left. frame_ops.
Qed.

Lemma loadFile_open_frame k s : load_frame s (loadFile_open k s).
Proof.
  unfold loadFile_open.
  eapply load_frame_trans; [|apply set_phase_frame]. split; auto.
Qed.

Lemma loadFile_call_frame file s : load_frame s (loadFile_call file s).
Proof.
  unfold loadFile_call.
  set (s1 := setIsLoading true _).
  assert (H1 : load_frame s s1) by (split; auto).
  set (s2 := if isPlaying s then stop s1 else s1).
  assert (H2 : load_frame s s2).
  { subst s2. destruct (isPlaying s); [|exact H1].
    eapply load_frame_trans; [exact H1|apply stop_load_frame]. }
  destruct (audioContext s2).
  - case_decide.
    + eapply load_frame_trans; [exact H2|apply set_phase_frame].
    + eapply load_frame_trans; [exact H2|apply transition_load_frame].
  - eapply load_frame_trans; [exact H2|apply loadFile_open_frame].
Qed.

Lemma loadFile_call_not_playing file s : isPlaying (loadFile_call file s) = false.
Proof.
  unfold loadFile_call.
  destruct (isPlaying s) eqn:E; frame_ops;
    unfold loadFile_open, set_phase; simpl; repeat case_match; simpl; try congruence;
    frame_ops.
Qed.

(** Changing the phase of a load touches [loads] only. *)
Lemma set_phase_loads k ph s : exists l, set_phase k ph s = set_loads l s.
Proof.
  unfold set_phase. case_match; [eauto|].
  exists (loads s). destruct s; reflexivity.
Qed.

(** The shifter that a settled decode installs. *)

Lemma loadFile_decoded_ok k t buffer c s :
  audioContext s = Some c ->
  let n := fresh (dom (shifters s)) in
  let s' := loadFile_decoded k t (inr buffer) s in
  shifters s !! n = None /\
  pitchShifterRef s' = Some n /\
  shifters s' !! n = Some (installed c t buffer) /\
  (forall m, m <> n -> shifters s' !! m = shifters s !! m) /\
  audioBuffer s' = Some buffer /\
  duration s' = buf_duration buffer /\
  currentTime s' = 0 /\
  audioFileName s' = Some (file_name (load_file t)) /\
  isLoading s' = false /\
  audioContext s' = Some c /\
  contexts s' = contexts s /\
  isPlaying s' = isPlaying s /\
  speed s' = speed s /\
  pitch s' = pitch s /\
  calls s' = calls s.
Proof.
  intros Hc n s'.
  assert (Hfresh : shifters s !! n = None).
  { apply not_elem_of_dom. apply is_fresh. }
  split; [exact Hfresh|].
  subst s'. unfold loadFile_decoded. simpl. rewrite Hc.
  match goal with |- context [set_phase k Settled ?x] =>
    destruct (set_phase_loads k Settled x) as [l ->] end.
  simpl. fold n.
  rewrite !lookup_alter_eq, lookup_insert_eq. simpl.
  repeat split; try reflexivity.
  - unfold installed, with_listening, with_connections. simpl.
    do 2 f_equal. apply (left_id_L ∅ (∪)).
  - intros m Hm. rewrite !lookup_alter_ne, lookup_insert_ne by congruence. reflexivity.
  - exact Hc.
Qed.

(** The state in which an uninterrupted load waits for the decoder. *)
Lemma loadFile_opened file s :
  let k := length (loads s) in
  let s1 := loadFile_call file s in
  let s2 := match audioContext s with
            | Some _ => loadFile_open k s1
            | None => s1
            end in
  load_frame s s2 /\ isPlaying s2 = false /\ isLoading s2 = true /\
  exists c, audioContext s2 = Some c /\ contexts s2 !! c = Some running.
Proof.
  intros k s1 s2.
  assert (Hf1 : load_frame s s1) by apply loadFile_call_frame.
  assert (Hp1 : isPlaying s1 = false) by apply loadFile_call_not_playing.
  assert (Hopen : forall x, isPlaying x = false -> isLoading x = true ->
            isPlaying (loadFile_open k x) = false /\
            isLoading (loadFile_open k x) = true /\
            exists c, audioContext (loadFile_open k x) = Some c /\
                      contexts (loadFile_open k x) !! c = Some running).
  { intros x Hx Hy. unfold loadFile_open.
    match goal with |- context [set_phase k AwaitArrayBuffer ?y] =>
      destruct (set_phase_loads k AwaitArrayBuffer y) as [l ->] end.
    simpl. split; [exact Hx|]. split; [exact Hy|].
    eexists. split; [reflexivity|]. apply lookup_insert_eq. }
  assert (Hpre : let x := (if isPlaying s
                  then stop (setIsLoading true
                               (set_loads (loads s ++ [ {| load_file := file;
                                   load_speed := speed s; load_pitch := pitch s;
                                   load_phase := AwaitClose |} ]) s))
                  else setIsLoading true
                               (set_loads (loads s ++ [ {| load_file := file;
                                   load_speed := speed s; load_pitch := pitch s;
                                   load_phase := AwaitClose |} ]) s)) in
                isPlaying x = false /\ isLoading x = true /\
                audioContext x = audioContext s).
  { destruct (isPlaying s) eqn:E; simpl; repeat split; frame_ops. }
  destruct Hpre as (Hx1 & Hx2 & Hx3).
  destruct (audioContext s) as [c0|] eqn:Hc0.
  - subst s2. split; [eapply load_frame_trans; [exact Hf1|apply loadFile_open_frame]|].
    apply Hopen; [exact Hp1|].
    subst s1. unfold loadFile_call. rewrite Hx3.
    unfold close, transition, set_phase. repeat case_match; simpl; exact Hx2.
  - subst s2 s1. split; [exact Hf1|].
    unfold loadFile_call. rewrite Hx3. apply Hopen; assumption.
Qed.

(** The state an uninterrupted load is in when the decoder settles. *)
Lemma loadFile_unfold file result s :
  exists s3 c,
    loadFile file result s
    = loadFile_decoded (length (loads s))
        {| load_file := file; load_speed := speed s; load_pitch := pitch s;
           load_phase := AwaitDecode |} result s3 /\
    load_frame s s3 /\ isPlaying s3 = false /\
    audioContext s3 = Some c /\ contexts s3 !! c = Some running.
Proof.
  destruct (loadFile_opened file s) as (Hf & Hp & _ & c & Hc & Hr).
  unfold loadFile.
  match goal with |- context [loadFile_read ?k None ?x] =>
    exists (loadFile_read k None x), c; set (s2 := x) in * end.
  split; [reflexivity|].
  unfold loadFile_read. rewrite Hc.
  destruct (set_phase_loads (length (loads s)) AwaitDecode s2) as [l El].
  split; [eapply load_frame_trans; [exact Hf|apply set_phase_frame]|].
  rewrite El. simpl. auto.
Qed.



(** C3 (as stated) fails: a failed load after a successful one keeps
    the earlier shifter, buffer and file name, and the session is not
    idle. *)
Lemma failed_load_keeps_stale_shifter :
  let s := loadFile jingle (inl corrupt) (play loaded_120) in
  pitchShifterRef s = Some 0%nat /\ pitchShifterRef s <> None /\
  audioBuffer s = Some two_minutes /\
  audioFileName s = Some "song.mp3"%string /\
  playbackState s = Ready /\ playbackState s <> Idle.
Proof. vm_compute. repeat split; discriminate. Qed.

(** C8 (as the code has it).  The session keeps no record of which load
    is the latest.  Whenever the decode of a pending load settles with a
    buffer, that load's buffer, duration, file name and a new shifter
    with the speed and pitch of that call are installed, and [isLoading]
    is cleared, whatever other loads were started in the meantime. *)
Theorem settled_decode_is_installed (k : nat) (t : LoadTask) (buffer : AudioBuffer)
    (c : nat) (s : Session) :
  parked k AwaitDecode s = Some t ->
  audioContext s = Some c ->
  exists s' n p,
    step (DecodeSettled k (inr buffer)) s = Some s' /\
    audioBuffer s' = Some buffer /\
    duration s' = buf_duration buffer /\
    audioFileName s' = Some (file_name (load_file t)) /\
    currentTime s' = 0 /\
    isLoading s' = false /\
    pitchShifterRef s' = Some n /\
    shifters s !! n = None /\
    shifters s' !! n = Some p /\
    ps_buffer p = buffer /\ ps_context p = c /\
    tempo p = load_speed t /\ pitchSemitones p = load_pitch t.
Proof.
  intros Hk Hc. simpl. rewrite Hk.
  destruct (loadFile_decoded_ok k t buffer c s Hc)
    as (Hfr & Hn & Hsh & _ & Hb & Hd & Ht & Hname & Hl & _).
  cbv zeta in *.
  eexists _, _, _. split; [reflexivity|].
  repeat split; try eassumption; reflexivity.
Qed.

(** C8 (as stated) fails: in [overlapping_loads] the session shows the
    second file, 10 seconds long; when the decode of the first, superseded
    load then settles, the session shows the first file again. *)
Lemma stale_decode_overwrites_newer_load :
  let s0 := useAudioPlayer some_options in
  (audioFileName <$> run overlapping_loads s0 = Some (Some "jingle.mp3"%string) /\
   duration <$> run overlapping_loads s0 = Some 10) /\
  (audioFileName <$> run (overlapping_loads ++ [DecodeSettled 0 (inr two_minutes)]) s0
   = Some (Some "song.mp3"%string) /\
   duration <$> run (overlapping_loads ++ [DecodeSettled 0 (inr two_minutes)]) s0
   = Some 120).
Proof. vm_compute. repeat split. Qed.

Lemma settled_decode_is_installed_witness :
  exists s', step (DecodeSettled 0 (inr two_minutes))
                  (after overlapping_loads (useAudioPlayer some_options)) = Some s' /\
    audioFileName s' = Some "song.mp3"%string /\ duration s' = 120.
Proof.
  destruct (settled_decode_is_installed 0
              {| load_file := song; load_speed := 1; load_pitch := 0;
                 load_phase := AwaitDecode |} two_minutes 1
              (after overlapping_loads (useAudioPlayer some_options)))
    as (s' & n & p & H1 & _ & H2 & H3 & _).
  - vm_compute. reflexivity.
  - vm_compute. reflexivity.
  - exists s'. repeat split; assumption.
Defined.

(** Across the whole machine only the two setters change the stored
    parameters: no control, no segment of a load and no event does. *)
Lemma catch_parameters k e s :
  speed (loadFile_catch k e s) = speed s /\ pitch (loadFile_catch k e s) = pitch s.
Proof.
  unfold loadFile_catch. destruct (set_phase_loads k Settled s) as [l ->].
  unfold call_onError. simpl. repeat case_match; simpl; auto.
Qed.

Lemma only_setters_change_parameters (a : Action) (s s' : Session) :
  step a s = Some s' ->
  (forall v, a <> CallSetSpeed v) -> (forall v, a <> CallSetPitch v) ->
  speed s' = speed s /\ pitch s' = pitch s.
Proof.
  intros H Hs Hp.
  destruct a as [file| | | |t|v|v|k|k failure|k result|n ev]; simpl in H.
  - injection H as <-. destruct (loadFile_call_frame file s). auto.
  - injection H as <-. split; frame_ops.
  - injection H as <-. split; frame_ops.
  - injection H as <-. split; frame_ops.
  - injection H as <-. split; frame_ops.
  - exfalso. exact (Hs v eq_refl).
  - exfalso. exact (Hp v eq_refl).
  - destruct (parked k AwaitClose s).
    + injection H as <-. destruct (loadFile_open_frame k s). auto.
    + destruct (parked k AwaitRejectedClose s); [|discriminate].
      injection H as <-. apply catch_parameters.
  - destruct (parked k AwaitArrayBuffer s); [|discriminate]. injection H as <-.
    unfold loadFile_read. destruct failure; [apply catch_parameters|].
    destruct (audioContext s); [|apply catch_parameters].
    destruct (set_phase_frame k AwaitDecode s). auto.
  - destruct (parked k AwaitDecode s) as [t|]; [|discriminate]. injection H as <-.
    destruct result as [e|buffer]; [apply catch_parameters|].
    destruct (audioContext s) as [c|] eqn:Hc.
    + destruct (loadFile_decoded_ok k t buffer c s Hc)
        as (_ & _ & _ & _ & _ & _ & _ & _ & _ & _ & _ & _ & H1 & H2 & _). auto.
    + unfold loadFile_decoded. simpl. rewrite Hc.
      destruct (catch_parameters k TypeError (set_audioBuffer (Some buffer) s)). auto.
  - destruct (rendering n s); [|discriminate].
    destruct (shifters s !! n) as [p|]; [|discriminate]. injection H as <-.
    destruct (listening p); [|auto]. split; frame_ops.
Qed.

(** The uninterrupted load is one schedule of the machine. *)

Lemma parked_set_phase k ph t x :
  loads x !! k = Some t ->
  parked k ph (set_phase k ph x) = Some (with_phase ph t) /\
  loads (set_phase k ph x) !! k = Some (with_phase ph t).
Proof.
  intros H. unfold parked, set_phase. rewrite H. simpl.
  rewrite list_lookup_insert_eq by (eapply lookup_lt_Some; exact H).
  rewrite decide_True by reflexivity. auto.
Qed.

(** [stop] closes no context and reopens none. *)
Lemma stop_keeps_closed s c :
  contexts (stop s) !! c = Some closed <-> contexts s !! c = Some closed.
Proof.
  unfold stop. cbn [contexts setCurrentTime setIsPlaying].
  set (s1 := match pitchShifterRef s with
             | Some n => set_percentagePlayed n 0 (disconnect n s)
             | None => s
             end).
  assert (E : contexts s1 = contexts s) by (subst s1; destruct (pitchShifterRef s); reflexivity).
  rewrite <- E. destruct (audioContext s1) as [c'|]; [|reflexivity].
  unfold suspend, transition.
  destruct (contexts s1 !! c') as [[]|] eqn:H; try reflexivity;
    cbn [contexts set_contexts];
    (destruct (decide (c' = c)) as [->|Hne];
     [rewrite lookup_insert_eq, H; split; discriminate
     |rewrite lookup_insert_ne by exact Hne; reflexivity]).
Qed.

(** Where the synchronous head of [loadFile] parks the call. *)
Lemma loadFile_call_loads file s :
  let k := length (loads s) in
  let t := {| load_file := file; load_speed := speed s; load_pitch := pitch s;
              load_phase := AwaitClose |} in
  match audioContext s with
  | Some c =>
      if decide (contexts s !! c = Some closed)
      then parked k AwaitRejectedClose (loadFile_call file s)
           = Some (with_phase AwaitRejectedClose t)
      else parked k AwaitClose (loadFile_call file s) = Some t
  | None => parked k AwaitArrayBuffer (loadFile_call file s)
            = Some (with_phase AwaitArrayBuffer t)
  end.
Proof.
  intros k t. unfold loadFile_call. fold k. fold t.
  set (s2 := if isPlaying s then _ else _).
  assert (H2 : audioContext s2 = audioContext s /\ loads s2 !! k = Some t /\
               forall c, contexts s2 !! c = Some closed <-> contexts s !! c = Some closed).
  { assert (Hk : (loads s ++ [t]) !! k = Some t) by apply list_lookup_middle, eq_refl.
    subst s2. destruct (isPlaying s).
    - split; [frame_ops|]. split; [frame_ops|]. intros c.
      rewrite stop_keeps_closed. reflexivity.
    - split; [reflexivity|]. split; [exact Hk|]. intros c. reflexivity. }
  destruct H2 as (Ha & Hl & Hcl). rewrite Ha.
  destruct (audioContext s) as [c|].
  - destruct (decide (contexts s2 !! c = Some closed)) as [Hc|Hc].
    + rewrite decide_True by (apply Hcl; exact Hc).
      apply parked_set_phase. exact Hl.
    + rewrite decide_False by (intros Hc'; apply Hc, Hcl; exact Hc').
      assert (H : loads (transition c closed s2) = loads s2)
        by (unfold transition; repeat case_match; reflexivity).
      unfold parked, close. rewrite H, Hl. rewrite decide_True by reflexivity.
      reflexivity.
  - unfold loadFile_open. apply parked_set_phase. exact Hl.
Qed.

Lemma loadFile_is_a_run (file : File) (result : Error + AudioBuffer) (s : Session) :
  let k := length (loads s) in
  (forall c, audioContext s = Some c -> contexts s !! c <> Some closed) ->
  run (CallLoadFile file ::
       match audioContext s with Some _ => [CloseSettled k] | None => [] end ++
       [ArrayBufferSettled k None; DecodeSettled k result]) s
  = Some (loadFile file result s).
Proof.
  intros k Hopen.
  pose proof (loadFile_call_loads file s) as Hcall.
  destruct (loadFile_opened file s) as (_ & _ & _ & c & Hc & _).
  cbv zeta in *. fold k in Hcall, Hc.
  unfold loadFile. fold k.
  set (t := {| load_file := file; load_speed := speed s; load_pitch := pitch s;
               load_phase := AwaitClose |}) in *.
  change {| load_file := file; load_speed := speed s; load_pitch := pitch s;
            load_phase := AwaitDecode |} with (with_phase AwaitDecode t).
  set (s1 := loadFile_call file s) in *.
  assert (Hrest : forall x t', audioContext x = Some c ->
            parked k AwaitArrayBuffer x = Some t' ->
            with_phase AwaitDecode t' = with_phase AwaitDecode t ->
            run [ArrayBufferSettled k None; DecodeSettled k result] x
            = Some (loadFile_decoded k (with_phase AwaitDecode t) result
                      (loadFile_read k None x))).
  { intros x t' Hx Hp Ht. cbn [run step]. rewrite Hp.
    unfold loadFile_read. rewrite Hx.
    assert (Hl : loads x !! k = Some t').
    { unfold parked in Hp. destruct (loads x !! k); [|discriminate].
      case_decide; congruence. }
    destruct (parked_set_phase k AwaitDecode t' x Hl) as [-> _].
    rewrite Ht. reflexivity. }
  destruct (audioContext s) as [c0|].
  - rewrite decide_False in Hcall by (apply Hopen; reflexivity).
    simpl app. cbn [run step]. fold s1. rewrite Hcall.
    assert (Hl : loads s1 !! k = Some t).
    { unfold parked in Hcall. destruct (loads s1 !! k); [|discriminate].
      case_decide; congruence. }
    apply (Hrest _ (with_phase AwaitArrayBuffer t)); [exact Hc| |reflexivity].
    unfold loadFile_open. apply parked_set_phase.
    simpl. exact Hl.
  - simpl app. cbn [run step]. fold s1.
    apply (Hrest _ (with_phase AwaitArrayBuffer t)); [exact Hc|exact Hcall|reflexivity].
Qed.

End Loading.

(** * Further properties of the hook *)

(** ** The stores of contexts and shifters *)

Section Store.

Lemma transition_lookup (c : nat) (st : AudioContextState) (s : Session) (c' : nat) :
  contexts (transition c st s) !! c' =
  if decide (c = c')
  then match contexts s !! c with
       | Some closed => Some closed
       | Some _ => Some st
       | None => None
       end
  else contexts s !! c'.
Proof.
  unfold transition. case_decide as E.
  - subst c'. destruct (contexts s !! c) as [[]|] eqn:H; simpl;
      rewrite ?lookup_insert_eq; auto.
  - destruct (contexts s !! c) as [[]|] eqn:H; simpl;
      rewrite ?lookup_insert_ne by done; auto.
Qed.
Lemma alter_twice {A} (f g : A -> A) (n : nat) (m : gmap nat A) :
  alter f n (alter g n m) = alter (f ∘ g) n m.
Proof.
  apply map_eq. intros i. destruct (decide (n = i)) as [->|Hne].
  - rewrite !lookup_alter_eq. destruct (m !! i); reflexivity.
  - rewrite !lookup_alter_ne by done. reflexivity.
Qed.

(** Calls on a shifter and calls on a context do not interfere. *)
Lemma update_transition n f c st x :
  update_shifter n f (transition c st x) = transition c st (update_shifter n f x).
Proof.
  unfold transition, update_shifter. simpl.
  destruct (contexts x !! c) as [[]|]; reflexivity.
Qed.

Lemma transition_setIsPlaying c st b x :
  transition c st (setIsPlaying b x) = setIsPlaying b (transition c st x).
Proof. unfold transition. simpl. destruct (contexts x !! c) as [[]|]; reflexivity. Qed.

Lemma transition_setCurrentTime c st v x :
  transition c st (setCurrentTime v x) = setCurrentTime v (transition c st x).
Proof. unfold transition. simpl. destruct (contexts x !! c) as [[]|]; reflexivity. Qed.

Lemma transition_twice c st x :
  transition c st (transition c st x) = transition c st x.
Proof.
  assert (E : transition c st x =
              match contexts x !! c with
              | Some closed | None => x
              | Some _ => set_contexts (<[c := st]> (contexts x)) x
              end) by reflexivity.
  destruct (contexts x !! c) as [[]|] eqn:H; rewrite E.
  3, 4: unfold transition; rewrite H; reflexivity.
  all: unfold transition, set_contexts; simpl; rewrite lookup_insert_eq;
    destruct st; simpl; rewrite ?insert_insert_eq; reflexivity.
Qed.

Lemma update_twice n f g x :
  update_shifter n f (update_shifter n g x) = update_shifter n (f ∘ g) x.
Proof. unfold update_shifter, set_shifters. simpl. f_equal. apply alter_twice. Qed.

Lemma update_ext n f g x :
  (forall p, f p = g p) -> update_shifter n f x = update_shifter n g x.
Proof.
  intros H. unfold update_shifter. f_equal. apply alter_ext. intros p _. apply H.
Qed.

Lemma transition_is_Some c st s c' :
  is_Some (contexts s !! c') -> is_Some (contexts (transition c st s) !! c').
Proof.
  rewrite transition_lookup. case_decide; [subst|auto].
  intros [x Hx]. rewrite Hx. destruct x; eauto.
Qed.

Lemma transition_rest c st s :
  exists cs, transition c st s = set_contexts cs s.
Proof.
  unfold transition. repeat case_match; eauto;
    exists (contexts s); destruct s; reflexivity.
Qed.

End Store.

(** ** How [stop], [pause], [play], [seek] and the setters compose *)

Section MoreTransport.

Lemma stop_shape s r :
  pitchShifterRef s = pitchShifterRef r -> audioContext s = audioContext r ->
  stop s = setCurrentTime 0 (setIsPlaying false (halt r (rewind r s))).
Proof.
  intros Hr Ha. unfold stop, halt, rewind. rewrite <- Hr, <- Ha.
  destruct (pitchShifterRef s); reflexivity.
Qed.

Lemma halt_halt r x : halt r (halt r x) = halt r x.
Proof. unfold halt. destruct (audioContext r); [apply transition_twice|reflexivity]. Qed.

Lemma rewind_rewind r x : rewind r (rewind r x) = rewind r x.
Proof.
  unfold rewind. destruct (pitchShifterRef r) as [n|]; [|reflexivity].
  unfold set_percentagePlayed, disconnect. rewrite !update_twice.
  apply update_ext. reflexivity.
Qed.

Lemma rewind_halt r x : rewind r (halt r x) = halt r (rewind r x).
Proof.
  unfold rewind, halt. destruct (pitchShifterRef r), (audioContext r); try reflexivity.
  unfold set_percentagePlayed, disconnect, suspend. rewrite !update_transition. reflexivity.
Qed.

Lemma halt_flags r v b x :
  halt r (setCurrentTime v (setIsPlaying b x)) = setCurrentTime v (setIsPlaying b (halt r x)).
Proof.
  unfold halt. destruct (audioContext r); [|reflexivity].
  unfold suspend. rewrite transition_setCurrentTime, transition_setIsPlaying. reflexivity.
Qed.

Lemma rewind_flags r v b x :
  rewind r (setCurrentTime v (setIsPlaying b x))
  = setCurrentTime v (setIsPlaying b (rewind r x)).
Proof. unfold rewind. destruct (pitchShifterRef r); reflexivity. Qed.

Lemma stop_refs s :
  pitchShifterRef (stop s) = pitchShifterRef s /\ audioContext (stop s) = audioContext s.
Proof. split; frame_ops. Qed.

Lemma stop_idem (s : Session) : stop (stop s) = stop s.
Proof.
  destruct (stop_refs s) as [Hr Ha].
  rewrite (stop_shape (stop s) s Hr Ha).
  rewrite (stop_shape s s eq_refl eq_refl).
  rewrite rewind_flags, halt_flags, rewind_halt, rewind_rewind, halt_halt.
  reflexivity.
Qed.

Lemma pause_shape s n c :
  pitchShifterRef s = Some n -> audioContext s = Some c ->
  pause s = setIsPlaying false (suspend c (disconnect n s)).
Proof. intros Hn Hc. unfold pause. rewrite Hn, Hc. reflexivity. Qed.

Lemma pause_noop s :
  pitchShifterRef s = None \/ audioContext s = None -> pause s = s.
Proof.
  intros [H|H]; unfold pause; rewrite H; [reflexivity|].
  destruct (pitchShifterRef s); reflexivity.
Qed.

Lemma disconnect_twice n x : disconnect n (disconnect n x) = disconnect n x.
Proof. unfold disconnect. rewrite update_twice. apply update_ext. reflexivity. Qed.

Lemma disconnect_transition n c st x :
  disconnect n (transition c st x) = transition c st (disconnect n x).
Proof. apply update_transition. Qed.

Lemma rewind_transition n v c st x :
  set_percentagePlayed n v (transition c st x)
  = transition c st (set_percentagePlayed n v x).
Proof. apply update_transition. Qed.

Lemma pause_idem (s : Session) : pause (pause s) = pause s.
Proof.
  destruct (pitchShifterRef s) as [n|] eqn:Hn;
    [destruct (audioContext s) as [c|] eqn:Hc|].
  2, 3: rewrite !(pause_noop s) by auto; reflexivity.
  rewrite (pause_shape s n c Hn Hc).
  rewrite (pause_shape _ n c);
    [|cbn [pitchShifterRef setIsPlaying]; unfold suspend;
      rewrite (proj1 (proj2 (transition_frame c suspended (disconnect n s)))); exact Hn
     |cbn [audioContext setIsPlaying]; unfold suspend;
      rewrite (proj1 (proj2 (proj2 (transition_frame c suspended (disconnect n s))))); exact Hc].
  change (disconnect n (setIsPlaying false (suspend c (disconnect n s))))
    with (setIsPlaying false (disconnect n (suspend c (disconnect n s)))).
  unfold suspend.
  rewrite transition_setIsPlaying, disconnect_transition, transition_twice,
    disconnect_twice.
  reflexivity.
Qed.

Lemma stop_after_pause (s : Session) : stop (pause s) = stop s.
Proof.
  destruct (pitchShifterRef s) as [n|] eqn:Hn;
    [destruct (audioContext s) as [c|] eqn:Hc|].
  2, 3: rewrite !(pause_noop s) by auto; reflexivity.
  rewrite (pause_shape s n c Hn Hc).
  set (x := suspend c (disconnect n s)).
  assert (Hx : pitchShifterRef x = Some n /\ audioContext x = Some c).
  { subst x. unfold suspend.
    destruct (transition_frame c suspended (disconnect n s)) as (_ & -> & -> & _). auto. }
  destruct Hx as [Hxn Hxc].
  unfold stop. cbn [pitchShifterRef audioContext setIsPlaying].
  rewrite Hxn, Hn. 
  change (audioContext (set_percentagePlayed n 0 (disconnect n (setIsPlaying false x))))
    with (audioContext x).
  change (audioContext (set_percentagePlayed n 0 (disconnect n s))) with (audioContext s).
  rewrite Hxc, Hc.
  change (set_percentagePlayed n 0 (disconnect n (setIsPlaying false x)))
    with (setIsPlaying false (set_percentagePlayed n 0 (disconnect n x))).
  unfold suspend. rewrite transition_setIsPlaying.
  subst x. unfold suspend.
  rewrite disconnect_transition, rewind_transition, transition_twice, disconnect_twice.
  reflexivity.
Qed.

Lemma pause_after_stop (s : Session) : pause (stop s) = stop s.
Proof.
  destruct (stop_refs s) as [Hr Ha].
  destruct (pitchShifterRef s) as [n|] eqn:Hn;
    [destruct (audioContext s) as [c|] eqn:Hc|].
  2, 3: apply pause_noop; rewrite ?Hr, ?Ha; auto.
  rewrite (pause_shape _ n c Hr Ha).
  rewrite (stop_shape s s eq_refl eq_refl). unfold halt, rewind. rewrite Hn, Hc.
  set (y := set_percentagePlayed n 0 (disconnect n s)).
  change (disconnect n (setCurrentTime 0 (setIsPlaying false (suspend c y))))
    with (setCurrentTime 0 (setIsPlaying false (disconnect n (suspend c y)))).
  unfold suspend.
  rewrite transition_setCurrentTime, transition_setIsPlaying,
    disconnect_transition, transition_twice.
  subst y. unfold set_percentagePlayed, disconnect.
  rewrite !update_twice.
  reflexivity.
Qed.

(** X1.  With a shifter and a context in the refs, [pause] clears
    [isPlaying] and keeps the position: [currentTime] and the cursor of
    the shifter are as before, the shifter is disconnected, a running
    context is suspended, and the shifter renders no more, so that no
    ['play'] event can arrive from it. *)
Theorem pause_freezes_position (s : Session) (n c : nat) (p : PitchShifter) :
  pitchShifterRef s = Some n -> audioContext s = Some c ->
  shifters s !! n = Some p ->
  isPlaying (pause s) = false /\
  currentTime (pause s) = currentTime s /\
  shifters (pause s) !! n = Some (with_connections ∅ p) /\
  percentagePlayed <$> shifters (pause s) !! n = Some (percentagePlayed p) /\
  (contexts s !! c = Some running -> contexts (pause s) !! c = Some suspended) /\
  rendering n (pause s) = false /\
  forall ev, step (PlayRaised n ev) (pause s) = None.
Proof.
  intros Hn Hc Hp.
  assert (Hsh : shifters (pause s) !! n = Some (with_connections ∅ p)).
  { unfold pause. rewrite Hn, Hc. cbn [shifters setIsPlaying]. unfold suspend.
    destruct (transition_frame c suspended (disconnect n s)) as (-> & _).
    unfold disconnect, update_shifter. simpl. rewrite lookup_alter_eq, Hp. reflexivity. }
  assert (Hr : rendering n (pause s) = false).
  { unfold rendering. rewrite Hsh. simpl.
    rewrite bool_decide_eq_false_2 by set_solver. reflexivity. }
  split; [unfold pause; rewrite Hn, Hc; reflexivity|].
  split; [unfold pause; rewrite Hn, Hc; cbn [currentTime setIsPlaying]; unfold suspend;
          destruct (transition_frame c suspended (disconnect n s)) as (_&_&_&_&_& ->);
          reflexivity|].
  split; [exact Hsh|]. split; [rewrite Hsh; reflexivity|].
  split.
  - intros Hrun. unfold pause. rewrite Hn, Hc. cbn [contexts setIsPlaying]. unfold suspend.
    rewrite transition_lookup, decide_True by reflexivity.
    unfold disconnect, update_shifter. simpl. rewrite Hrun. reflexivity.
  - split; [exact Hr|]. intros ev. simpl. rewrite Hr. reflexivity.
Qed.

(** The shifter of [play loaded_120]. *)
Lemma playing_120_shifter :
  exists p, shifters (play loaded_120) !! 0%nat = Some p /\ ps_context p = 0%nat.
Proof. vm_compute. eauto. Qed.

Lemma pause_freezes_position_witness :
  isPlaying (pause (play loaded_120)) = false /\
  currentTime (pause (play loaded_120)) = currentTime (play loaded_120) /\
  rendering 0 (pause (play loaded_120)) = false.
Proof.
  destruct playing_120_shifter as (p & Hp & _).
  destruct (pause_freezes_position (play loaded_120) 0 0 p eq_refl eq_refl Hp)
    as (H1 & H2 & _ & _ & _ & H3 & _).
  split; [exact H1|]. split; [exact H2|exact H3].
Defined.

(** X2.  [stop] and [pause] are idempotent, and [stop] absorbs a
    [pause] before it or after it. *)
Theorem stop_pause_absorb (s : Session) :
  stop (stop s) = stop s /\ pause (pause s) = pause s /\
  stop (pause s) = stop s /\ pause (stop s) = stop s.
Proof.
  auto using stop_idem, pause_idem, stop_after_pause, pause_after_stop.
Qed.

(** After [play], the shifter renders, provided it was built on the
    context the ref holds and that context is not closed. *)
Lemma play_renders (s : Session) (n c : nat) (p : PitchShifter) (st : AudioContextState) :
  pitchShifterRef s = Some n -> audioContext s = Some c ->
  shifters s !! n = Some p -> ps_context p = c ->
  contexts s !! c = Some st -> st <> closed ->
  play s = setIsPlaying true
             (connect n c (set_contexts (<[c := running]> (contexts s)) s)) /\
  rendering n (play s) = true.
Proof.
  intros Hn Hc Hp Ho Hst Hncl.
  assert (E : play s = setIsPlaying true
             (connect n c (set_contexts (<[c := running]> (contexts s)) s))).
  { unfold play. rewrite Hn, Hc.
    destruct (decide (contexts s !! c = Some suspended)) as [E|E].
    - unfold resume, transition. rewrite E. simpl.
      rewrite decide_True by (rewrite Hp; simpl; congruence). reflexivity.
    - rewrite decide_True by (rewrite Hp; simpl; congruence).
      destruct st; try congruence.
      rewrite (insert_id (contexts s) c running Hst).
      destruct s; reflexivity. }
  split; [exact E|]. rewrite E. unfold rendering, connect, update_shifter. simpl.
  rewrite lookup_alter_eq, Hp. simpl. rewrite Ho, lookup_insert_eq.
  rewrite bool_decide_eq_true_2 by set_solver.
  rewrite bool_decide_eq_true_2 by reflexivity. reflexivity.
Qed.

(** X3.  When the shifter in the ref was built on the context in the
    ref and that context is not closed, [play] after [pause] resumes
    where [pause] left: [isPlaying] is set, the position and the cursor
    are those from before the pause, the shifter is connected to its own
    destination only, the context runs and the shifter renders. *)
Theorem pause_then_play_resumes (s : Session) (n c : nat) (p : PitchShifter)
    (st : AudioContextState) :
  pitchShifterRef s = Some n -> audioContext s = Some c ->
  shifters s !! n = Some p -> ps_context p = c ->
  contexts s !! c = Some st -> st <> closed ->
  isPlaying (play (pause s)) = true /\
  currentTime (play (pause s)) = currentTime s /\
  percentagePlayed <$> shifters (play (pause s)) !! n = Some (percentagePlayed p) /\
  connections <$> shifters (play (pause s)) !! n = Some {[c]} /\
  contexts (play (pause s)) !! c = Some running /\
  rendering n (play (pause s)) = true.
Proof.
  intros Hn Hc Hp Ho Hst Hncl.
  assert (E : pause s = setIsPlaying false (transition c suspended (disconnect n s)))
    by (unfold pause; rewrite Hn, Hc; reflexivity).
  destruct (transition_frame c suspended (disconnect n s))
    as (Hsh & Hr & Ha & _ & _ & Ht).
  assert (Hp' : shifters (pause s) !! n = Some (with_connections ∅ p)).
  { rewrite E. cbn [shifters setIsPlaying]. rewrite Hsh.
    unfold disconnect, update_shifter. simpl. rewrite lookup_alter_eq, Hp. reflexivity. }
  assert (Hst' : contexts (pause s) !! c = Some suspended).
  { rewrite E. cbn [contexts setIsPlaying]. rewrite transition_lookup.
    rewrite decide_True by reflexivity.
    unfold disconnect, update_shifter. simpl. rewrite Hst. destruct st; congruence. }
  destruct (play_renders (pause s) n c (with_connections ∅ p) suspended)
    as [Eplay Hrend]; try assumption; try discriminate.
  { rewrite E. cbn [pitchShifterRef setIsPlaying]. rewrite Hr. exact Hn. }
  { rewrite E. cbn [audioContext setIsPlaying]. rewrite Ha. exact Hc. }
  split; [rewrite Eplay; reflexivity|].
  split; [rewrite Eplay, E; cbn; rewrite Ht; reflexivity|].
  assert (Hfin : shifters (play (pause s)) !! n
                 = Some (with_connections (∅ ∪ {[c]}) p)).
  { rewrite Eplay. unfold connect, update_shifter. simpl.
    rewrite lookup_alter_eq, Hp'. reflexivity. }
  rewrite Hfin. simpl.
  split; [reflexivity|]. split; [f_equal; apply (left_id_L ∅ (∪))|].
  split; [|exact Hrend].
  rewrite Eplay. simpl. apply lookup_insert_eq.
Qed.

Lemma pause_then_play_resumes_witness :
  isPlaying (play (pause (play loaded_120))) = true /\
  rendering 0 (play (pause (play loaded_120))) = true.
Proof.
  destruct playing_120_shifter as (p & Hp & Hc).
  assert (Hs : contexts (play loaded_120) !! 0%nat = Some running)
    by (vm_compute; reflexivity).
  assert (Hn : running <> closed) by discriminate.
  destruct (pause_then_play_resumes (play loaded_120) 0 0 p running
              eq_refl eq_refl Hp Hc Hs Hn) as (H1 & _ & _ & _ & _ & H2).
  split; [exact H1|exact H2].
Defined.

(** Without a shifter in the ref, [play] and [pause] return at their
    guard, [seek] stores the time only and [stop] touches no shifter. *)
Lemma controls_no_ref (s : Session) (t : Q) :
  pitchShifterRef s = None ->
  play s = s /\ pause s = s /\
  seek t s = setCurrentTime t s /\
  shifters (stop s) = shifters s /\
  isPlaying (stop s) = false /\ currentTime (stop s) = 0.
Proof.
  intros Hn. unfold play, pause, seek. simpl. rewrite Hn.
  repeat split; frame_ops.
Qed.

(** X4.  [seek] changes the position and the cursor of the shifter in
    the ref, nothing else: the playing flag, the refs, the contexts,
    speed and pitch, the loads and the log of callbacks are untouched,
    every shifter is as before up to [percentagePlayed], and a shifter
    renders after [seek] exactly when it did before.  When the duration
    is not positive, [seek] stores the time and nothing more. *)
Theorem seek_moves_cursor_only (t : Q) (s : Session) :
  isPlaying (seek t s) = isPlaying s /\
  contexts (seek t s) = contexts s /\
  pitchShifterRef (seek t s) = pitchShifterRef s /\
  audioContext (seek t s) = audioContext s /\
  audioBuffer (seek t s) = audioBuffer s /\
  audioFileName (seek t s) = audioFileName s /\
  speed (seek t s) = speed s /\ pitch (seek t s) = pitch s /\
  isLoading (seek t s) = isLoading s /\ loads (seek t s) = loads s /\
  calls (seek t s) = calls s /\
  (forall m, with_percentagePlayed 0 <$> shifters (seek t s) !! m
             = with_percentagePlayed 0 <$> shifters s !! m) /\
  (forall m, rendering m (seek t s) = rendering m s) /\
  (duration s <= 0 -> seek t s = setCurrentTime t s).
Proof.
  assert (Hsh : forall m, with_percentagePlayed 0 <$> shifters (seek t s) !! m
                          = with_percentagePlayed 0 <$> shifters s !! m).
  { intros m. unfold seek. cbn [pitchShifterRef setCurrentTime].
    destruct (pitchShifterRef s) as [n|]; [|reflexivity].
    destruct (JS.gt (duration s) 0); [|reflexivity].
    unfold set_percentagePlayed, update_shifter. cbn [shifters set_shifters setCurrentTime].
    destruct (decide (n = m)) as [->|Hne].
    - rewrite lookup_alter_eq. destruct (shifters s !! m); reflexivity.
    - rewrite lookup_alter_ne by exact Hne. reflexivity. }
  assert (Hctx : contexts (seek t s) = contexts s) by frame_ops.
  do 11 (split; [frame_ops|]).
  split; [exact Hsh|]. split.
  - intros m. unfold rendering. rewrite Hctx. pose proof (Hsh m) as H.
    destruct (shifters (seek t s) !! m) as [p'|], (shifters s !! m) as [p|];
      try discriminate H; [|reflexivity].
    injection H as H1 H2 H3 H4 H5 H6. rewrite H1, H5. reflexivity.
  - intros Hd. unfold seek, JS.gt. apply Qle_bool_iff in Hd. rewrite Hd. simpl.
    destruct (pitchShifterRef s); reflexivity.
Qed.

(** X5.  [setSpeed] and [setPitch] commute: the session after both does
    not depend on which slider was moved first. *)
Theorem setters_commute (v w : Q) (s : Session) :
  setSpeed v (setPitch w s) = setPitch w (setSpeed v s).
Proof.
  unfold setSpeed, setPitch.
  assert (E1 : forall x, speed (setPitchState w x) = speed x) by reflexivity.
  assert (E2 : forall x, pitch (setSpeedState v x) = pitch x) by reflexivity.
  destruct (Qeq_bool (speed s) v) eqn:Hv, (Qeq_bool (pitch s) w) eqn:Hw;
    cbn [speed pitch pitchShifterRef setSpeedState setPitchState];
    destruct (pitchShifterRef s) as [n|] eqn:Hn;
    unfold set_tempo, set_pitchSemitones, update_shifter, set_shifters;
    cbn -[alter]; rewrite ?Hv, ?Hw, ?Hn; cbn -[alter]; rewrite ?Hv, ?Hw, ?Hn;
    try reflexivity.
  f_equal. rewrite !alter_twice. apply alter_ext. intros p _. reflexivity.
Qed.

(** X6.  [setSpeed] and [setPitch] do not disturb playback: the playing
    flag, the position, the contexts, the log of callbacks and the cursor
    of every shifter are untouched, and a shifter renders afterwards
    exactly when it did before. *)
Theorem sliders_do_not_interrupt (v : Q) (s : Session) :
  (isPlaying (setSpeed v s) = isPlaying s /\
   currentTime (setSpeed v s) = currentTime s /\
   contexts (setSpeed v s) = contexts s /\
   calls (setSpeed v s) = calls s /\
   (forall m, percentagePlayed <$> shifters (setSpeed v s) !! m
              = percentagePlayed <$> shifters s !! m) /\
   (forall m, rendering m (setSpeed v s) = rendering m s)) /\
  (isPlaying (setPitch v s) = isPlaying s /\
   currentTime (setPitch v s) = currentTime s /\
   contexts (setPitch v s) = contexts s /\
   calls (setPitch v s) = calls s /\
   (forall m, percentagePlayed <$> shifters (setPitch v s) !! m
              = percentagePlayed <$> shifters s !! m) /\
   (forall m, rendering m (setPitch v s) = rendering m s)).
Proof.
  assert (Hs : forall m, exists f,
             (forall p, ps_context (f p) = ps_context p /\
                        connections (f p) = connections p /\
                        percentagePlayed (f p) = percentagePlayed p) /\
             shifters (setSpeed v s) !! m = f <$> shifters s !! m).
  { intros m. unfold setSpeed.
    destruct (Qeq_bool (speed s) v);
      [exists id; split; [auto|cbn [shifters setSpeedState setPitchState]; destruct (shifters s !! m); reflexivity]|].
    cbn [pitchShifterRef setSpeedState].
    destruct (pitchShifterRef s) as [n|];
      [|exists id; split; [auto|cbn [shifters setSpeedState setPitchState]; destruct (shifters s !! m); reflexivity]].
    unfold set_tempo, update_shifter. cbn [shifters set_shifters setSpeedState].
    destruct (decide (n = m)) as [->|Hne].
    - exists (with_tempo v). split; [auto|]. rewrite lookup_alter_eq. reflexivity.
    - exists id. split; [auto|]. rewrite lookup_alter_ne by exact Hne.
      destruct (shifters s !! m); reflexivity. }
  assert (Hp : forall m, exists f,
             (forall p, ps_context (f p) = ps_context p /\
                        connections (f p) = connections p /\
                        percentagePlayed (f p) = percentagePlayed p) /\
             shifters (setPitch v s) !! m = f <$> shifters s !! m).
  { intros m. unfold setPitch.
    destruct (Qeq_bool (pitch s) v);
      [exists id; split; [auto|cbn [shifters setSpeedState setPitchState]; destruct (shifters s !! m); reflexivity]|].
    cbn [pitchShifterRef setPitchState].
    destruct (pitchShifterRef s) as [n|];
      [|exists id; split; [auto|cbn [shifters setSpeedState setPitchState]; destruct (shifters s !! m); reflexivity]].
    unfold set_pitchSemitones, update_shifter. cbn [shifters set_shifters setPitchState].
    destruct (decide (n = m)) as [->|Hne].
    - exists (with_pitchSemitones v). split; [auto|]. rewrite lookup_alter_eq. reflexivity.
    - exists id. split; [auto|]. rewrite lookup_alter_ne by exact Hne.
      destruct (shifters s !! m); reflexivity. }
  assert (Hc1 : contexts (setSpeed v s) = contexts s) by frame_ops.
  assert (Hc2 : contexts (setPitch v s) = contexts s) by frame_ops.
  split.
  - do 4 (split; [frame_ops|]). split; intros m; destruct (Hs m) as (f & Hf & E).
    + rewrite E. destruct (shifters s !! m) as [p|]; [|reflexivity].
      simpl. f_equal. apply Hf.
    + unfold rendering. rewrite E, Hc1. destruct (shifters s !! m) as [p|]; [|reflexivity].
      simpl. destruct (Hf p) as (-> & -> & _). reflexivity.
  - do 4 (split; [frame_ops|]). split; intros m; destruct (Hp m) as (f & Hf & E).
    + rewrite E. destruct (shifters s !! m) as [p|]; [|reflexivity].
      simpl. f_equal. apply Hf.
    + unfold rendering. rewrite E, Hc2. destruct (shifters s !! m) as [p|]; [|reflexivity].
      simpl. destruct (Hf p) as (-> & -> & _). reflexivity.
Qed.

End MoreTransport.

(** ** Every reachable session is well formed *)

Section Invariants.

Lemma wf_initial opts : well_formed (useAudioPlayer opts).
Proof.
  split; simpl; try discriminate; auto;
    intros ? ? H; rewrite ?lookup_empty, ?lookup_nil in H; discriminate.
Qed.

Lemma wf_transition c st s : well_formed s -> well_formed (transition c st s).
Proof.
  intros [H1 H2 H3 H4 H5 H6].
  destruct (transition_frame c st s) as (Esh & Er & Ea & _).
  destruct (transition_rest c st s) as [cs E].
  split.
  - rewrite E. simpl. exact H1.
  - rewrite E. simpl. exact H2.
  - rewrite E. simpl. exact H3.
  - intros n p Hp. rewrite Esh in Hp. destruct (H4 n p Hp) as (Ha & Hb & Hc).
    split; [exact Ha|]. split; [|exact Hc]. apply transition_is_Some. exact Hb.
  - intros c0 Hc0. rewrite Ea in Hc0. apply transition_is_Some. auto.
  - rewrite E. simpl. exact H6.
Qed.

Lemma wf_update_shifter n f s :
  gentle f n s -> well_formed s -> well_formed (update_shifter n f s).
Proof.
  intros Hf [H1 H2 H3 H4 H5 H6]. unfold update_shifter.
  split; simpl; auto.
  - intros m Hm. destruct (H2 m Hm) as (p & Hp & Hb & Hd & Hrest).
    destruct (decide (n = m)) as [->|Hne].
    + exists (f p). rewrite lookup_alter_eq, Hp. simpl.
      destruct (Hf p Hp) as (_ & -> & _). auto.
    + exists p. rewrite lookup_alter_ne by done. auto.
  - intros m p. destruct (decide (n = m)) as [->|Hne].
    + rewrite lookup_alter_eq. destruct (shifters s !! m) as [q|] eqn:Hq; [|discriminate].
      simpl. intros [= <-]. destruct (Hf q Hq) as (-> & _ & -> & Hc).
      destruct (H4 m q Hq) as (Ha & Hb & Hl). auto.
    + rewrite lookup_alter_ne by done. apply H4.
Qed.

Ltac gentle_tac :=
  intros ? ?; simpl; repeat split; auto; set_solver.

Lemma wf_disconnect n s : well_formed s -> well_formed (disconnect n s).
Proof. apply wf_update_shifter. gentle_tac. Qed.

Lemma wf_set_percentagePlayed n v s :
  well_formed s -> well_formed (set_percentagePlayed n v s).
Proof. apply wf_update_shifter. gentle_tac. Qed.

Lemma wf_set_tempo n v s : well_formed s -> well_formed (set_tempo n v s).
Proof. apply wf_update_shifter. gentle_tac. Qed.

Lemma wf_set_pitchSemitones n v s :
  well_formed s -> well_formed (set_pitchSemitones n v s).
Proof. apply wf_update_shifter. gentle_tac. Qed.

(** Assignments to state that the invariant does not read. *)
Lemma wf_setCurrentTime v s : well_formed s -> well_formed (setCurrentTime v s).
Proof. intros []. split; simpl; auto. Qed.

Lemma wf_setIsLoading v s : well_formed s -> well_formed (setIsLoading v s).
Proof. intros []. split; simpl; auto. Qed.

Lemma wf_setSpeedState v s : well_formed s -> well_formed (setSpeedState v s).
Proof. intros []. split; simpl; auto. Qed.

Lemma wf_setPitchState v s : well_formed s -> well_formed (setPitchState v s).
Proof. intros []. split; simpl; auto. Qed.

Lemma wf_set_calls v s : well_formed s -> well_formed (set_calls v s).
Proof. intros []. split; simpl; auto. Qed.

Lemma wf_not_playing s : well_formed s -> well_formed (setIsPlaying false s).
Proof.
  intros [H1 H2 H3 H4 H5 H6]. split; simpl; auto; [discriminate|].
  intros Hn. destruct (H3 Hn) as (? & ? & ? & ?). auto.
Qed.

Lemma wf_stop s : well_formed s -> well_formed (stop s).
Proof.
  intros H. unfold stop.
  apply wf_setCurrentTime, wf_not_playing.
  set (s1 := match pitchShifterRef s with Some n => _ | None => s end).
  assert (H1 : well_formed s1).
  { subst s1. destruct (pitchShifterRef s); [|exact H].
    apply wf_set_percentagePlayed, wf_disconnect, H. }
  destruct (audioContext s1); [apply wf_transition|]; exact H1.
Qed.

Lemma wf_pause s : well_formed s -> well_formed (pause s).
Proof.
  intros H. unfold pause.
  destruct (pitchShifterRef s); [|exact H]. destruct (audioContext s); [|exact H].
  apply wf_not_playing, wf_transition, wf_disconnect, H.
Qed.

Lemma wf_play s : well_formed s -> well_formed (play s).
Proof.
  intros H. unfold play.
  destruct (pitchShifterRef s) as [n|] eqn:Hn; [|exact H].
  destruct (audioContext s) as [c|] eqn:Hc; [|exact H].
  set (s1 := if decide (contexts s !! c = Some suspended) then resume c s else s).
  assert (H1 : well_formed s1 /\ pitchShifterRef s1 = Some n /\ audioContext s1 = Some c).
  { subst s1. case_decide; [|auto]. unfold resume.
    destruct (transition_frame c running s) as (_ & -> & -> & _).
    split; [apply wf_transition, H|auto]. }
  destruct H1 as (H1 & Hn1 & Hc1).
  case_decide as Ho; [|exact H1].
  assert (H2 : well_formed (connect n c s1)).
  { apply wf_update_shifter; [|exact H1].
    intros p Hp. rewrite Hp in Ho. simpl in Ho. injection Ho as Ho.
    simpl. repeat split; auto. set_solver. }
  destruct H2 as [G1 G2 G3 G4 G5 G6]. split.
  - intros _. split; [exists n; exact Hn1|exists c; exact Hc1].
  - exact G2.
  - intros Hx. change (pitchShifterRef s1 = None) in Hx. congruence.
  - exact G4.
  - exact G5.
  - exact G6.
Qed.

Lemma wf_seek t s : well_formed s -> well_formed (seek t s).
Proof.
  intros H. unfold seek. simpl.
  destruct (pitchShifterRef s); [|apply wf_setCurrentTime, H].
  destruct (JS.gt (duration s) 0); [|apply wf_setCurrentTime, H].
  apply wf_set_percentagePlayed, wf_setCurrentTime, H.
Qed.

Lemma wf_setSpeed v s : well_formed s -> well_formed (setSpeed v s).
Proof.
  intros H. unfold setSpeed. simpl.
  destruct (Qeq_bool (speed s) v); [apply wf_setSpeedState, H|].
  destruct (pitchShifterRef s); [|apply wf_setSpeedState, H].
  apply wf_set_tempo, wf_setSpeedState, H.
Qed.

Lemma wf_setPitch v s : well_formed s -> well_formed (setPitch v s).
Proof.
  intros H. unfold setPitch. simpl.
  destruct (Qeq_bool (pitch s) v); [apply wf_setPitchState, H|].
  destruct (pitchShifterRef s); [|apply wf_setPitchState, H].
  apply wf_set_pitchSemitones, wf_setPitchState, H.
Qed.

Lemma wf_play_listener ev s : well_formed s -> well_formed (play_listener ev s).
Proof.
  intros H. unfold play_listener.
  destruct (JS.ge (ev_percentagePlayed ev) 99.9); [|apply wf_setCurrentTime, H].
  unfold call_onPlaybackEnd.
  assert (H1 : well_formed (stop (setCurrentTime (timePlayed ev) s)))
    by apply wf_stop, wf_setCurrentTime, H.
  repeat case_match; auto using wf_set_calls.
Qed.

Lemma wf_call_onError e s : well_formed s -> well_formed (call_onError e s).
Proof. intros H. unfold call_onError. repeat case_match; auto using wf_set_calls. Qed.

(** A load may move to a phase past the opening of its context only
    once a context is there. *)
Lemma wf_set_phase k ph s :
  (ph = AwaitArrayBuffer \/ ph = AwaitDecode -> is_Some (audioContext s)) ->
  well_formed s -> well_formed (set_phase k ph s).
Proof.
  intros Hph [H1 H2 H3 H4 H5 H6]. unfold set_phase.
  destruct (loads s !! k) as [t|] eqn:Hk; [|split; assumption].
  split; simpl; auto.
  intros j t' Hj Hp. destruct (decide (k = j)) as [->|Hne].
  - rewrite list_lookup_insert_eq in Hj by (eapply lookup_lt_Some; exact Hk).
    injection Hj as <-. simpl in Hp. auto.
  - rewrite list_lookup_insert_ne in Hj by done. eauto.
Qed.

Lemma wf_loadFile_catch k e s : well_formed s -> well_formed (loadFile_catch k e s).
Proof.
  intros H. unfold loadFile_catch.
  apply wf_setIsLoading, wf_call_onError, wf_set_phase; [|exact H].
  intros [|]; discriminate.
Qed.

Lemma wf_loadFile_open k s : well_formed s -> well_formed (loadFile_open k s).
Proof.
  intros [H1 H2 H3 H4 H5 H6]. unfold loadFile_open.
  apply wf_set_phase; [simpl; eauto|].
  set (c := fresh (dom (contexts s))).
  split; simpl.
  - intros Hp. destruct (H1 Hp). eauto.
  - intros n Hn. destruct (H2 n Hn) as (p & ? & ? & ? & ? & ?). eauto 10.
  - exact H3.
  - intros n p Hp. destruct (H4 n p Hp) as (Ha & Hb & Hc).
    split; [exact Ha|]. split; [|exact Hc].
    rewrite lookup_insert. case_decide; eauto.
  - intros c0 [= <-]. rewrite lookup_insert_eq. eauto.
  - eauto.
Qed.

Lemma wf_loadFile_call file s : well_formed s -> well_formed (loadFile_call file s).
Proof.
  intros H. unfold loadFile_call.
  set (s1 := setIsLoading true _).
  assert (H1 : well_formed s1).
  { subst s1. apply wf_setIsLoading. destruct H as [G1 G2 G3 G4 G5 G6].
    split; simpl; auto. intros k t Hk Hp.
    apply lookup_app_Some in Hk as [Hk|[_ Hk]]; [eauto|].
    destruct (k - length (loads s))%nat; simpl in Hk; [|rewrite lookup_nil in Hk; discriminate].
    injection Hk as <-. simpl in Hp. destruct Hp; discriminate. }
  set (s2 := if isPlaying s then stop s1 else s1).
  assert (H2 : well_formed s2) by (subst s2; destruct (isPlaying s); auto using wf_stop).
  destruct (audioContext s2); [|apply wf_loadFile_open; exact H2].
  case_decide; [|apply wf_transition; exact H2].
  apply wf_set_phase; [|exact H2]. intros [|]; discriminate.
Qed.

Lemma wf_loadFile_read k failure s :
  well_formed s -> well_formed (loadFile_read k failure s).
Proof.
  intros H. unfold loadFile_read.
  destruct failure; [apply wf_loadFile_catch, H|].
  destruct (audioContext s) eqn:Hc; [|apply wf_loadFile_catch, H].
  apply wf_set_phase; [rewrite Hc; eauto|exact H].
Qed.

Lemma wf_loadFile_decoded k t result s :
  parked k AwaitDecode s = Some t ->
  well_formed s -> well_formed (loadFile_decoded k t result s).
Proof.
  intros Hk H. destruct result as [e|buffer]; [apply wf_loadFile_catch, H|].
  assert (Hc : is_Some (audioContext s)).
  { unfold parked in Hk. destruct (loads s !! k) as [t'|] eqn:Hl; [|discriminate].
    case_decide as Hp; [|discriminate]. eapply (wf_loads s H); eauto. }
  destruct Hc as [c Hc]. unfold loadFile_decoded. simpl. rewrite Hc.
  apply wf_setIsLoading, wf_set_phase; [intros [|]; discriminate|].
  set (n := fresh (dom (shifters s))).
  assert (Hfresh : shifters s !! n = None) by apply not_elem_of_dom, is_fresh.
  destruct H as [H1 H2 H3 H4 H5 H6].
  split; simpl.
  - intros Hp. split; eauto.
  - intros m [= <-]. rewrite !lookup_alter_eq, lookup_insert_eq. simpl.
    eexists. split; [reflexivity|]. simpl. eauto 10.
  - discriminate.
  - intros m p. destruct (decide (n = m)) as [<-|Hne].
    + rewrite !lookup_alter_eq, lookup_insert_eq. simpl. intros [= <-]. simpl.
      split; [set_solver|]. split; [apply H5, Hc|reflexivity].
    + rewrite !lookup_alter_ne, lookup_insert_ne by done. apply H4.
  - exact H5.
  - eauto.
Qed.

(** Every action keeps the session well-formed. *)
Lemma wf_step a s s' : step a s = Some s' -> well_formed s -> well_formed s'.
Proof.
  intros Hs H. destruct a; simpl in Hs.
  - injection Hs as <-. apply wf_loadFile_call, H.
  - injection Hs as <-. apply wf_play, H.
  - injection Hs as <-. apply wf_pause, H.
  - injection Hs as <-. apply wf_stop, H.
  - injection Hs as <-. apply wf_seek, H.
  - injection Hs as <-. apply wf_setSpeed, H.
  - injection Hs as <-. apply wf_setPitch, H.
  - destruct (parked k AwaitClose s).
    + injection Hs as <-. apply wf_loadFile_open, H.
    + destruct (parked k AwaitRejectedClose s); [|discriminate].
      injection Hs as <-. apply wf_loadFile_catch, H.
  - destruct (parked k AwaitArrayBuffer s); [|discriminate]. injection Hs as <-.
    apply wf_loadFile_read, H.
  - destruct (parked k AwaitDecode s) eqn:Hk; [|discriminate]. injection Hs as <-.
    apply wf_loadFile_decoded; assumption.
  - destruct (rendering n s); [|discriminate].
    destruct (shifters s !! n) as [p|]; [|discriminate]. injection Hs as <-.
    destruct (listening p); [apply wf_play_listener, H|exact H].
Qed.

Lemma wf_run acts s s' : run acts s = Some s' -> well_formed s -> well_formed s'.
Proof.
  revert s. induction acts as [|a acts IH]; intros s Hr H; simpl in Hr.
  - injection Hr as <-. exact H.
  - destruct (step a s) as [s1|] eqn:Hs; [|discriminate].
    eapply IH; [exact Hr|]. eapply wf_step; eassumption.
Qed.

Lemma reachable_well_formed s : reachable s -> well_formed s.
Proof. intros (opts & acts & H). eapply wf_run; [exact H|apply wf_initial]. Qed.

End Invariants.

(** ** Invariants of the runs that the file input allows *)

Section BehindTheInput.

Lemma quiet_refl s : quiet s s.
Proof. split; auto; tauto. Qed.

Lemma quiet_trans s1 s2 s3 : quiet s1 s2 -> quiet s2 s3 -> quiet s1 s3.
Proof.
  intros [] []. split; try congruence.
  - intros c. rewrite q_closed1. apply q_closed0.
  - intros c. rewrite q_dom1. apply q_dom0.
  - intros n. destruct (q_params0 n) as (? & ? & ?), (q_params1 n) as (? & ? & ?).
    repeat split; congruence.
Qed.

Lemma quiet_transition c st s : st <> closed -> quiet s (transition c st s).
Proof.
  intros Hst. destruct (transition_rest c st s) as [cs E].
  split; try (rewrite E; reflexivity).
  - intros c'. rewrite transition_lookup. case_decide; [subst|tauto].
    destruct (contexts s !! c') as [[]|]; split; congruence.
  - intros c'. rewrite transition_lookup. case_decide; [subst|tauto].
    destruct (contexts s !! c') as [[]|]; split; intros [? ?]; eauto; discriminate.
  - rewrite E. simpl. auto.
Qed.

Lemma quiet_update_shifter n f s :
  (forall p, tempo (f p) = tempo p /\ pitchSemitones (f p) = pitchSemitones p /\
             ps_context (f p) = ps_context p) ->
  quiet s (update_shifter n f s).
Proof.
  intros Hf. unfold update_shifter. split; simpl; auto; try tauto.
  intros m. rewrite lookup_alter. case_decide; [subst|auto].
  destruct (shifters s !! m) as [p|]; simpl; [|auto].
  destruct (Hf p) as (-> & -> & ->). auto.
Qed.

Lemma quiet_setCurrentTime v s : quiet s (setCurrentTime v s).
Proof. split; simpl; auto; tauto. Qed.

Lemma quiet_setIsPlaying v s : quiet s (setIsPlaying v s).
Proof. split; simpl; auto; tauto. Qed.

Lemma quiet_set_calls v s : quiet s (set_calls v s).
Proof. split; simpl; auto; tauto. Qed.

Lemma quiet_stop s : quiet s (stop s).
Proof.
  unfold stop.
  set (s1 := match pitchShifterRef s with Some n => _ | None => s end).
  assert (H1 : quiet s s1).
  { subst s1. destruct (pitchShifterRef s) as [n|]; [|apply quiet_refl].
    apply (quiet_trans _ (disconnect n s)); apply quiet_update_shifter; auto. }
  set (s2 := match audioContext s1 with Some c => _ | None => s1 end).
  assert (H2 : quiet s s2).
  { subst s2. destruct (audioContext s1); [|exact H1].
    eapply quiet_trans; [exact H1|apply quiet_transition; discriminate]. }
  eapply quiet_trans; [exact H2|].
  eapply quiet_trans; [apply quiet_setIsPlaying|apply quiet_setCurrentTime].
Qed.

Lemma quiet_pause s : quiet s (pause s).
Proof.
  unfold pause. destruct (pitchShifterRef s) as [n|]; [|apply quiet_refl].
  destruct (audioContext s) as [n0|]; [|apply quiet_refl].
  apply (quiet_trans _ (disconnect n s)); [apply quiet_update_shifter; auto|].
  apply (quiet_trans _ (suspend n0 (disconnect n s)));
    [apply quiet_transition; discriminate|apply quiet_setIsPlaying].
Qed.

Lemma quiet_play s : quiet s (play s).
Proof.
  unfold play. destruct (pitchShifterRef s) as [n|]; [|apply quiet_refl].
  destruct (audioContext s) as [c|]; [|apply quiet_refl].
  set (s1 := if decide (contexts s !! c = Some suspended) then resume c s else s).
  assert (H1 : quiet s s1).
  { subst s1. case_decide; [apply quiet_transition; discriminate|apply quiet_refl]. }
  case_decide; [|exact H1].
  eapply quiet_trans; [exact H1|].
  apply (quiet_trans _ (connect n c s1));
    [apply quiet_update_shifter; auto|apply quiet_setIsPlaying].
Qed.

Lemma quiet_seek t s : quiet s (seek t s).
Proof.
  unfold seek. simpl. destruct (pitchShifterRef s); [|apply quiet_setCurrentTime].
  destruct (JS.gt (duration s) 0); [|apply quiet_setCurrentTime].
  apply (quiet_trans _ (setCurrentTime t s));
    [apply quiet_setCurrentTime|apply quiet_update_shifter; auto].
Qed.

Lemma quiet_play_listener ev s : quiet s (play_listener ev s).
Proof.
  unfold play_listener.
  destruct (JS.ge (ev_percentagePlayed ev) 99.9); [|apply quiet_setCurrentTime].
  eapply quiet_trans; [apply quiet_setCurrentTime|].
  eapply quiet_trans; [apply quiet_stop|].
  unfold call_onPlaybackEnd. repeat case_match; auto using quiet_refl, quiet_set_calls.
Qed.

Lemma ui_inv_quiet s s' : quiet s s' -> ui_inv s -> ui_inv s'.
Proof.
  intros [] [H1 H2 H3 H4 H5 H6]. split.
  - rewrite q_loading0, q_loads0. exact H1.
  - rewrite q_loading0. intros Hl. destruct (H2 Hl) as (k & Hk & Hrest).
    exists k. unfold in_flight. rewrite q_loads0. auto.
  - intros c st Hc Hst. rewrite q_context0.
    assert (Hs : is_Some (contexts s !! c)) by (apply q_dom0; eauto).
    destruct Hs as [st0 Hs]. apply (H3 c st0 Hs).
    intros ->. apply q_closed0 in Hs. congruence.
  - rewrite q_loads0. intros k t Hk Hp c st Hc.
    assert (Hs : is_Some (contexts s !! c)) by (apply q_dom0; eauto).
    destruct Hs as [st0 Hs]. pose proof (H4 k t Hk Hp c st0 Hs) as ->.
    apply q_closed0 in Hs. congruence.
  - rewrite q_loads0, q_context0. intros Hno c Hc Hcl.
    apply q_closed0 in Hcl. exact (H5 Hno c Hc Hcl).
  - rewrite q_loads0. exact H6.
Qed.

Lemma in_sync_quiet s s' : quiet s s' -> in_sync s -> in_sync s'.
Proof.
  intros [] [H1 H2]. split.
  - rewrite q_ref0, q_speed0, q_pitch0. intros n p Hn Hp.
    destruct (q_params0 n) as (Et & Ep & _). rewrite Hp in Et, Ep. simpl in Et, Ep.
    destruct (shifters s !! n) as [q|] eqn:Hq; [|discriminate].
    simpl in Et, Ep. injection Et as ->. injection Ep as ->. eauto.
  - rewrite q_loads0, q_speed0, q_pitch0. exact H2.
Qed.

(** The setters change no load and no context. *)
Lemma ui_inv_same s s' :
  loads s' = loads s -> isLoading s' = isLoading s ->
  audioContext s' = audioContext s -> contexts s' = contexts s ->
  ui_inv s -> ui_inv s'.
Proof.
  intros E1 E2 E3 E4 [H1 H2 H3 H4 H5 H6]. split; unfold in_flight;
    rewrite ?E1, ?E2, ?E3, ?E4; assumption.
Qed.

Lemma ui_inv_setSpeed v s : ui_inv s -> ui_inv (setSpeed v s).
Proof. apply ui_inv_same; frame_ops. Qed.

Lemma ui_inv_setPitch v s : ui_inv s -> ui_inv (setPitch v s).
Proof. apply ui_inv_same; frame_ops. Qed.

(** Behind the input, a load that has not settled is the only one, and
    [isLoading] is set. *)
Lemma ui_inv_in_flight s k t :
  ui_inv s -> loads s !! k = Some t -> load_phase t <> Settled ->
  isLoading s = true /\
  forall j t', loads s !! j = Some t' -> j <> k -> load_phase t' = Settled.
Proof.
  intros [H1 H2 H3 H4 H5 H6] Hk Hp.
  destruct (isLoading s) eqn:Hl; [|exfalso; exact (Hp (H1 eq_refl k t Hk))].
  split; [reflexivity|].
  destruct (H2 eq_refl) as (k' & (t' & Hk' & Hp') & Hrest).
  destruct (decide (k = k')) as [->|Hne]; [exact Hrest|].
  exfalso. exact (Hp (Hrest k t Hk Hne)).
Qed.

(** The load in flight moves to a later phase, or settles and clears
    [isLoading]; contexts are not touched. *)
Lemma ui_inv_phase s s' k t ph :
  ui_inv s -> loads s !! k = Some t -> load_phase t <> Settled ->
  load_phase t <> AwaitClose ->
  ph <> AwaitClose -> ph <> AwaitRejectedClose ->
  loads s' = <[k := with_phase ph t]> (loads s) ->
  isLoading s' = (if decide (ph = Settled) then false else isLoading s) ->
  audioContext s' = audioContext s -> contexts s' = contexts s ->
  ui_inv s'.
Proof.
  intros H Hk Hp Hnc Hph Hph' El Ei Ea Ec.
  destruct (ui_inv_in_flight s k t H Hk Hp) as [Hl Hrest].
  assert (Hlt : (k < length (loads s))%nat) by (eapply lookup_lt_Some; exact Hk).
  assert (Hlook : forall j t', loads s' !! j = Some t' ->
            (j = k /\ t' = with_phase ph t) \/ (j <> k /\ loads s !! j = Some t')).
  { intros j t'. rewrite El. destruct (decide (k = j)) as [->|Hne].
    - rewrite list_lookup_insert_eq by exact Hlt. intros [= <-]. auto.
    - rewrite list_lookup_insert_ne by done. auto. }
  destruct H as [H1 H2 H3 H4 H5 H6]. split.
  - rewrite Ei. case_decide as Hs; [|congruence]. intros _ j t' Hj.
    destruct (Hlook j t' Hj) as [[-> ->]|[Hne Hj']]; [exact Hs|eauto].
  - rewrite Ei. case_decide as Hs; [discriminate|]. intros _.
    exists k. split.
    + exists (with_phase ph t). rewrite El, list_lookup_insert_eq by exact Hlt. auto.
    + intros j t' Hj Hne. destruct (Hlook j t' Hj) as [[-> _]|[_ Hj']]; [done|eauto].
  - rewrite Ec, Ea. exact H3.
  - intros j t' Hj Hj'. destruct (Hlook j t' Hj) as [[-> ->]|[Hne Hj'']].
    + simpl in Hj'. congruence.
    + pose proof (Hrest j t' Hj'' Hne). congruence.
  - rewrite Ec, Ea. intros _. apply H5. intros j t' Hj.
    destruct (decide (j = k)) as [->|Hne]; [congruence|].
    rewrite (Hrest j t' Hj Hne). discriminate.
  - intros j t' Hj. destruct (Hlook j t' Hj) as [[-> ->]|[Hne Hj'']]; [exact Hph'|eauto].
Qed.

Lemma parked_lookup k ph s t :
  parked k ph s = Some t -> loads s !! k = Some t /\ load_phase t = ph.
Proof.
  unfold parked. destruct (loads s !! k); [|discriminate].
  case_decide; [|discriminate]. intros [= <-]. auto.
Qed.

Lemma set_phase_shape k ph s t :
  loads s !! k = Some t ->
  set_phase k ph s = set_loads (<[k := with_phase ph t]> (loads s)) s.
Proof. intros H. unfold set_phase. rewrite H. reflexivity. Qed.

Lemma ui_inv_catch k t e s :
  ui_inv s -> loads s !! k = Some t -> load_phase t <> Settled ->
  load_phase t <> AwaitClose ->
  ui_inv (loadFile_catch k e s).
Proof.
  intros H Hk Hp Hnc. apply (ui_inv_phase s _ k t Settled H Hk Hp Hnc); try discriminate;
    unfold loadFile_catch; rewrite (set_phase_shape k Settled s t Hk);
    unfold call_onError; simpl; repeat case_match; reflexivity.
Qed.

Lemma ui_inv_read k t failure s :
  ui_inv s -> parked k AwaitArrayBuffer s = Some t ->
  ui_inv (loadFile_read k failure s).
Proof.
  intros H Hk. apply parked_lookup in Hk as [Hk Hp].
  assert (Hns : load_phase t <> Settled) by (rewrite Hp; discriminate).
  assert (Hnc : load_phase t <> AwaitClose) by (rewrite Hp; discriminate).
  unfold loadFile_read. destruct failure; [eapply ui_inv_catch; eassumption|].
  destruct (audioContext s); [|eapply ui_inv_catch; eassumption].
  apply (ui_inv_phase s _ k t AwaitDecode H Hk Hns Hnc); try discriminate;
    rewrite (set_phase_shape k AwaitDecode s t Hk); reflexivity.
Qed.

Lemma ui_inv_decoded k t result s :
  ui_inv s -> parked k AwaitDecode s = Some t ->
  ui_inv (loadFile_decoded k t result s).
Proof.
  intros H Hk. apply parked_lookup in Hk as [Hk Hp].
  assert (Hns : load_phase t <> Settled) by (rewrite Hp; discriminate).
  assert (Hnc : load_phase t <> AwaitClose) by (rewrite Hp; discriminate).
  destruct result as [e|buffer]; [eapply ui_inv_catch; eassumption|].
  unfold loadFile_decoded. simpl.
  destruct (audioContext s) as [c|] eqn:Hc.
  - apply (ui_inv_phase s _ k t Settled H Hk Hns Hnc); try discriminate;
      match goal with |- context [set_phase k Settled ?x] =>
        rewrite (set_phase_shape k Settled x t Hk) end; simpl; auto.
  - apply (ui_inv_catch k t); [apply (ui_inv_same s); auto|exact Hk|exact Hns|exact Hnc].
Qed.

Lemma ui_inv_open k t s :
  ui_inv s -> parked k AwaitClose s = Some t -> ui_inv (loadFile_open k s).
Proof.
  intros H Hk. apply parked_lookup in Hk as [Hk Hp].
  assert (Hns : load_phase t <> Settled) by (rewrite Hp; discriminate).
  destruct (ui_inv_in_flight s k t H Hk Hns) as [Hl Hrest].
  assert (Hlt : (k < length (loads s))%nat) by (eapply lookup_lt_Some; exact Hk).
  unfold loadFile_open.
  match goal with |- context [set_phase k AwaitArrayBuffer ?x] =>
    rewrite (set_phase_shape k AwaitArrayBuffer x t Hk) end.
  set (c := fresh (dom (contexts s))).
  destruct H as [H1 H2 H3 H4 H5 H6].
  assert (Hlook : forall j t', <[k := with_phase AwaitArrayBuffer t]> (loads s) !! j = Some t' ->
            (j = k /\ t' = with_phase AwaitArrayBuffer t) \/ (j <> k /\ loads s !! j = Some t')).
  { intros j t'. destruct (decide (k = j)) as [->|Hne].
    - rewrite list_lookup_insert_eq by exact Hlt. intros [= <-]. auto.
    - rewrite list_lookup_insert_ne by done. auto. }
  split; simpl.
  - congruence.
  - intros _. exists k. split.
    + exists (with_phase AwaitArrayBuffer t). unfold in_flight. simpl.
      rewrite list_lookup_insert_eq by exact Hlt. split; [reflexivity|discriminate].
    + intros j t' Hj Hne. destruct (Hlook j t' Hj) as [[-> _]|[_ Hj']]; [done|eauto].
  - intros c' st. rewrite lookup_insert. case_decide as E; [congruence|].
    intros Hc' Hst. exfalso. apply Hst. exact (H4 k t Hk Hp c' st Hc').
  - intros j t' Hj Hj'. exfalso. destruct (Hlook j t' Hj) as [[-> ->]|[Hne Hj'']].
    + discriminate Hj'.
    + pose proof (Hrest j t' Hj'' Hne). congruence.
  - intros _ c' [= <-]. rewrite lookup_insert_eq. discriminate.
  - intros j t' Hj. destruct (Hlook j t' Hj) as [[-> ->]|[Hne Hj'']]; [discriminate|eauto].
Qed.

Lemma ui_inv_loadFile_call file s :
  isLoading s = false -> ui_inv s -> ui_inv (loadFile_call file s).
Proof.
  intros Hl H. unfold loadFile_call.
  set (k := length (loads s)).
  set (t := {| load_file := file; load_speed := speed s; load_pitch := pitch s;
               load_phase := AwaitClose |}).
  set (s1 := setIsLoading true (set_loads (loads s ++ [t]) s)).
  set (s2 := if isPlaying s then stop s1 else s1).
  assert (Hq : quiet s1 s2)
    by (subst s2; destruct (isPlaying s); [apply quiet_stop|apply quiet_refl]).
  assert (Hk : loads s1 !! k = Some t) by apply list_lookup_middle, eq_refl.
  assert (Hold : forall j t', loads s1 !! j = Some t' -> j <> k -> load_phase t' = Settled).
  { intros j t' Hj Hne. simpl in Hj. apply lookup_app_Some in Hj as [Hj|[Hge Hj]].
    - exact (ui_idle s H Hl j t' Hj).
    - fold k in Hge, Hj. destruct (j - k)%nat eqn:E; [lia|].
      simpl in Hj. rewrite lookup_nil in Hj. discriminate. }
  assert (Hnone : forall c st, contexts s2 !! c = Some st -> st <> closed ->
            audioContext s2 = Some c).
  { intros c st Hc Hst. rewrite (q_context _ _ Hq).
    assert (Hs : is_Some (contexts s1 !! c)) by (apply (q_dom _ _ Hq); eauto).
    destruct Hs as [st0 Hs]. apply (ui_ctx s H c st0 Hs).
    intros ->. apply (q_closed _ _ Hq) in Hs. congruence. }
  assert (Hbusy : exists k0, in_flight k0 s2 /\
            forall j t', loads s2 !! j = Some t' -> j <> k0 -> load_phase t' = Settled).
  { exists k. unfold in_flight. rewrite (q_loads _ _ Hq).
    split; [exists t; split; [exact Hk|discriminate]|exact Hold]. }
  assert (Hl2 : isLoading s2 = true) by (rewrite (q_loading _ _ Hq); reflexivity).
  assert (Hres : forall j t', loads s2 !! j = Some t' -> load_phase t' <> AwaitRejectedClose).
  { rewrite (q_loads _ _ Hq). intros j t' Hj. destruct (decide (j = k)) as [->|Hne].
    - rewrite Hk in Hj. injection Hj as <-. discriminate.
    - rewrite (Hold j t' Hj Hne). discriminate. }
  destruct (audioContext s2) as [c|] eqn:Hc.
  - rewrite decide_False.
    2:{ intros Hcl. apply (q_closed _ _ Hq) in Hcl.
        rewrite (q_context _ _ Hq) in Hc.
        refine (ui_open s H _ c Hc Hcl).
        intros j t' Hj. rewrite (ui_idle s H Hl j t' Hj). discriminate. }
    destruct (transition_rest c closed s2) as [cs E].
    assert (Hall : forall c' st, contexts (close c s2) !! c' = Some st -> st = closed).
    { intros c' st. unfold close. rewrite transition_lookup. case_decide as Ec.
      - destruct (contexts s2 !! c) as [[]|]; congruence.
      - intros Hc'. destruct (decide (st = closed)) as [|Hst]; [assumption|].
        pose proof (Hnone c' st Hc' Hst). congruence. }
    split.
    + unfold close. rewrite E. simpl. congruence.
    + intros _. unfold close, in_flight. rewrite E. exact Hbusy.
    + intros c' st Hc' Hst. exfalso. exact (Hst (Hall c' st Hc')).
    + intros _ _ _ _. exact Hall.
    + unfold close. rewrite E. simpl. intros Hno. exfalso.
      rewrite (q_loads _ _ Hq) in Hno. exact (Hno k t Hk eq_refl).
    + unfold close. rewrite E. simpl. exact Hres.
  - apply (ui_inv_open k t).
    + split; [congruence|intros _; exact Hbusy|
              intros c st H1 H2; rewrite Hc; exact (Hnone c st H1 H2)| | |exact Hres].
      * intros _ _ _ _ c st Hc'. destruct (decide (st = closed)) as [|Hst]; [assumption|].
        pose proof (Hnone c st Hc' Hst). congruence.
      * rewrite Hc. discriminate.
    + unfold parked. rewrite (q_loads _ _ Hq), Hk. reflexivity.
Qed.

Lemma ui_inv_step a s s' :
  ui_enabled a s = true -> step a s = Some s' -> ui_inv s -> ui_inv s'.
Proof.
  intros Hg Hs H. destruct a; simpl in Hs, Hg.
  - injection Hs as <-. apply ui_inv_loadFile_call; [|exact H].
    destruct (isLoading s); [discriminate|reflexivity].
  - injection Hs as <-. exact (ui_inv_quiet _ _ (quiet_play s) H).
  - injection Hs as <-. exact (ui_inv_quiet _ _ (quiet_pause s) H).
  - injection Hs as <-. exact (ui_inv_quiet _ _ (quiet_stop s) H).
  - injection Hs as <-. exact (ui_inv_quiet _ _ (quiet_seek _ s) H).
  - injection Hs as <-. apply ui_inv_setSpeed, H.
  - injection Hs as <-. apply ui_inv_setPitch, H.
  - destruct (parked k AwaitClose s) eqn:Hk.
    + injection Hs as <-. eapply ui_inv_open; eassumption.
    + destruct (parked k AwaitRejectedClose s) eqn:Hk'; [|discriminate].
      exfalso. apply parked_lookup in Hk' as [Hk' Hp].
      exact (ui_resolves s H k _ Hk' Hp).
  - destruct (parked k AwaitArrayBuffer s) eqn:Hk; [|discriminate]. injection Hs as <-.
    eapply ui_inv_read; eassumption.
  - destruct (parked k AwaitDecode s) eqn:Hk; [|discriminate]. injection Hs as <-.
    eapply ui_inv_decoded; eassumption.
  - destruct (rendering n s); [|discriminate].
    destruct (shifters s !! n) as [p|]; [|discriminate]. injection Hs as <-.
    destruct (listening p); [|exact H].
    exact (ui_inv_quiet _ _ (quiet_play_listener _ s) H).
Qed.

Lemma ui_inv_initial opts : ui_inv (useAudioPlayer opts).
Proof.
  split; simpl; try discriminate;
    intros; rewrite ?lookup_nil, ?lookup_empty in *; discriminate.
Qed.

Lemma ui_inv_run acts s s' :
  guarded_run ui_enabled acts s = Some s' -> ui_inv s -> ui_inv s'.
Proof.
  revert s. induction acts as [|a acts IH]; intros s Hr H; simpl in Hr.
  - injection Hr as <-. exact H.
  - destruct (ui_enabled a s) eqn:Hg; [|discriminate].
    destruct (step a s) as [s1|] eqn:Hs; [|discriminate].
    eapply IH; [exact Hr|]. eapply ui_inv_step; eassumption.
Qed.

Lemma ui_reachable_inv s : ui_reachable s -> ui_inv s.
Proof. intros (opts & acts & H). eapply ui_inv_run; [exact H|apply ui_inv_initial]. Qed.

(** Behind the file input a [loadFile] call finds no closed context in
    the ref: its [close()] resolves, and when nothing interleaves the
    call is the run that [loadFile] computes. *)
Lemma loadFile_behind_the_input (file : File) (result : Error + AudioBuffer)
    (s : Session) :
  ui_reachable s -> isLoading s = false ->
  let k := length (loads s) in
  run (CallLoadFile file ::
       match audioContext s with Some _ => [CloseSettled k] | None => [] end ++
       [ArrayBufferSettled k None; DecodeSettled k result]) s
  = Some (loadFile file result s).
Proof.
  intros Hr Hl k. apply loadFile_is_a_run.
  pose proof (ui_reachable_inv s Hr) as Hi.
  apply (ui_open s Hi). intros j t Hj E.
  pose proof (ui_idle s Hi Hl j t Hj) as Hs. congruence.
Qed.

(** *** Speed and pitch of the shifter *)

Lemma in_sync_initial opts : in_sync (useAudioPlayer opts).
Proof. split; simpl; intros; rewrite ?lookup_nil in *; discriminate. Qed.

Lemma in_sync_same s s' :
  pitchShifterRef s' = pitchShifterRef s -> shifters s' = shifters s ->
  speed s' = speed s -> pitch s' = pitch s -> loads s' = loads s ->
  in_sync s -> in_sync s'.
Proof. intros E1 E2 E3 E4 E5 [H1 H2]. split; rewrite ?E1, ?E2, ?E3, ?E4, ?E5; assumption. Qed.

Lemma in_sync_setIsLoading v s : in_sync s -> in_sync (setIsLoading v s).
Proof. intros []. split; simpl; assumption. Qed.

Lemma in_sync_set_phase k ph s :
  (forall t, loads s !! k = Some t -> load_phase t <> Settled \/ ph = Settled) ->
  in_sync s -> in_sync (set_phase k ph s).
Proof.
  intros Hk [H1 H2]. unfold set_phase.
  destruct (loads s !! k) as [t|] eqn:Ht; [|split; assumption].
  assert (Hlt : (k < length (loads s))%nat) by (eapply lookup_lt_Some; exact Ht).
  split; simpl; [exact H1|].
  intros j t'. destruct (decide (k = j)) as [->|Hne].
  - rewrite list_lookup_insert_eq by exact Hlt. intros [= <-] Hp. simpl in *.
    destruct (Hk t eq_refl) as [Hu| ->]; [eauto|congruence].
  - rewrite list_lookup_insert_ne by done. apply H2.
Qed.

Lemma in_sync_catch k e s : in_sync s -> in_sync (loadFile_catch k e s).
Proof.
  intros H. unfold loadFile_catch.
  apply (in_sync_same (set_phase k Settled s)).
  1-5: unfold call_onError; simpl; repeat case_match; reflexivity.
  apply in_sync_set_phase; auto.
Qed.

Lemma in_sync_open k t s :
  parked k AwaitClose s = Some t -> in_sync s -> in_sync (loadFile_open k s).
Proof.
  intros Hk H. apply parked_lookup in Hk as [Hk Hp]. unfold loadFile_open.
  apply in_sync_set_phase.
  - simpl. intros t' Ht'. left. congruence.
  - apply (in_sync_same s); [reflexivity..|exact H].
Qed.

Lemma in_sync_read k t failure s :
  parked k AwaitArrayBuffer s = Some t -> in_sync s ->
  in_sync (loadFile_read k failure s).
Proof.
  intros Hk H. apply parked_lookup in Hk as [Hk Hp]. unfold loadFile_read.
  destruct failure; [apply in_sync_catch, H|].
  destruct (audioContext s); [|apply in_sync_catch, H].
  apply in_sync_set_phase; [|exact H]. intros t' Ht'. left. congruence.
Qed.

Lemma in_sync_decoded k t result s :
  parked k AwaitDecode s = Some t -> in_sync s ->
  in_sync (loadFile_decoded k t result s).
Proof.
  intros Hk H. apply parked_lookup in Hk as [Hk Hp].
  destruct result as [e|buffer]; [apply in_sync_catch, H|].
  unfold loadFile_decoded. simpl.
  destruct (audioContext s) as [c|] eqn:Hc.
  - apply in_sync_setIsLoading, in_sync_set_phase; [auto|].
    destruct H as [H1 H2]. split; simpl; [|exact H2].
    intros n p [= <-]. rewrite !lookup_alter_eq, lookup_insert_eq. simpl.
    intros [= <-]. simpl. apply (H2 k t Hk). rewrite Hp. discriminate.
  - apply in_sync_catch. apply (in_sync_same s); [reflexivity..|exact H].
Qed.

Lemma in_sync_loadFile_call file s : in_sync s -> in_sync (loadFile_call file s).
Proof.
  intros H. unfold loadFile_call.
  set (k := length (loads s)).
  set (t := {| load_file := file; load_speed := speed s; load_pitch := pitch s;
               load_phase := AwaitClose |}).
  set (s1 := setIsLoading true (set_loads (loads s ++ [t]) s)).
  assert (Hk : loads s1 !! k = Some t) by apply list_lookup_middle, eq_refl.
  assert (H1 : in_sync s1).
  { destruct H as [H1 H2]. split; simpl; [exact H1|].
    intros j t' Hj Hp. apply lookup_app_Some in Hj as [Hj|[Hge Hj]]; [eauto|].
    destruct (j - length (loads s))%nat; simpl in Hj;
      [|rewrite lookup_nil in Hj; discriminate].
    injection Hj as <-. simpl. split; reflexivity. }
  set (s2 := if isPlaying s then stop s1 else s1).
  assert (Hq : quiet s1 s2)
    by (subst s2; destruct (isPlaying s); [apply quiet_stop|apply quiet_refl]).
  assert (H2 : in_sync s2) by exact (in_sync_quiet _ _ Hq H1).
  destruct (audioContext s2) as [c|].
  - case_decide.
    { apply in_sync_set_phase; [|exact H2]. rewrite (q_loads _ _ Hq), Hk.
      intros t' [= <-]. left. discriminate. }
    destruct (transition_frame c closed s2) as (E1 & E2 & _).
    destruct (transition_rest c closed s2) as [cs E].
    apply (in_sync_same s2); [| |unfold close; rewrite E; reflexivity..|exact H2];
      assumption.
  - apply (in_sync_open k t); [|exact H2].
    unfold parked. rewrite (q_loads _ _ Hq), Hk. reflexivity.
Qed.

Lemma in_sync_setSpeed v s :
  (forall k t, loads s !! k = Some t -> load_phase t = Settled) ->
  in_sync s -> in_sync (setSpeed v s).
Proof.
  intros Hl [H1 H2]. unfold setSpeed.
  destruct (Qeq_bool (speed s) v) eqn:E.
  - apply Qeq_bool_iff in E. split; simpl.
    + intros n p Hn Hp. destruct (H1 n p Hn Hp) as [Ht Hpi].
      split; [rewrite Ht; exact E|exact Hpi].
    + intros k t Hk Hp. exfalso. exact (Hp (Hl k t Hk)).
  - simpl. destruct (pitchShifterRef s) as [n|] eqn:Hn.
    + split; simpl.
      * rewrite Hn. intros n' p [= <-]. rewrite lookup_alter_eq.
        destruct (shifters s !! n) as [q|] eqn:Hq; [|discriminate].
        simpl. intros [= <-]. simpl. split; [reflexivity|].
        exact (proj2 (H1 n q eq_refl Hq)).
      * intros k t Hk Hp. exfalso. exact (Hp (Hl k t Hk)).
    + split; simpl; [rewrite Hn; discriminate|].
      intros k t Hk Hp. exfalso. exact (Hp (Hl k t Hk)).
Qed.

Lemma in_sync_setPitch v s :
  (forall k t, loads s !! k = Some t -> load_phase t = Settled) ->
  in_sync s -> in_sync (setPitch v s).
Proof.
  intros Hl [H1 H2]. unfold setPitch.
  destruct (Qeq_bool (pitch s) v) eqn:E.
  - apply Qeq_bool_iff in E. split; simpl.
    + intros n p Hn Hp. destruct (H1 n p Hn Hp) as [Ht Hpi].
      split; [exact Ht|rewrite Hpi; exact E].
    + intros k t Hk Hp. exfalso. exact (Hp (Hl k t Hk)).
  - simpl. destruct (pitchShifterRef s) as [n|] eqn:Hn.
    + split; simpl.
      * rewrite Hn. intros n' p [= <-]. rewrite lookup_alter_eq.
        destruct (shifters s !! n) as [q|] eqn:Hq; [|discriminate].
        simpl. intros [= <-]. simpl. split; [|reflexivity].
        exact (proj1 (H1 n q eq_refl Hq)).
      * intros k t Hk Hp. exfalso. exact (Hp (Hl k t Hk)).
    + split; simpl; [rewrite Hn; discriminate|].
      intros k t Hk Hp. exfalso. exact (Hp (Hl k t Hk)).
Qed.

Lemma calm_is_enabled a s : ui_calm a s = true -> ui_enabled a s = true.
Proof. destruct a; simpl; auto. Qed.

Lemma calm_step a s s' :
  ui_calm a s = true -> step a s = Some s' ->
  ui_inv s /\ in_sync s -> ui_inv s' /\ in_sync s'.
Proof.
  intros Hg Hs [Hu H].
  split; [eapply ui_inv_step; eauto using calm_is_enabled|].
  destruct a; simpl in Hs, Hg.
  - injection Hs as <-. apply in_sync_loadFile_call, H.
  - injection Hs as <-. exact (in_sync_quiet _ _ (quiet_play s) H).
  - injection Hs as <-. exact (in_sync_quiet _ _ (quiet_pause s) H).
  - injection Hs as <-. exact (in_sync_quiet _ _ (quiet_stop s) H).
  - injection Hs as <-. exact (in_sync_quiet _ _ (quiet_seek _ s) H).
  - injection Hs as <-. apply in_sync_setSpeed; [|exact H].
    apply (ui_idle s Hu). destruct (isLoading s); [discriminate|reflexivity].
  - injection Hs as <-. apply in_sync_setPitch; [|exact H].
    apply (ui_idle s Hu). destruct (isLoading s); [discriminate|reflexivity].
  - destruct (parked k AwaitClose s) eqn:Hk.
    + injection Hs as <-. eapply in_sync_open; eassumption.
    + destruct (parked k AwaitRejectedClose s); [|discriminate].
      injection Hs as <-. apply in_sync_catch, H.
  - destruct (parked k AwaitArrayBuffer s) eqn:Hk; [|discriminate]. injection Hs as <-.
    eapply in_sync_read; eassumption.
  - destruct (parked k AwaitDecode s) eqn:Hk; [|discriminate]. injection Hs as <-.
    eapply in_sync_decoded; eassumption.
  - destruct (rendering n s); [|discriminate].
    destruct (shifters s !! n) as [p|]; [|discriminate]. injection Hs as <-.
    destruct (listening p); [|exact H].
    exact (in_sync_quiet _ _ (quiet_play_listener _ s) H).
Qed.

Lemma calm_run acts s s' :
  guarded_run ui_calm acts s = Some s' ->
  ui_inv s /\ in_sync s -> ui_inv s' /\ in_sync s'.
Proof.
  revert s. induction acts as [|a acts IH]; intros s Hr H; simpl in Hr.
  - injection Hr as <-. exact H.
  - destruct (ui_calm a s) eqn:Hg; [|discriminate].
    destruct (step a s) as [s1|] eqn:Hs; [|discriminate].
    eapply IH; [exact Hr|]. eapply calm_step; eassumption.
Qed.

Lemma guarded_run_is_run g acts s s' :
  guarded_run g acts s = Some s' -> run acts s = Some s'.
Proof.
  revert s. induction acts as [|a acts IH]; intros s; simpl; [auto|].
  destruct (g a s); [|discriminate]. destruct (step a s); [apply IH|discriminate].
Qed.

End BehindTheInput.

(** ** A load on any schedule *)

Section AnySchedule.

Lemma same_call_refl t : same_call t t.
Proof. repeat split. Qed.

Lemma same_call_trans t1 t2 t3 : same_call t1 t2 -> same_call t2 t3 -> same_call t1 t3.
Proof. intros (? & ? & ?) (? & ? & ?). repeat split; congruence. Qed.

Lemma set_phase_task k' ph s k t :
  loads s !! k = Some t ->
  exists t', loads (set_phase k' ph s) !! k = Some t' /\ same_call t t'.
Proof.
  intros Hk. unfold set_phase.
  destruct (loads s !! k') as [t0|] eqn:H0; [|eauto using same_call_refl].
  simpl. destruct (decide (k' = k)) as [->|Hne].
  - rewrite list_lookup_insert_eq by (eapply lookup_lt_Some; exact Hk).
    rewrite Hk in H0. injection H0 as ->. eexists. split; [reflexivity|].
    repeat split.
  - rewrite list_lookup_insert_ne by exact Hne. eauto using same_call_refl.
Qed.

Lemma catch_task k' e s k t :
  loads s !! k = Some t ->
  exists t', loads (loadFile_catch k' e s) !! k = Some t' /\ same_call t t'.
Proof.
  intros Hk. destruct (set_phase_task k' Settled s k t Hk) as (t' & Ht' & Hs).
  exists t'. split; [|exact Hs]. unfold loadFile_catch, call_onError. simpl.
  repeat case_match; simpl; exact Ht'.
Qed.

Lemma open_task k' s k t :
  loads s !! k = Some t ->
  exists t', loads (loadFile_open k' s) !! k = Some t' /\ same_call t t'.
Proof. intros Hk. unfold loadFile_open. apply set_phase_task. exact Hk. Qed.

Lemma setIsLoading_loads v x : loads (setIsLoading v x) = loads x.
Proof. reflexivity. Qed.

Lemma stop_loads s : loads (stop s) = loads s.
Proof. frame_ops. Qed.

Lemma loadFile_call_task file s k t :
  loads s !! k = Some t ->
  exists t', loads (loadFile_call file s) !! k = Some t' /\ same_call t t'.
Proof.
  intros Hk. unfold loadFile_call.
  set (t0 := {| load_file := file; load_speed := speed s; load_pitch := pitch s;
                load_phase := AwaitClose |}).
  set (s1 := setIsLoading true (set_loads (loads s ++ [t0]) s)).
  set (s2 := if isPlaying s then stop s1 else s1).
  assert (H2 : loads s2 !! k = Some t).
  { assert (E : loads s2 = loads s ++ [t0])
      by (subst s2; destruct (isPlaying s); [apply stop_loads|reflexivity]).
    rewrite E. apply lookup_app_l_Some. exact Hk. }
  destruct (audioContext s2) as [c|]; [|apply open_task; exact H2].
  case_decide; [apply set_phase_task; exact H2|].
  exists t. split; [|apply same_call_refl].
  unfold close, transition. repeat case_match; exact H2.
Qed.

(** No step changes the file, the speed or the pitch a call has
    captured, and no step removes a call. *)
Lemma step_keeps_task a s s' k t :
  step a s = Some s' -> loads s !! k = Some t ->
  exists t', loads s' !! k = Some t' /\ same_call t t'.
Proof.
  intros H Hk.
  assert (Hsame : forall x, loads x = loads s ->
            exists t', loads x !! k = Some t' /\ same_call t t')
    by (intros x ->; eauto using same_call_refl).
  destruct a as [file| | | |time|v|v|k'|k' failure|k' result|n ev]; simpl in H.
  - injection H as <-. apply loadFile_call_task. exact Hk.
  - injection H as <-. apply Hsame. frame_ops.
  - injection H as <-. apply Hsame. frame_ops.
  - injection H as <-. apply Hsame. frame_ops.
  - injection H as <-. apply Hsame. frame_ops.
  - injection H as <-. apply Hsame. frame_ops.
  - injection H as <-. apply Hsame. frame_ops.
  - destruct (parked k' AwaitClose s) as [tc|].
    + injection H as <-. apply open_task. exact Hk.
    + destruct (parked k' AwaitRejectedClose s) as [tc|]; [|discriminate].
      injection H as <-. apply catch_task. exact Hk.
  - destruct (parked k' AwaitArrayBuffer s) as [tc|]; [|discriminate]. injection H as <-.
    unfold loadFile_read. destruct failure; [apply catch_task; exact Hk|].
    destruct (audioContext s); [apply set_phase_task|apply catch_task]; exact Hk.
  - destruct (parked k' AwaitDecode s) as [t0|]; [|discriminate]. injection H as <-.
    destruct result as [e|buffer]; [apply catch_task; exact Hk|].
    unfold loadFile_decoded. cbn [audioContext set_audioBuffer].
    destruct (audioContext s) as [c|].
    + rewrite setIsLoading_loads.
      match goal with |- context [set_phase k' Settled ?x] =>
        apply (set_phase_task k' Settled x k t) end.
      exact Hk.
    + apply (catch_task k' TypeError (set_audioBuffer (Some buffer) s)). exact Hk.
  - destruct (rendering n s); [|discriminate].
    destruct (shifters s !! n) as [p|]; [|discriminate]. injection H as <-.
    destruct (listening p); [|eauto using same_call_refl]. apply Hsame. frame_ops.
Qed.

Lemma run_keeps_task acts s s' k t :
  run acts s = Some s' -> loads s !! k = Some t ->
  exists t', loads s' !! k = Some t' /\ same_call t t'.
Proof.
  revert s t. induction acts as [|a acts IH]; intros s t H Hk; simpl in H.
  - injection H as <-. eauto using same_call_refl.
  - destruct (step a s) as [s1|] eqn:E; [|discriminate].
    destruct (step_keeps_task a s s1 k t E Hk) as (t1 & H1 & S1).
    destruct (IH s1 t1 H H1) as (t' & H' & S').
    eauto using same_call_trans.
Qed.

(** The record of a call right after its synchronous head. *)
Lemma loadFile_call_new_task file s :
  exists t, loads (loadFile_call file s) !! length (loads s) = Some t /\
    load_file t = file /\ load_speed t = speed s /\ load_pitch t = pitch s.
Proof.
  pose proof (loadFile_call_loads file s) as H. cbv zeta in H.
  destruct (audioContext s) as [c|]; [destruct (decide (contexts s !! c = Some closed))|];
    apply parked_lookup in H as [H _]; eexists; (split; [exact H|repeat split]).
Qed.

(** [isPlaying] is set by [play] only. *)
Lemma step_not_playing a s s' :
  step a s = Some s' -> is_play a = false -> isPlaying s = false -> isPlaying s' = false.
Proof.
  intros H Ha Hp.
  destruct a as [file| | | |time|v|v|k|k failure|k result|n ev]; simpl in H;
    try discriminate Ha.
  - injection H as <-. apply loadFile_call_not_playing.
  - injection H as <-. frame_ops.
  - injection H as <-. frame_ops.
  - injection H as <-. frame_ops.
  - injection H as <-. frame_ops.
  - injection H as <-. frame_ops.
  - destruct (parked k AwaitClose s) as [tc|].
    + injection H as <-. unfold loadFile_open.
      match goal with |- context [set_phase k AwaitArrayBuffer ?x] =>
        destruct (set_phase_loads k AwaitArrayBuffer x) as [? ->] end. exact Hp.
    + destruct (parked k AwaitRejectedClose s) as [tc|]; [|discriminate]. injection H as <-.
      unfold loadFile_catch. destruct (set_phase_loads k Settled s) as [l ->].
      unfold call_onError. simpl. repeat case_match; exact Hp.
  - destruct (parked k AwaitArrayBuffer s) as [tc|]; [|discriminate]. injection H as <-.
    unfold loadFile_read, loadFile_catch.
    destruct (set_phase_loads k Settled s) as [l ->].
    destruct (set_phase_loads k AwaitDecode s) as [l' ->].
    unfold call_onError. simpl. repeat case_match; exact Hp.
  - destruct (parked k AwaitDecode s) as [t|]; [|discriminate]. injection H as <-.
    destruct result as [e|buffer].
    + unfold loadFile_decoded, loadFile_catch.
      destruct (set_phase_loads k Settled s) as [l ->].
      unfold call_onError. simpl. repeat case_match; exact Hp.
    + destruct (audioContext s) as [c|] eqn:Hc.
      * destruct (loadFile_decoded_ok k t buffer c s Hc)
          as (_ & _ & _ & _ & _ & _ & _ & _ & _ & _ & _ & Hpl & _).
        cbv zeta in Hpl. rewrite Hpl. exact Hp.
      * unfold loadFile_decoded. simpl. rewrite Hc. unfold loadFile_catch.
        destruct (set_phase_loads k Settled (set_audioBuffer (Some buffer) s)) as [l ->].
        unfold call_onError. simpl. repeat case_match; exact Hp.
  - destruct (rendering n s); [|discriminate].
    destruct (shifters s !! n) as [p|]; [|discriminate]. injection H as <-.
    destruct (listening p); [|exact Hp]. frame_ops.
Qed.

Lemma run_not_playing acts s s' :
  run acts s = Some s' -> Forall (fun a => is_play a = false) acts ->
  isPlaying s = false -> isPlaying s' = false.
Proof.
  revert s. induction acts as [|a acts IH]; intros s H Hall Hp; simpl in H.
  - injection H as <-. exact Hp.
  - destruct (step a s) as [s1|] eqn:E; [|discriminate].
    apply Forall_cons in Hall as [Ha Hall].
    apply (IH s1 H Hall). exact (step_not_playing a s s1 E Ha Hp).
Qed.

(** What a step that installs nothing leaves alone. *)
Lemma step_keeps_asset a s s' :
  step a s = Some s' -> installs a = false ->
  options s' = options s /\
  pitchShifterRef s' = pitchShifterRef s /\ audioBuffer s' = audioBuffer s /\
  audioFileName s' = audioFileName s /\ duration s' = duration s.
Proof.
  intros H Ha.
  assert (Hcatch : forall k e, let x := loadFile_catch k e s in
            options x = options s /\
            pitchShifterRef x = pitchShifterRef s /\ audioBuffer x = audioBuffer s /\
            audioFileName x = audioFileName s /\ duration x = duration s).
  { intros k e x. subst x. unfold loadFile_catch.
    destruct (set_phase_loads k Settled s) as [l ->].
    unfold call_onError. simpl. repeat case_match; simpl; auto. }
  destruct a as [file| | | |time|v|v|k|k failure|k result|n ev]; simpl in H.
  - injection H as <-. destruct (loadFile_call_frame file s). auto.
  - injection H as <-. repeat split; frame_ops.
  - injection H as <-. repeat split; frame_ops.
  - injection H as <-. repeat split; frame_ops.
  - injection H as <-. repeat split; frame_ops.
  - injection H as <-. repeat split; frame_ops.
  - injection H as <-. repeat split; frame_ops.
  - destruct (parked k AwaitClose s) as [tc|].
    + injection H as <-. destruct (loadFile_open_frame k s). auto.
    + destruct (parked k AwaitRejectedClose s) as [tc|]; [|discriminate].
      injection H as <-. apply Hcatch.
  - destruct (parked k AwaitArrayBuffer s) as [tc|]; [|discriminate]. injection H as <-.
    unfold loadFile_read. destruct failure; [apply Hcatch|].
    destruct (audioContext s); [|apply Hcatch].
    destruct (set_phase_frame k AwaitDecode s). auto.
  - destruct (parked k AwaitDecode s) as [t|]; [|discriminate]. injection H as <-.
    destruct result as [e|buffer]; [apply Hcatch|discriminate Ha].
  - destruct (rendering n s); [|discriminate].
    destruct (shifters s !! n) as [p|]; [|discriminate]. injection H as <-.
    destruct (listening p); [|auto]. repeat split; frame_ops.
Qed.

Lemma run_keeps_asset acts s s' :
  run acts s = Some s' -> Forall (fun a => installs a = false) acts ->
  pitchShifterRef s' = pitchShifterRef s /\ audioBuffer s' = audioBuffer s /\
  audioFileName s' = audioFileName s /\ duration s' = duration s.
Proof.
  revert s. induction acts as [|a acts IH]; intros s H Hall; simpl in H.
  - injection H as <-. auto.
  - destruct (step a s) as [s1|] eqn:E; [|discriminate].
    apply Forall_cons in Hall as [Ha Hall].
    destruct (IH s1 H Hall) as (-> & -> & -> & ->).
    destruct (step_keeps_asset a s s1 E Ha) as (_ & ? & ? & ? & ?). auto.
Qed.

Lemma step_options a s s' : step a s = Some s' -> options s' = options s.
Proof.
  intros H. destruct (installs a) eqn:Ha;
    [|exact (proj1 (step_keeps_asset a s s' H Ha))].
  destruct a as [| | | | | | | | |k [e|buffer]|]; try discriminate Ha. simpl in H.
  destruct (parked k AwaitDecode s) as [t|]; [|discriminate]. injection H as <-.
  unfold loadFile_decoded, loadFile_catch. cbn [audioContext set_audioBuffer].
  destruct (audioContext s) as [c|].
  - match goal with |- context [set_phase k Settled ?x] =>
      destruct (set_phase_loads k Settled x) as [l ->] end. reflexivity.
  - destruct (set_phase_loads k Settled (set_audioBuffer (Some buffer) s)) as [l ->].
    unfold call_onError. simpl. repeat case_match; simpl; congruence.
Qed.

Lemma run_options acts s s' : run acts s = Some s' -> options s' = options s.
Proof.
  revert s. induction acts as [|a acts IH]; intros s H; simpl in H.
  - injection H as <-. reflexivity.
  - destruct (step a s) as [s1|] eqn:E; [|discriminate].
    rewrite (IH s1 H). exact (step_options a s s1 E).
Qed.

Lemma run_without_setters acts s s' :
  run acts s = Some s' -> Forall (fun a => is_setter a = false) acts ->
  speed s' = speed s /\ pitch s' = pitch s.
Proof.
  revert s. induction acts as [|a acts IH]; intros s H Hall; simpl in H.
  - injection H as <-. auto.
  - destruct (step a s) as [s1|] eqn:E; [|discriminate].
    apply Forall_cons in Hall as [Ha Hall].
    destruct (IH s1 H Hall) as [-> ->].
    apply (only_setters_change_parameters a s s1 E); intros v ->; discriminate Ha.
Qed.

(** C3 (as the code has it).  Take any [loadFile] call and any schedule
    after it, and let the decode of that call fail.  When the failure
    settles, [isLoading] is cleared and [onError], if the caller supplied
    it, is called once with the error of the decoder; nothing else
    changes: the refs, the file name, the duration, the shifters, the
    contexts and [isPlaying] are as they were.  Nothing plays afterwards
    when [play] was not called since the [loadFile] call.  When no other
    decode succeeded since the call, the shifter ref, the buffer, the
    file name and the duration are still those from before the call (the
    asset of an earlier load is retained), and a session that had no
    asset before the call is idle. *)
Theorem decode_failure_keeps_previous_asset (file : File) (e : Error)
    (acts : list Action) (s s1 s' : Session) :
  run (CallLoadFile file :: acts) s = Some s1 ->
  step (DecodeSettled (length (loads s)) (inl e)) s1 = Some s' ->
  isLoading s' = false /\
  calls s' = calls s1 ++ (if reports_errors s then [ErrorReported e] else []) /\
  isPlaying s' = isPlaying s1 /\
  pitchShifterRef s' = pitchShifterRef s1 /\
  audioBuffer s' = audioBuffer s1 /\
  audioFileName s' = audioFileName s1 /\
  duration s' = duration s1 /\
  shifters s' = shifters s1 /\
  contexts s' = contexts s1 /\
  (Forall (fun a => is_play a = false) acts -> isPlaying s' = false) /\
  (Forall (fun a => installs a = false) acts ->
     pitchShifterRef s' = pitchShifterRef s /\
     audioBuffer s' = audioBuffer s /\
     audioFileName s' = audioFileName s /\
     duration s' = duration s /\
     (pitchShifterRef s = None -> playbackState s' = Idle)).
Proof.
  intros Hrun Hstep.
  assert (Ho : options s1 = options s) by exact (run_options _ _ _ Hrun).
  cbn [run step] in Hrun.
  set (k := length (loads s)) in *.
  cbn [step] in Hstep. destruct (parked k AwaitDecode s1) as [t|] eqn:Hk; [|discriminate].
  injection Hstep as <-.
  apply parked_lookup in Hk as [Hk _].
  unfold loadFile_decoded, loadFile_catch.
  rewrite (set_phase_shape k Settled s1 t Hk).
  assert (E : forall x, x = call_onError e (set_loads (<[k:=with_phase Settled t]> (loads s1)) s1) ->
            calls x = calls s1 ++ (if reports_errors s then [ErrorReported e] else []) /\
            isPlaying x = isPlaying s1 /\ pitchShifterRef x = pitchShifterRef s1 /\
            audioBuffer x = audioBuffer s1 /\ audioFileName x = audioFileName s1 /\
            duration x = duration s1 /\ shifters x = shifters s1 /\
            contexts x = contexts s1).
  { intros x ->. unfold call_onError, reports_errors. simpl. rewrite Ho.
    destruct (options s) as [o|]; [destruct (onError o)|]; simpl;
      rewrite ?app_nil_r; auto 10. }
  destruct (E _ eq_refl) as (E1 & E2 & E3 & E4 & E5 & E6 & E7 & E8).
  cbn [isLoading isPlaying calls pitchShifterRef audioBuffer audioFileName duration
       shifters contexts setIsLoading].
  do 9 (split; [assumption || reflexivity|]).
  split.
  - intros Hall. rewrite E2.
    apply (run_not_playing acts (loadFile_call file s) s1 Hrun Hall).
    apply loadFile_call_not_playing.
  - intros Hall.
    destruct (run_keeps_asset acts _ _ Hrun Hall) as (A1 & A2 & A3 & A4).
    pose proof (loadFile_call_frame file s) as Hf.
    rewrite E3, E4, E5, E6, A1, A2, A3, A4.
    split; [exact (lf_ref _ _ Hf)|]. split; [exact (lf_buffer _ _ Hf)|].
    split; [exact (lf_name _ _ Hf)|]. split; [exact (lf_duration _ _ Hf)|].
    intros Hnone. unfold playbackState.
    cbn [isLoading pitchShifterRef setIsLoading].
    rewrite E3, A1, (lf_ref _ _ Hf), Hnone. reflexivity.
Qed.

Lemma decode_failure_keeps_previous_asset_witness :
  playbackState (loadFile jingle (inl corrupt) (useAudioPlayer some_options)) = Idle /\
  calls (loadFile jingle (inl corrupt) (useAudioPlayer some_options))
  = [ErrorReported corrupt] /\
  isPlaying (loadFile jingle (inl corrupt) (useAudioPlayer some_options)) = false.
Proof.
  assert (Hrun : run [CallLoadFile jingle; ArrayBufferSettled 0 None]
                   (useAudioPlayer some_options)
                 = Some (loadFile_read 0 None
                           (loadFile_call jingle (useAudioPlayer some_options))))
    by (vm_compute; reflexivity).
  assert (Hstep : step (DecodeSettled (length (loads (useAudioPlayer some_options)))
                          (inl corrupt))
                    (loadFile_read 0 None
                       (loadFile_call jingle (useAudioPlayer some_options)))
                  = Some (loadFile jingle (inl corrupt) (useAudioPlayer some_options)))
    by (vm_compute; reflexivity).
  destruct (decode_failure_keeps_previous_asset jingle corrupt
              [ArrayBufferSettled 0 None] _ _ _ Hrun Hstep)
    as (_ & Hcalls & _ & _ & _ & _ & _ & _ & _ & Hplay & Hasset).
  destruct Hasset as (_ & _ & _ & _ & Hidle); [repeat constructor|].
  split; [exact (Hidle eq_refl)|]. split; [exact Hcalls|].
  apply Hplay. repeat constructor.
Defined.

(** C10 (as the code has it).  Take any [loadFile] call in a session the
    hook can reach, and any schedule after it, and let the decode of that
    call succeed.  The settlement leaves the stored speed and pitch as
    they are (they are not reset to 1 and 0), and the new shifter has as
    [tempo] and [pitchSemitones] the speed and pitch that were stored
    when [loadFile] was called.  These are the current values when
    neither setter was called since then. *)
Theorem load_keeps_speed_and_pitch (file : File) (buffer : AudioBuffer)
    (acts : list Action) (s s1 s' : Session) :
  reachable s ->
  run (CallLoadFile file :: acts) s = Some s1 ->
  step (DecodeSettled (length (loads s)) (inr buffer)) s1 = Some s' ->
  speed s' = speed s1 /\ pitch s' = pitch s1 /\
  exists n p, pitchShifterRef s' = Some n /\ shifters s' !! n = Some p /\
    shifters s1 !! n = None /\
    tempo p = speed s /\ pitchSemitones p = pitch s /\
    (Forall (fun a => is_setter a = false) acts ->
       speed s' = speed s /\ pitch s' = pitch s /\
       tempo p = speed s' /\ pitchSemitones p = pitch s').
Proof.
  intros Hreach Hrun Hstep.
  assert (Hwf : well_formed s1)
    by (eapply wf_run; [exact Hrun|apply reachable_well_formed, Hreach]).
  cbn [run step] in Hrun.
  set (k := length (loads s)) in *.
  destruct (loadFile_call_new_task file s) as (t0 & H0 & _ & Hsp0 & Hpi0). fold k in H0.
  destruct (run_keeps_task acts _ _ k t0 Hrun H0) as (t1 & H1 & _ & Hsp1 & Hpi1).
  destruct (parked k AwaitDecode s1) as [t|] eqn:Hk;
    [|unfold step in Hstep; rewrite Hk in Hstep; discriminate].
  assert (Hs' : s' = loadFile_decoded k t (inr buffer) s1)
    by (unfold step in Hstep; rewrite Hk in Hstep; congruence).
  clear Hstep. subst s'.
  apply parked_lookup in Hk as [Hk Hph].
  rewrite H1 in Hk. injection Hk as ->.
  destruct (wf_loads s1 Hwf k t H1 (or_intror Hph)) as [c Hc].
  destruct (loadFile_decoded_ok k t buffer c s1 Hc)
    as (Hfr & Hn & Hsh & _ & _ & _ & _ & _ & _ & _ & _ & _ & Hsp & Hpi & _).
  cbv zeta in Hfr, Hn, Hsh, Hsp, Hpi.
  split; [exact Hsp|]. split; [exact Hpi|].
  eexists _, _. split; [exact Hn|]. split; [exact Hsh|]. split; [exact Hfr|].
  assert (Ht : tempo (installed c t buffer) = speed s) by (simpl; congruence).
  assert (Hp : pitchSemitones (installed c t buffer) = pitch s) by (simpl; congruence).
  split; [exact Ht|]. split; [exact Hp|].
  intros Hall. destruct (run_without_setters acts _ _ Hrun Hall) as [R1 R2].
  pose proof (loadFile_call_frame file s) as Hf.
  rewrite Hsp, Hpi, R1, R2, (lf_speed _ _ Hf), (lf_pitch _ _ Hf), Ht, Hp.
  repeat split; reflexivity.
Qed.

Lemma load_keeps_speed_and_pitch_witness :
  speed (loadFile song (inr two_minutes) (setSpeed 1.5 (useAudioPlayer some_options)))
  = 1.5 /\
  exists n p,
    pitchShifterRef (loadFile song (inr two_minutes)
                       (setSpeed 1.5 (useAudioPlayer some_options))) = Some n /\
    shifters (loadFile song (inr two_minutes)
                (setSpeed 1.5 (useAudioPlayer some_options))) !! n = Some p /\
    tempo p = 1.5.
Proof.
  assert (Hreach : reachable (setSpeed 1.5 (useAudioPlayer some_options)))
    by (exists some_options, [CallSetSpeed 1.5]; reflexivity).
  assert (Hrun : run [CallLoadFile song; ArrayBufferSettled 0 None]
                   (setSpeed 1.5 (useAudioPlayer some_options))
                 = Some (loadFile_read 0 None
                           (loadFile_call song
                              (setSpeed 1.5 (useAudioPlayer some_options)))))
    by (vm_compute; reflexivity).
  assert (Hstep : step (DecodeSettled
                          (length (loads (setSpeed 1.5 (useAudioPlayer some_options))))
                          (inr two_minutes))
                    (loadFile_read 0 None
                       (loadFile_call song (setSpeed 1.5 (useAudioPlayer some_options))))
                  = Some (loadFile song (inr two_minutes)
                            (setSpeed 1.5 (useAudioPlayer some_options))))
    by (vm_compute; reflexivity).
  destruct (load_keeps_speed_and_pitch song two_minutes [ArrayBufferSettled 0 None]
              _ _ _ Hreach Hrun Hstep)
    as (_ & _ & n & p & Hn & Hp & _ & Ht & _ & Hall).
  destruct Hall as (Hs & _); [repeat constructor|].
  split; [rewrite Hs; reflexivity|].
  exists n, p. split; [exact Hn|]. split; [exact Hp|]. rewrite Ht. reflexivity.
Defined.

End AnySchedule.

(** ** What a step of the machine can change *)

Section MachineFrames.

Lemma catch_calls k e s :
  options (loadFile_catch k e s) = options s /\
  (calls (loadFile_catch k e s) = calls s \/
   calls (loadFile_catch k e s) = calls s ++ [ErrorReported e]) /\
  (options s = None -> calls (loadFile_catch k e s) = calls s).
Proof.
  unfold loadFile_catch. destruct (set_phase_loads k Settled s) as [l ->].
  unfold call_onError. simpl.
  destruct (options s) as [o|] eqn:Ho; [destruct (onError o)|];
    simpl; rewrite ?Ho; (split; [reflexivity|split; [auto|]]); (discriminate || auto).
Qed.

Lemma catch_asset k e s :
  pitchShifterRef (loadFile_catch k e s) = pitchShifterRef s /\
  audioBuffer (loadFile_catch k e s) = audioBuffer s /\
  audioFileName (loadFile_catch k e s) = audioFileName s /\
  duration (loadFile_catch k e s) = duration s.
Proof.
  unfold loadFile_catch. destruct (set_phase_loads k Settled s) as [l ->].
  unfold call_onError. simpl. repeat case_match; simpl; auto.
Qed.

(** What a [catch] adds to the log, for the action that led to it. *)
Lemma catch_reports (a : Action) k e s x :
  (a = CloseSettled k /\ e = InvalidStateError) \/
  (exists failure, a = ArrayBufferSettled k failure) \/
  (exists result, a = DecodeSettled k result) ->
  options x = options s -> calls x = calls s ->
  let y := loadFile_catch k e x in
  options y = options s /\
  (calls y = calls s \/
   (exists n ev, a = PlayRaised n ev /\ 99.9 <= ev_percentagePlayed ev /\
      calls y = calls s ++ [PlaybackEnd]) \/
   (exists e0 k0, calls y = calls s ++ [ErrorReported e0] /\
      ((a = CloseSettled k0 /\ e0 = InvalidStateError) \/
       (exists failure, a = ArrayBufferSettled k0 failure) \/
       (exists result, a = DecodeSettled k0 result)))) /\
  (options s = None -> calls y = calls s).
Proof.
  intros Ha Ex1 Ex2 y. subst y.
  destruct (catch_calls k e x) as (Ho & Hc & Hn). rewrite Ex1, Ex2 in *.
  split; [exact Ho|split; [|exact Hn]].
  destruct Hc as [Hc|Hc]; [left; exact Hc|].
  right. right. exists e, k. auto.
Qed.

(** X7.  A step of the machine never changes the options, and changes
    the log of callbacks at most by appending one call: [onPlaybackEnd]
    only on a ['play'] event at or past 99.9 percent, [onError] only when
    an [await] of a load settles: a [close()] that is rejected (with
    [InvalidStateError]), the read, or the decode.  A hook created
    without options never logs a call. *)
Theorem callbacks_append_only (a : Action) (s s' : Session) :
  step a s = Some s' ->
  options s' = options s /\
  (calls s' = calls s \/
   (exists n ev, a = PlayRaised n ev /\ 99.9 <= ev_percentagePlayed ev /\
      calls s' = calls s ++ [PlaybackEnd]) \/
   (exists e k, calls s' = calls s ++ [ErrorReported e] /\
      ((a = CloseSettled k /\ e = InvalidStateError) \/
       (exists failure, a = ArrayBufferSettled k failure) \/
       (exists result, a = DecodeSettled k result)))) /\
  (options s = None -> calls s' = calls s).
Proof.
  intros H.
  destruct a as [file| | | |t|v|v|k|k failure|k result|n ev]; simpl in H.
  - injection H as <-. destruct (loadFile_call_frame file s). auto.
  - injection H as <-. split; [frame_ops|split; [left; frame_ops|intros _; frame_ops]].
  - injection H as <-. split; [frame_ops|split; [left; frame_ops|intros _; frame_ops]].
  - injection H as <-. split; [frame_ops|split; [left; frame_ops|intros _; frame_ops]].
  - injection H as <-. split; [frame_ops|split; [left; frame_ops|intros _; frame_ops]].
  - injection H as <-. split; [frame_ops|split; [left; frame_ops|intros _; frame_ops]].
  - injection H as <-. split; [frame_ops|split; [left; frame_ops|intros _; frame_ops]].
  - destruct (parked k AwaitClose s).
    + injection H as <-. destruct (loadFile_open_frame k s). auto.
    + destruct (parked k AwaitRejectedClose s); [|discriminate]. injection H as <-.
      apply (catch_reports (CloseSettled k)); auto.
  - destruct (parked k AwaitArrayBuffer s); [|discriminate]. injection H as <-.
    unfold loadFile_read.
    destruct failure as [e|];
      [apply (catch_reports (ArrayBufferSettled k (Some e))); eauto|].
    destruct (audioContext s);
      [|apply (catch_reports (ArrayBufferSettled k None)); eauto].
    destruct (set_phase_frame k AwaitDecode s). auto.
  - destruct (parked k AwaitDecode s) as [t|]; [|discriminate]. injection H as <-.
    destruct result as [e|buffer];
      [apply (catch_reports (DecodeSettled k (inl e))); eauto|].
    destruct (audioContext s) as [c|] eqn:Hctx.
    + destruct (loadFile_decoded_ok k t buffer c s Hctx)
        as (_ & _ & _ & _ & _ & _ & _ & _ & _ & _ & _ & _ & _ & _ & Hcalls).
      cbv zeta in Hcalls.
      assert (Ho : options (loadFile_decoded k t (inr buffer) s) = options s).
      { unfold loadFile_decoded. simpl. rewrite Hctx.
        match goal with |- context [set_phase k Settled ?x] =>
          destruct (set_phase_loads k Settled x) as [l ->] end. reflexivity. }
      auto.
    + unfold loadFile_decoded. simpl. rewrite Hctx.
      apply (catch_reports (DecodeSettled k (inr buffer))); eauto.
  - destruct (rendering n s); [|discriminate].
    destruct (shifters s !! n) as [p|]; [|discriminate]. injection H as <-.
    destruct (listening p); [|auto].
    unfold play_listener, JS.ge.
    destruct (Qle_bool 99.9 (ev_percentagePlayed ev)) eqn:E; [|auto].
    apply Qle_bool_iff in E.
    destruct (stop_effect (setCurrentTime (timePlayed ev) s)) as (_ & _ & Hc & Ho & _).
    set (x := stop (setCurrentTime (timePlayed ev) s)) in *.
    change (calls x = calls s) in Hc. change (options x = options s) in Ho.
    unfold call_onPlaybackEnd. rewrite Ho.
    destruct (options s) as [o|] eqn:Hopt; [destruct (onPlaybackEnd o)|];
      cbn [calls options set_calls]; rewrite ?Hc, ?Ho, ?Hopt;
      (split; [reflexivity|split; [|discriminate || auto]]); [|auto..].
    right. left. eauto.
Qed.

Lemma callbacks_append_only_witness :
  exists e k,
    calls (loadFile_catch 0 corrupt (loadFile_read 0 None (loadFile_call song (useAudioPlayer some_options))))
    = calls (loadFile_read 0 None (loadFile_call song (useAudioPlayer some_options)))
      ++ [ErrorReported e] /\
    exists result, DecodeSettled 0 (inl corrupt : Error + AudioBuffer) = DecodeSettled k result.
Proof.
  assert (Hs : step (DecodeSettled 0 (inl corrupt))
                 (loadFile_read 0 None (loadFile_call song (useAudioPlayer some_options)))
               = Some (loadFile_catch 0 corrupt
                         (loadFile_read 0 None
                            (loadFile_call song (useAudioPlayer some_options)))))
    by (vm_compute; reflexivity).
  destruct (callbacks_append_only _ _ _ Hs) as (_ & [Hc|[Hc|Hc]] & _).
  - exfalso. vm_compute in Hc. discriminate Hc.
  - exfalso. destruct Hc as (n & ev & Ha & _). discriminate Ha.
  - destruct Hc as (e & k & Hc & [[Ha _]|[[f Ha]|Ha]]); [discriminate Ha|discriminate Ha|].
    exists e, k. split; [exact Hc|exact Ha].
Defined.

(** A [loadFile] called while the one before it still waits for
    [close()]: its own [close()] is rejected, it calls [onError] and
    clears [isLoading], while the load before it is still in flight. *)
Example second_close_is_rejected :
  exists s,
    run (first_load ++ [CallLoadFile jingle; CallLoadFile song; CloseSettled 2])
      (useAudioPlayer some_options) = Some s /\
    calls s = [ErrorReported InvalidStateError] /\
    isLoading s = false /\ in_flight 1 s.
Proof.
  eexists. split; [vm_compute; reflexivity|].
  split; [reflexivity|]. split; [reflexivity|].
  eexists. split; [reflexivity|]. discriminate.
Qed.

(** X8.  The shifter ref, the buffer ref, the file name and the
    duration change only when a decode settles with a buffer: every other
    step of the machine leaves all four as they were. *)
Theorem asset_changes_only_on_decode (a : Action) (s s' : Session) :
  step a s = Some s' ->
  (forall k buffer, a <> DecodeSettled k (inr buffer)) ->
  pitchShifterRef s' = pitchShifterRef s /\
  audioBuffer s' = audioBuffer s /\
  audioFileName s' = audioFileName s /\
  duration s' = duration s.
Proof.
  intros H Hd.
  destruct a as [file| | | |t|v|v|k|k failure|k result|n ev]; simpl in H.
  - injection H as <-. destruct (loadFile_call_frame file s). auto.
  - injection H as <-. split; [|split; [|split]]; frame_ops.
  - injection H as <-. split; [|split; [|split]]; frame_ops.
  - injection H as <-. split; [|split; [|split]]; frame_ops.
  - injection H as <-. split; [|split; [|split]]; frame_ops.
  - injection H as <-. split; [|split; [|split]]; frame_ops.
  - injection H as <-. split; [|split; [|split]]; frame_ops.
  - destruct (parked k AwaitClose s).
    + injection H as <-. destruct (loadFile_open_frame k s). auto.
    + destruct (parked k AwaitRejectedClose s); [|discriminate].
      injection H as <-. apply catch_asset.
  - destruct (parked k AwaitArrayBuffer s); [|discriminate]. injection H as <-.
    unfold loadFile_read. destruct failure; [apply catch_asset|].
    destruct (audioContext s); [|apply catch_asset].
    destruct (set_phase_frame k AwaitDecode s). auto.
  - destruct (parked k AwaitDecode s) as [t|]; [|discriminate]. injection H as <-.
    destruct result as [e|buffer]; [apply catch_asset|].
    exfalso. exact (Hd k buffer eq_refl).
  - destruct (rendering n s); [|discriminate].
    destruct (shifters s !! n) as [p|]; [|discriminate]. injection H as <-.
    destruct (listening p); [|auto]. split; [|split; [|split]]; frame_ops.
Qed.

Lemma asset_changes_only_on_decode_witness :
  pitchShifterRef (stop (play loaded_120)) = pitchShifterRef (play loaded_120) /\
  audioFileName (stop (play loaded_120)) = audioFileName (play loaded_120).
Proof.
  assert (Hd : forall k buffer, CallStop <> DecodeSettled k (inr buffer))
    by (intros k buffer; discriminate).
  destruct (asset_changes_only_on_decode CallStop (play loaded_120)
              (stop (play loaded_120)) eq_refl Hd) as (H1 & _ & H2 & _).
  split; [exact H1|exact H2].
Defined.

(** X9.  Over any run of the machine that holds no call of [setSpeed]
    and no call of [setPitch], whatever else happens (loads that succeed
    or fail, transport calls, ['play'] events), speed and pitch at the
    end are those at the start. *)
Theorem parameters_change_only_by_setters (acts : list Action) (s s' : Session) :
  run acts s = Some s' ->
  Forall (fun a => is_setter a = false) acts ->
  speed s' = speed s /\ pitch s' = pitch s.
Proof.
  revert s. induction acts as [|a acts IH]; intros s H Hall.
  - injection H as <-. auto.
  - simpl in H. destruct (step a s) as [s1|] eqn:E; [|discriminate].
    apply Forall_cons in Hall as [Ha Hall].
    destruct (IH s1 H Hall) as [-> ->].
    apply (only_setters_change_parameters a s s1 E);
      intros v ->; discriminate Ha.
Qed.

Lemma parameters_change_only_by_setters_witness :
  speed loaded_120 = 1 /\ pitch loaded_120 = 0.
Proof.
  assert (Hr : run first_load (useAudioPlayer some_options) = Some loaded_120)
    by (vm_compute; reflexivity).
  assert (Ha : Forall (fun a => is_setter a = false) first_load)
    by (repeat constructor).
  exact (parameters_change_only_by_setters first_load _ _ Hr Ha).
Defined.

End MachineFrames.

(** ** Shifters of earlier loads *)

Section OnlyCurrentRenders.

Lemma us_initial opts : ui_shifters (useAudioPlayer opts).
Proof. split; simpl; intros; rewrite ?lookup_nil, ?lookup_empty in *; discriminate. Qed.

Lemma us_frame s s' :
  pitchShifterRef s' = pitchShifterRef s -> audioContext s' = audioContext s ->
  loads s' = loads s ->
  (forall n, ps_context <$> shifters s' !! n = ps_context <$> shifters s !! n) ->
  ui_shifters s -> ui_shifters s'.
Proof.
  intros E1 E2 E3 E4 [H1 H2].
  assert (Hback : forall n p, shifters s' !! n = Some p ->
            exists q, shifters s !! n = Some q /\ ps_context q = ps_context p).
  { intros n p Hp. pose proof (E4 n) as E. rewrite Hp in E. simpl in E.
    destruct (shifters s !! n) as [q|]; [|discriminate]. injection E as E. eauto. }
  split.
  - rewrite E1, E2. intros n p Hp. destruct (Hback n p Hp) as (q & Hq & <-). eauto.
  - rewrite E2, E3. intros k t Hk Hph n p Hp.
    destruct (Hback n p Hp) as (q & Hq & <-). eauto.
Qed.

Lemma us_quiet s s' : quiet s s' -> ui_shifters s -> ui_shifters s'.
Proof.
  intros Hq. apply us_frame.
  - exact (q_ref _ _ Hq).
  - exact (q_context _ _ Hq).
  - exact (q_loads _ _ Hq).
  - intros n. exact (proj2 (proj2 (q_params _ _ Hq n))).
Qed.

Lemma us_setSpeed v s : ui_shifters s -> ui_shifters (setSpeed v s).
Proof.
  apply us_frame; try (frame_ops; fail).
  intros n. unfold setSpeed. simpl. repeat case_match; simpl; try reflexivity.
  rewrite lookup_alter. case_decide; [subst|reflexivity].
  destruct (shifters s !! n); reflexivity.
Qed.

Lemma us_setPitch v s : ui_shifters s -> ui_shifters (setPitch v s).
Proof.
  apply us_frame; try (frame_ops; fail).
  intros n. unfold setPitch. simpl. repeat case_match; simpl; try reflexivity.
  rewrite lookup_alter. case_decide; [subst|reflexivity].
  destruct (shifters s !! n); reflexivity.
Qed.

(** Moving a load between phases past the opening of its context, or
    settling it, starts no new wait. *)
Lemma us_set_phase k ph s :
  (forall t, loads s !! k = Some t ->
     ph = Settled \/ ph = AwaitClose \/
     load_phase t = AwaitArrayBuffer \/ load_phase t = AwaitDecode \/
     ph = AwaitRejectedClose) ->
  ui_shifters s -> ui_shifters (set_phase k ph s).
Proof.
  intros Hk [H1 H2]. unfold set_phase.
  destruct (loads s !! k) as [t|] eqn:Ht; [|split; assumption].
  assert (Hlt : (k < length (loads s))%nat) by (eapply lookup_lt_Some; exact Ht).
  split; simpl; [exact H1|].
  intros j t'. destruct (decide (k = j)) as [->|Hne].
  - rewrite list_lookup_insert_eq by exact Hlt. intros [= <-] Hp. simpl in Hp.
    destruct (Hk t eq_refl) as [->|[->|[Hold|[Hold| ->]]]];
      [destruct Hp; discriminate|destruct Hp; discriminate| | |
       destruct Hp; discriminate].
    + exact (H2 j t Ht (or_introl Hold)).
    + exact (H2 j t Ht (or_intror Hold)).
  - rewrite list_lookup_insert_ne by done. apply H2.
Qed.

Lemma us_catch k e s : ui_shifters s -> ui_shifters (loadFile_catch k e s).
Proof.
  intros H. unfold loadFile_catch.
  apply (us_frame (set_phase k Settled s)).
  1-4: unfold call_onError; simpl; repeat case_match; reflexivity.
  apply us_set_phase; auto.
Qed.

(** A new context is the context of no shifter. *)
Lemma us_open k s :
  well_formed s -> ui_shifters s -> ui_shifters (loadFile_open k s).
Proof.
  intros Hwf [H1 H2]. unfold loadFile_open.
  destruct (set_phase_loads k AwaitArrayBuffer
              (set_audioContext (Some (fresh (dom (contexts s))))
                 (set_contexts (<[fresh (dom (contexts s)) := running]> (contexts s)) s)))
    as [l ->].
  assert (Hfresh : forall n p, shifters s !! n = Some p ->
            Some (fresh (dom (contexts s))) <> Some (ps_context p)).
  { intros n p Hp [= E]. destruct (wf_shifters s Hwf n p Hp) as (_ & Hdom & _).
    apply elem_of_dom in Hdom. rewrite <- E in Hdom. exact (is_fresh _ Hdom). }
  split; simpl.
  - intros n p Hp E. exfalso. exact (Hfresh n p Hp E).
  - intros _ _ _ _ n p Hp. exact (Hfresh n p Hp).
Qed.

Lemma us_loadFile_call file s :
  isLoading s = false -> well_formed s -> ui_inv s -> ui_shifters s ->
  ui_shifters (loadFile_call file s).
Proof.
  intros Hl Hwf Hu H. unfold loadFile_call.
  set (k := length (loads s)).
  set (t := {| load_file := file; load_speed := speed s; load_pitch := pitch s;
               load_phase := AwaitClose |}).
  set (s1 := setIsLoading true (set_loads (loads s ++ [t]) s)).
  assert (H1 : ui_shifters s1 /\ well_formed s1).
  { split.
    - destruct H as [G1 G2]. split; simpl; [exact G1|].
      intros j t' Hj Hp. exfalso.
      apply lookup_app_Some in Hj as [Hj|[Hge Hj]].
      + pose proof (ui_idle s Hu Hl j t' Hj) as E. rewrite E in Hp.
        destruct Hp; discriminate.
      + destruct (j - length (loads s))%nat; simpl in Hj;
          [|rewrite lookup_nil in Hj; discriminate].
        injection Hj as <-. simpl in Hp. destruct Hp; discriminate.
    - apply wf_setIsLoading. destruct Hwf as [W1 W2 W3 W4 W5 W6].
      split; simpl; auto. intros j t' Hj Hp.
      apply lookup_app_Some in Hj as [Hj|[_ Hj]]; [eauto|].
      destruct (j - length (loads s))%nat; simpl in Hj;
        [|rewrite lookup_nil in Hj; discriminate].
      injection Hj as <-. simpl in Hp. destruct Hp; discriminate. }
  destruct H1 as [H1 Hwf1].
  set (s2 := if isPlaying s then stop s1 else s1).
  assert (Hq : quiet s1 s2)
    by (subst s2; destruct (isPlaying s); [apply quiet_stop|apply quiet_refl]).
  assert (H2 : ui_shifters s2) by exact (us_quiet _ _ Hq H1).
  assert (Hwf2 : well_formed s2)
    by (subst s2; destruct (isPlaying s); [apply wf_stop|]; exact Hwf1).
  destruct (audioContext s2) as [c|].
  - case_decide.
    { apply us_set_phase; [|exact H2]. intros t' _. do 4 right. reflexivity. }
    destruct (transition_frame c closed s2) as (E1 & E2 & E3 & _).
    destruct (transition_rest c closed s2) as [cs E].
    apply (us_frame s2); [exact E2|exact E3|unfold close; rewrite E; reflexivity| |exact H2].
    intros n. unfold close. rewrite E1. reflexivity.
  - apply us_open; assumption.
Qed.

Lemma us_read k t failure s :
  parked k AwaitArrayBuffer s = Some t -> ui_shifters s ->
  ui_shifters (loadFile_read k failure s).
Proof.
  intros Hk H. apply parked_lookup in Hk as [Hk Hp]. unfold loadFile_read.
  destruct failure; [apply us_catch, H|].
  destruct (audioContext s); [|apply us_catch, H].
  apply us_set_phase; [|exact H]. intros t' Ht'. right. right. left. congruence.
Qed.

Lemma us_decoded k t result s :
  parked k AwaitDecode s = Some t -> ui_inv s -> ui_shifters s ->
  ui_shifters (loadFile_decoded k t result s).
Proof.
  intros Hk Hu H. apply parked_lookup in Hk as [Hk Hp].
  destruct result as [e|buffer]; [apply us_catch, H|].
  unfold loadFile_decoded. simpl.
  destruct (audioContext s) as [c|] eqn:Hc.
  - assert (Hns : load_phase t <> Settled) by (rewrite Hp; discriminate).
    destruct (ui_inv_in_flight s k t Hu Hk Hns) as [_ Hrest].
    assert (Hlt : (k < length (loads s))%nat) by (eapply lookup_lt_Some; exact Hk).
    match goal with |- context [set_phase k Settled ?x] =>
      rewrite (set_phase_shape k Settled x t Hk) end.
    destruct H as [H1 H2].
    assert (Hold : forall n p, shifters s !! n = Some p -> Some c <> Some (ps_context p)).
    { intros n p Hn. rewrite <- Hc. exact (H2 k t Hk (or_intror Hp) n p Hn). }
    split; simpl.
    + intros m p. destruct (decide (fresh (dom (shifters s)) = m)) as [<-|Hne];
        [reflexivity|].
      rewrite !lookup_alter_ne, lookup_insert_ne by done.
      intros Hm E. rewrite Hc in E. exfalso. exact (Hold m p Hm E).
    + intros j t' Hj Hph. exfalso. destruct (decide (k = j)) as [->|Hne].
      * rewrite list_lookup_insert_eq in Hj by exact Hlt. injection Hj as <-.
        simpl in Hph. destruct Hph; discriminate.
      * rewrite list_lookup_insert_ne in Hj by done.
        assert (Hne' : j <> k) by congruence.
        pose proof (Hrest j t' Hj Hne') as E. rewrite E in Hph.
        destruct Hph; discriminate.
  - apply us_catch. apply (us_frame s); auto.
Qed.

Lemma ui_all_step a s s' :
  ui_enabled a s = true -> step a s = Some s' ->
  well_formed s /\ ui_inv s /\ ui_shifters s ->
  well_formed s' /\ ui_inv s' /\ ui_shifters s'.
Proof.
  intros Hg Hs (Hwf & Hu & H).
  split; [eapply wf_step; eassumption|].
  split; [eapply ui_inv_step; eassumption|].
  destruct a; simpl in Hs, Hg.
  - injection Hs as <-. apply us_loadFile_call; try assumption.
    destruct (isLoading s); [discriminate|reflexivity].
  - injection Hs as <-. exact (us_quiet _ _ (quiet_play s) H).
  - injection Hs as <-. exact (us_quiet _ _ (quiet_pause s) H).
  - injection Hs as <-. exact (us_quiet _ _ (quiet_stop s) H).
  - injection Hs as <-. exact (us_quiet _ _ (quiet_seek _ s) H).
  - injection Hs as <-. apply us_setSpeed, H.
  - injection Hs as <-. apply us_setPitch, H.
  - destruct (parked k AwaitClose s) eqn:Hk.
    + injection Hs as <-. apply us_open; assumption.
    + destruct (parked k AwaitRejectedClose s); [|discriminate].
      injection Hs as <-. apply us_catch, H.
  - destruct (parked k AwaitArrayBuffer s) eqn:Hk; [|discriminate]. injection Hs as <-.
    eapply us_read; eassumption.
  - destruct (parked k AwaitDecode s) eqn:Hk; [|discriminate]. injection Hs as <-.
    eapply us_decoded; eassumption.
  - destruct (rendering n s); [|discriminate].
    destruct (shifters s !! n) as [p|]; [|discriminate]. injection Hs as <-.
    destruct (listening p); [|exact H].
    exact (us_quiet _ _ (quiet_play_listener _ s) H).
Qed.

Lemma ui_all_run acts s s' :
  guarded_run ui_enabled acts s = Some s' ->
  well_formed s /\ ui_inv s /\ ui_shifters s ->
  well_formed s' /\ ui_inv s' /\ ui_shifters s'.
Proof.
  revert s. induction acts as [|a acts IH]; intros s Hr H; simpl in Hr.
  - injection Hr as <-. exact H.
  - destruct (ui_enabled a s) eqn:Hg; [|discriminate].
    destruct (step a s) as [s1|] eqn:Hs; [|discriminate].
    eapply IH; [exact Hr|]. eapply ui_all_step; eassumption.
Qed.

Lemma ui_reachable_all s :
  ui_reachable s -> well_formed s /\ ui_inv s /\ ui_shifters s.
Proof.
  intros (opts & acts & H). eapply ui_all_run; [exact H|].
  auto using wf_initial, ui_inv_initial, us_initial.
Qed.

End OnlyCurrentRenders.

(** ** What holds in every session *)

Section Everywhere.

(** X10.  In every session the hook can reach, [isPlaying] implies a
    shifter in the shifter ref, present in the store with the ['play']
    listener registered, and a context in the context ref. *)
Theorem playing_needs_asset (s : Session) :
  reachable s -> isPlaying s = true ->
  exists n c p, pitchShifterRef s = Some n /\ audioContext s = Some c /\
    shifters s !! n = Some p /\ listening p = true /\
    is_Some (contexts s !! c).
Proof.
  intros Hr Hp. pose proof (reachable_well_formed s Hr) as H.
  destruct (wf_playing s H Hp) as [[n Hn] [c Hc]].
  destruct (wf_asset s H n Hn) as (p & Hsh & _).
  destruct (wf_shifters s H n p Hsh) as (_ & _ & Hl).
  exists n, c, p. repeat split; auto. exact (wf_context s H c Hc).
Qed.

Lemma first_load_reaches : run first_load (useAudioPlayer some_options) = Some loaded_120.
Proof. vm_compute. reflexivity. Qed.

Lemma playing_needs_asset_witness :
  exists n c p, pitchShifterRef (play loaded_120) = Some n /\
    audioContext (play loaded_120) = Some c /\
    shifters (play loaded_120) !! n = Some p /\ listening p = true /\
    is_Some (contexts (play loaded_120) !! c).
Proof.
  apply playing_needs_asset.
  - exists some_options, (first_load ++ [CallPlay]). vm_compute. reflexivity.
  - reflexivity.
Defined.

(** X11.  In every session the hook can reach, the file name is set
    exactly when the shifter ref is; when it is, the buffer ref holds
    the buffer of that shifter and [duration] is the duration of that
    buffer; when it is not, there is no buffer, the duration is 0 and
    nothing plays. *)
Theorem asset_fields_agree (s : Session) :
  reachable s ->
  (is_Some (audioFileName s) <-> is_Some (pitchShifterRef s)) /\
  (forall n, pitchShifterRef s = Some n ->
     exists p, shifters s !! n = Some p /\
       audioBuffer s = Some (ps_buffer p) /\
       duration s = buf_duration (ps_buffer p)) /\
  (pitchShifterRef s = None ->
     audioBuffer s = None /\ duration s = 0 /\ isPlaying s = false).
Proof.
  intros Hr. pose proof (reachable_well_formed s Hr) as H.
  split; [|split].
  - destruct (pitchShifterRef s) as [n|] eqn:Hn.
    + destruct (wf_asset s H n Hn) as (p & _ & _ & _ & Hname & _). split; eauto.
    + destruct (wf_empty s H Hn) as (_ & -> & _). split; intros [x Hx]; discriminate.
  - intros n Hn. destruct (wf_asset s H n Hn) as (p & ? & ? & ? & _). eauto.
  - intros Hn. destruct (wf_empty s H Hn) as (? & _ & ? & ?). auto.
Qed.

Lemma asset_fields_agree_witness :
  is_Some (audioFileName loaded_120) <-> is_Some (pitchShifterRef loaded_120).
Proof.
  apply asset_fields_agree. exists some_options, first_load. exact first_load_reaches.
Defined.

(** X12.  In every session the hook can reach, every shifter is either
    disconnected or connected to the destination of the context it was
    built on and to nothing else; that context is in the store, and the
    shifter carries the ['play'] listener. *)
Theorem connected_to_own_destination_only (s : Session) (n : nat) (p : PitchShifter) :
  reachable s -> shifters s !! n = Some p ->
  (connections p = ∅ \/ connections p = {[ps_context p]}) /\
  is_Some (contexts s !! ps_context p) /\
  listening p = true.
Proof.
  intros Hr Hp. pose proof (reachable_well_formed s Hr) as H.
  destruct (wf_shifters s H n p Hp) as (Hc & Hd & Hl).
  split; [|auto].
  destruct (decide (ps_context p ∈ connections p)) as [Hin|Hout].
  - right. apply set_eq. intros x. split; [apply Hc|].
    intros Hx. apply elem_of_singleton in Hx. subst x. exact Hin.
  - left. apply set_eq. intros x. split; [|intros Hx; exfalso; set_solver].
    intros Hx. pose proof (Hc x Hx) as Hx'. apply elem_of_singleton in Hx'. subst x.
    contradiction.
Qed.

Lemma connected_to_own_destination_only_witness :
  (connections (installed 0 {| load_file := song; load_speed := 1; load_pitch := 0;
                               load_phase := AwaitDecode |} two_minutes) = ∅ \/
   connections (installed 0 {| load_file := song; load_speed := 1; load_pitch := 0;
                               load_phase := AwaitDecode |} two_minutes) = {[0%nat]}).
Proof.
  apply (connected_to_own_destination_only loaded_120 0).
  - exists some_options, first_load. exact first_load_reaches.
  - vm_compute. reflexivity.
Defined.

(** X13.  In every session the hook can reach, while no file name is
    set (the callers then show no controls) nothing plays, the duration
    is 0, [play] and [pause] change nothing, [seek] stores the time only,
    and [stop] touches no shifter. *)
Theorem controls_before_first_asset (s : Session) (t : Q) :
  reachable s -> audioFileName s = None ->
  play s = s /\ pause s = s /\
  seek t s = setCurrentTime t s /\
  shifters (stop s) = shifters s /\
  isPlaying (stop s) = false /\ currentTime (stop s) = 0 /\
  isPlaying s = false /\ duration s = 0.
Proof.
  intros Hr Hname. pose proof (reachable_well_formed s Hr) as H.
  assert (Hn : pitchShifterRef s = None).
  { destruct (pitchShifterRef s) as [n|] eqn:Hn; [|reflexivity].
    destruct (wf_asset s H n Hn) as (p & _ & _ & _ & Hsome & _).
    rewrite Hname in Hsome. destruct Hsome as [x Hx]. discriminate Hx. }
  destruct (controls_no_ref s t Hn) as (H1 & H2 & H3 & H4 & H5 & H6).
  destruct (wf_empty s H Hn) as (_ & _ & Hd & Hp).
  auto 10.
Qed.

Lemma controls_before_first_asset_witness :
  play (loadFile song (inl corrupt) (useAudioPlayer some_options))
  = loadFile song (inl corrupt) (useAudioPlayer some_options).
Proof.
  assert (Hr : reachable (loadFile song (inl corrupt) (useAudioPlayer some_options))).
  { exists some_options,
      [CallLoadFile song; ArrayBufferSettled 0 None; DecodeSettled 0 (inl corrupt)].
    vm_compute. reflexivity. }
  exact (proj1 (controls_before_first_asset _ 5 Hr eq_refl)).
Defined.

End Everywhere.

(** ** What holds behind the file input *)

Section BehindTheInputTheorems.

Lemma first_load_is_gated :
  guarded_run ui_calm first_load (useAudioPlayer some_options) = Some loaded_120.
Proof. vm_compute. reflexivity. Qed.

Lemma ui_calm_reachable s : calm_reachable s -> ui_reachable s.
Proof.
  intros (opts & acts & H). exists opts, acts.
  revert H. generalize (useAudioPlayer opts). induction acts as [|a acts IH]; intros x; simpl; [auto|].
  destruct (ui_calm a x) eqn:E; [|discriminate].
  rewrite (calm_is_enabled a x E). destruct (step a x); [apply IH|discriminate].
Qed.

Lemma ui_reachable_reachable s : ui_reachable s -> reachable s.
Proof.
  intros (opts & acts & H). exists opts, acts. eapply guarded_run_is_run. exact H.
Qed.

(** X14.  Behind the file input of [App.tsx] and [MinimalPlayer.tsx],
    which is disabled while [isLoading] is set: [isLoading] is set
    exactly when a load is in flight, and at most one load is in flight
    at a time. *)
Theorem loads_do_not_overlap (s : Session) :
  ui_reachable s ->
  (isLoading s = true <-> exists k, in_flight k s) /\
  (forall j k, in_flight j s -> in_flight k s -> j = k).
Proof.
  intros Hr. pose proof (ui_reachable_inv s Hr) as H. split; [split|].
  - intros Hl. destruct (ui_busy s H Hl) as (k & Hk & _). eauto.
  - intros (k & t & Hk & Hp). exact (proj1 (ui_inv_in_flight s k t H Hk Hp)).
  - intros j k (tj & Hj & Hpj) (tk & Hk & Hpk).
    destruct (decide (j = k)) as [|Hne]; [assumption|].
    exfalso. apply Hpj.
    exact (proj2 (ui_inv_in_flight s k tk H Hk Hpk) j tj Hj Hne).
Qed.

Lemma loads_do_not_overlap_witness :
  isLoading (loadFile_call jingle loaded_120) = true <->
  exists k, in_flight k (loadFile_call jingle loaded_120).
Proof.
  apply loads_do_not_overlap.
  exists some_options, (first_load ++ [CallLoadFile jingle]). vm_compute. reflexivity.
Defined.

(** X15.  Behind the file input, every context that is not closed is
    the one in the context ref: the hook holds at most one open
    [AudioContext]. *)
Theorem one_open_context (s : Session) (c : nat) (st : AudioContextState) :
  ui_reachable s -> contexts s !! c = Some st -> st <> closed ->
  audioContext s = Some c.
Proof. intros Hr. exact (ui_ctx s (ui_reachable_inv s Hr) c st). Qed.

Lemma one_open_context_witness :
  audioContext (loadFile jingle (inr ten_seconds) loaded_120) = Some 1%nat.
Proof.
  apply (one_open_context _ 1%nat running).
  - exists some_options,
      (first_load ++ [CallLoadFile jingle; CloseSettled 1; ArrayBufferSettled 1 None;
                      DecodeSettled 1 (inr ten_seconds)]).
    vm_compute. reflexivity.
  - vm_compute. reflexivity.
  - discriminate.
Defined.

(** X16.  Behind the file input, only the shifter in the shifter ref can
    render, and a ['play'] event can only come from it: shifters of
    earlier loads are silent. *)
Theorem only_current_shifter_renders (s : Session) (n : nat) :
  ui_reachable s ->
  (rendering n s = true -> pitchShifterRef s = Some n) /\
  (forall ev s', step (PlayRaised n ev) s = Some s' -> pitchShifterRef s = Some n).
Proof.
  intros Hr. destruct (ui_reachable_all s Hr) as (Hwf & Hu & Hs).
  assert (H : rendering n s = true -> pitchShifterRef s = Some n).
  { unfold rendering. destruct (shifters s !! n) as [p|] eqn:Hp; [|discriminate].
    intros Hb. apply andb_true_iff in Hb as [_ Hrun].
    apply bool_decide_eq_true in Hrun.
    apply (us_current s Hs n p Hp).
    apply (ui_ctx s Hu _ running Hrun). discriminate. }
  split; [exact H|].
  intros ev s' Hstep. simpl in Hstep.
  destruct (rendering n s); [auto|discriminate].
Qed.

Lemma only_current_shifter_renders_witness :
  pitchShifterRef (play loaded_120) = Some 0%nat.
Proof.
  apply (only_current_shifter_renders (play loaded_120) 0).
  - exists some_options, (first_load ++ [CallPlay]). vm_compute. reflexivity.
  - vm_compute. reflexivity.
Defined.

(** X17.  Behind the file input, and when the sliders are not moved
    while a file loads, the shifter in the ref runs at the stored speed
    and pitch. *)
Theorem shifter_follows_sliders (s : Session) (n : nat) (p : PitchShifter) :
  calm_reachable s ->
  pitchShifterRef s = Some n -> shifters s !! n = Some p ->
  tempo p == speed s /\ pitchSemitones p == pitch s.
Proof.
  intros (opts & acts & H) Hn Hp.
  destruct (calm_run acts _ s H) as [_ Hs];
    [split; [apply ui_inv_initial|apply in_sync_initial]|].
  exact (sync_shifter s Hs n p Hn Hp).
Qed.

Lemma shifter_follows_sliders_witness :
  exists p, shifters (setSpeed 1.5 loaded_120) !! 0%nat = Some p /\
    tempo p == 1.5 /\ pitchSemitones p == 0.
Proof.
  eexists. split; [vm_compute; reflexivity|].
  apply (shifter_follows_sliders (setSpeed 1.5 loaded_120) 0).
  - exists some_options, (first_load ++ [CallSetSpeed 1.5]). vm_compute. reflexivity.
  - reflexivity.
  - vm_compute. reflexivity.
Defined.

(** C10 (as stated) fails.  The sliders are not disabled while a file
    loads.  A speed chosen then is stored, but the shifter of that load
    is built with the speed of the render that called [loadFile]: the
    load succeeds, and the [tempo] of its shifter is not the current
    speed. *)
Lemma slider_during_load_is_lost :
  exists s p, run slider_during_load (useAudioPlayer some_options) = Some s /\
    isLoading s = false /\ audioFileName s = Some "song.mp3"%string /\
    pitchShifterRef s = Some 0%nat /\ shifters s !! 0%nat = Some p /\
    speed s = 1.5 /\ tempo p = 1 /\ ~ tempo p == speed s.
Proof.
  eexists _, _. vm_compute. repeat split. discriminate.
Qed.

(** Without the gate of the file input, overlapping loads leave two
    shifters rendering on one context. *)
Example overlapping_loads_both_render :
  exists s, run (overlapping_loads ++ [DecodeSettled 0 (inr two_minutes)])
              (useAudioPlayer some_options) = Some s /\
    rendering 0 s = true /\ rendering 1 s = true /\ pitchShifterRef s = Some 1%nat.
Proof. eexists. vm_compute. repeat split. Qed.

End BehindTheInputTheorems.

(** ** More on [loadFile] *)

Section MoreLoading.

(** X18.  The synchronous part of [loadFile], when a context is in the
    ref: [isLoading] is set, nothing plays, the new load is in flight,
    the old context is closed, so that no shifter built on it renders or
    raises a ['play'] event; the shifter ref, the file name and the
    duration are still those of the old asset. *)
Theorem load_begins_by_closing (file : File) (s : Session) (c : nat) :
  audioContext s = Some c ->
  let s' := loadFile_call file s in
  isLoading s' = true /\ isPlaying s' = false /\
  in_flight (length (loads s)) s' /\
  audioContext s' = Some c /\
  (is_Some (contexts s !! c) -> contexts s' !! c = Some closed) /\
  (forall n p, shifters s !! n = Some p -> ps_context p = c ->
     rendering n s' = false /\ forall ev, step (PlayRaised n ev) s' = None) /\
  pitchShifterRef s' = pitchShifterRef s /\
  audioFileName s' = audioFileName s /\
  duration s' = duration s.
Proof.
  intros Hc s'.
  pose proof (loadFile_call_frame file s) as Hf.
  pose proof (loadFile_call_not_playing file s) as Hnp.
  assert (Hfl : in_flight (length (loads s)) (loadFile_call file s)).
  { pose proof (loadFile_call_loads file s) as Hpark. cbv zeta in Hpark.
    rewrite Hc in Hpark.
    destruct (decide (contexts s !! c = Some closed));
      apply parked_lookup in Hpark as [Hk Hp];
      (eexists; split; [exact Hk|rewrite Hp; discriminate]). }
  subst s'. unfold loadFile_call in *.
  set (k := length (loads s)) in *.
  set (t := {| load_file := file; load_speed := speed s; load_pitch := pitch s;
               load_phase := AwaitClose |}) in *.
  set (s1 := setIsLoading true (set_loads (loads s ++ [t]) s)) in *.
  set (s2 := if isPlaying s then stop s1 else s1) in *.
  assert (Hq : quiet s1 s2)
    by (subst s2; destruct (isPlaying s); [apply quiet_stop|apply quiet_refl]).
  assert (Hc2 : audioContext s2 = Some c) by (rewrite (q_context _ _ Hq); exact Hc).
  rewrite Hc2 in *.
  set (y := if decide (contexts s2 !! c = Some closed)
            then set_phase k AwaitRejectedClose s2 else close c s2) in *.
  assert (Hy : isLoading y = isLoading s2 /\ audioContext y = audioContext s2 /\
               shifters y = shifters s2 /\
               (forall st, contexts y !! c = Some st -> st = closed) /\
               (is_Some (contexts s2 !! c) -> contexts y !! c = Some closed)).
  { subst y. destruct (decide (contexts s2 !! c = Some closed)) as [Hd|Hd].
    - destruct (set_phase_loads k AwaitRejectedClose s2) as [l ->]. simpl.
      repeat split; [intros st; rewrite Hd; congruence|intros _; exact Hd].
    - destruct (transition_frame c closed s2) as (Esh & Er & Ea & El & _).
      unfold close. split; [exact El|]. split; [exact Ea|]. split; [exact Esh|].
      split; intros st; rewrite transition_lookup, decide_True by reflexivity.
      + destruct (contexts s2 !! c) as [[]|]; congruence.
      + destruct st as [st Hs]. rewrite Hs. destruct st; reflexivity. }
  destruct Hy as (El & Ea & Esh & Hcl & Hcl').
  assert (Hrend : forall n p, shifters s !! n = Some p -> ps_context p = c ->
            rendering n y = false).
  { intros n p Hp Ho. unfold rendering. rewrite Esh.
    destruct (q_params _ _ Hq n) as (_ & _ & Eo).
    change (shifters s1) with (shifters s) in Eo. rewrite Hp in Eo. simpl in Eo.
    destruct (shifters s2 !! n) as [p'|]; [|reflexivity].
    simpl in Eo. injection Eo as Eo. rewrite Eo, Ho.
    apply andb_false_intro2. apply bool_decide_eq_false. intros Hrun.
    pose proof (Hcl running Hrun). discriminate. }
  split; [rewrite El, (q_loading _ _ Hq); reflexivity|].
  split; [exact Hnp|].
  split; [exact Hfl|].
  split; [rewrite Ea; exact Hc2|].
  split.
  { intros Hs. apply Hcl'. apply (q_dom _ _ Hq). exact Hs. }
  split.
  { intros n p Hp Ho. pose proof (Hrend n p Hp Ho) as Hr.
    split; [exact Hr|]. intros ev. simpl. rewrite Hr. reflexivity. }
  destruct Hf. auto.
Qed.

Lemma load_begins_by_closing_witness :
  contexts (loadFile_call jingle (play loaded_120)) !! 0%nat = Some closed /\
  rendering 0 (loadFile_call jingle (play loaded_120)) = false /\
  audioFileName (loadFile_call jingle (play loaded_120)) = Some "song.mp3"%string.
Proof.
  pose proof (load_begins_by_closing jingle (play loaded_120) 0 eq_refl) as H.
  cbv zeta in H. destruct H as (_ & _ & _ & _ & Hc & Hr & _ & Hn & _).
  split; [apply Hc; vm_compute; eauto|].
  split; [|rewrite Hn; reflexivity].
  refine (proj1 (Hr 0%nat _ _ _)); [vm_compute; reflexivity|reflexivity].
Defined.

(** X19.  When [file.arrayBuffer()] rejects for a load that waits for
    it, the load settles: [isLoading] is cleared, [onError] is called
    once with the error when it was supplied, the asset, the shifters
    and the contexts are untouched, and that load never settles
    again. *)
Theorem read_failure_settles_load (k : nat) (t : LoadTask) (e : Error) (s : Session) :
  parked k AwaitArrayBuffer s = Some t ->
  exists s', step (ArrayBufferSettled k (Some e)) s = Some s' /\
    isLoading s' = false /\
    calls s' = calls s ++ (if reports_errors s then [ErrorReported e] else []) /\
    pitchShifterRef s' = pitchShifterRef s /\
    audioBuffer s' = audioBuffer s /\
    audioFileName s' = audioFileName s /\
    duration s' = duration s /\
    shifters s' = shifters s /\
    contexts s' = contexts s /\
    (forall failure, step (ArrayBufferSettled k failure) s' = None) /\
    (forall result, step (DecodeSettled k result) s' = None).
Proof.
  intros Hk. simpl. rewrite Hk. apply parked_lookup in Hk as [Hk Hp].
  assert (Hlt : (k < length (loads s))%nat) by (eapply lookup_lt_Some; exact Hk).
  eexists. split; [reflexivity|].
  unfold loadFile_read, loadFile_catch. rewrite (set_phase_shape k Settled s t Hk).
  unfold call_onError, reports_errors. simpl.
  assert (Hl : forall x, loads x = <[k := with_phase Settled t]> (loads s) ->
            (forall failure, step (ArrayBufferSettled k failure) x = None) /\
            (forall result, step (DecodeSettled k result) x = None)).
  { intros x Hx. split; intros r; simpl; unfold parked; rewrite Hx;
      rewrite list_lookup_insert_eq by exact Hlt; reflexivity. }
  destruct (options s) as [o|]; [destruct (onError o)|]; simpl;
    rewrite ?app_nil_r; repeat split; try reflexivity; apply Hl; reflexivity.
Qed.

Lemma read_failure_settles_load_witness :
  exists s', step (ArrayBufferSettled 0 (Some corrupt))
               (loadFile_call song (useAudioPlayer some_options)) = Some s' /\
    isLoading s' = false /\ calls s' = [ErrorReported corrupt].
Proof.
  assert (Hk : parked 0 AwaitArrayBuffer (loadFile_call song (useAudioPlayer some_options))
               = Some {| load_file := song; load_speed := 1; load_pitch := 0;
                         load_phase := AwaitArrayBuffer |})
    by (vm_compute; reflexivity).
  destruct (read_failure_settles_load 0 _ corrupt _ Hk) as (s' & H1 & H2 & H3 & _).
  exists s'. split; [exact H1|]. split; [exact H2|exact H3].
Defined.

(** The context that an uninterrupted load leaves in the ref is new. *)
Lemma loadFile_context_is_new file e s :
  exists c, audioContext (loadFile file (inl e) s) = Some c /\
    contexts s !! c = None /\
    contexts (loadFile file (inl e) s) !! c = Some running /\
    forall n, ps_context <$> shifters (loadFile file (inl e) s) !! n
              = ps_context <$> shifters s !! n.
Proof.
  unfold loadFile. set (k := length (loads s)).
  set (t := {| load_file := file; load_speed := speed s; load_pitch := pitch s;
               load_phase := AwaitDecode |}).
  unfold loadFile_call. fold k.
  set (t0 := {| load_file := file; load_speed := speed s; load_pitch := pitch s;
                load_phase := AwaitClose |}).
  set (s1 := setIsLoading true (set_loads (loads s ++ [t0]) s)).
  set (s2 := if isPlaying s then stop s1 else s1).
  assert (Hq : quiet s1 s2)
    by (subst s2; destruct (isPlaying s); [apply quiet_stop|apply quiet_refl]).
  assert (Hc2 : audioContext s2 = audioContext s) by exact (q_context _ _ Hq).
  rewrite Hc2.
  set (y := match audioContext s with
            | Some c =>
                if decide (contexts s2 !! c = Some closed)
                then set_phase k AwaitRejectedClose s2 else close c s2
            | None => s2
            end).
  assert (Hy : (forall c, is_Some (contexts y !! c) <-> is_Some (contexts s !! c)) /\
               forall n, ps_context <$> shifters y !! n = ps_context <$> shifters s !! n).
  { subst y. destruct (audioContext s) as [c|].
    - destruct (decide (contexts s2 !! c = Some closed)) as [Hd|Hd].
      { destruct (set_phase_loads k AwaitRejectedClose s2) as [l ->].
        split; [exact (q_dom _ _ Hq)|]. intros n. apply (q_params _ _ Hq). }
      destruct (transition_frame c closed s2) as (Esh & _). split.
      + intros c'. etransitivity; [|exact (q_dom _ _ Hq c')]. unfold close.
        rewrite transition_lookup. case_decide; [subst|tauto].
        destruct (contexts s2 !! c') as [[]|]; split; intros [? ?]; eauto; discriminate.
      + intros n. unfold close. rewrite Esh. apply (q_params _ _ Hq).
    - split; [exact (q_dom _ _ Hq)|]. intros n. apply (q_params _ _ Hq). }
  destruct Hy as [Hdom Hown].
  assert (E : match audioContext s with
              | Some _ => loadFile_open k
                            match audioContext s with
                            | Some c =>
                                if decide (contexts s2 !! c = Some closed)
                                then set_phase k AwaitRejectedClose s2
                                else close c s2
                            | None => loadFile_open k s2
                            end
              | None => match audioContext s with
                        | Some c =>
                            if decide (contexts s2 !! c = Some closed)
                            then set_phase k AwaitRejectedClose s2
                            else close c s2
                        | None => loadFile_open k s2
                        end
              end = loadFile_open k y).
  { subst y. destruct (audioContext s); reflexivity. }
  rewrite E. clear E.
  set (c := fresh (dom (contexts y))).
  assert (Hnew : contexts s !! c = None).
  { destruct (contexts s !! c) eqn:Hs; [|reflexivity]. exfalso.
    assert (Hin : is_Some (contexts y !! c)) by (apply Hdom; eauto).
    apply elem_of_dom in Hin. exact (is_fresh _ Hin). }
  exists c.
  unfold loadFile_open. fold c.
  destruct (set_phase_loads k AwaitArrayBuffer
              (set_audioContext (Some c) (set_contexts (<[c := running]> (contexts y)) y)))
    as [l ->].
  unfold loadFile_read. cbn [audioContext set_loads set_audioContext].
  destruct (set_phase_loads k AwaitDecode
              (set_loads l (set_audioContext (Some c)
                 (set_contexts (<[c := running]> (contexts y)) y)))) as [l' ->].
  unfold loadFile_decoded, loadFile_catch.
  destruct (set_phase_loads k Settled
              (set_loads l' (set_loads l (set_audioContext (Some c)
                 (set_contexts (<[c := running]> (contexts y)) y))))) as [l'' ->].
  unfold call_onError. simpl.
  destruct (options y) as [o|]; [destruct (onError o)|]; simpl;
    rewrite lookup_insert_eq; auto.
Qed.

(** X20.  After a load that is not interrupted and whose decode fails,
    on a session whose shifter lives on a context of the store: the
    shifter ref and the file name are still those of the old asset,
    nothing plays, and [play] changes nothing, since the old shifter
    cannot be connected to the destination of the new context. *)
Theorem failed_reload_cannot_be_played (file : File) (e : Error) (s : Session)
    (n : nat) (p : PitchShifter) :
  pitchShifterRef s = Some n -> shifters s !! n = Some p ->
  is_Some (contexts s !! ps_context p) ->
  let s' := loadFile file (inl e) s in
  pitchShifterRef s' = Some n /\
  audioFileName s' = audioFileName s /\
  isPlaying s' = false /\
  play s' = s'.
Proof.
  intros Hn Hp Hctx s'. subst s'.
  destruct (loadFile_context_is_new file e s) as (c & Hc & Hnew & Hrun & Hown).
  destruct (loadFile_unfold file (inl e) s) as (s3 & c3 & E & Hf & Hnp & _).
  assert (Hr : pitchShifterRef (loadFile file (inl e) s) = Some n /\
               audioFileName (loadFile file (inl e) s) = audioFileName s /\
               isPlaying (loadFile file (inl e) s) = false).
  { rewrite E. unfold loadFile_decoded, loadFile_catch.
    destruct (set_phase_loads (length (loads s)) Settled s3) as [l ->].
    unfold call_onError. simpl.
    rewrite <- Hn, <- (lf_ref _ _ Hf), <- (lf_name _ _ Hf).
    repeat case_match; simpl; auto. }
  destruct Hr as (Hr & Hname & Hpl).
  pose proof (Hown n) as Ho. rewrite Hp in Ho.
  change (ps_context <$> Some p) with (Some (ps_context p)) in Ho. clear E Hown.
  set (s' := loadFile file (inl e) s) in *. clearbody s'.
  assert (Hne : ps_context p <> c).
  { intros Heq. rewrite Heq, Hnew in Hctx. destruct Hctx; discriminate. }
  split; [exact Hr|]. split; [exact Hname|]. split; [exact Hpl|].
  unfold play. rewrite Hr, Hc.
  destruct (decide (contexts s' !! c = Some suspended))
    as [Hs|_]; [rewrite Hrun in Hs; discriminate|].
  destruct (decide (ps_context <$> shifters s' !! n = Some c))
    as [Hd|_]; [rewrite Ho in Hd; congruence|reflexivity].
Qed.

Lemma failed_reload_cannot_be_played_witness :
  audioFileName (loadFile jingle (inl corrupt) loaded_120) = Some "song.mp3"%string /\
  play (loadFile jingle (inl corrupt) loaded_120)
  = loadFile jingle (inl corrupt) loaded_120.
Proof.
  assert (Hp : exists p, shifters loaded_120 !! 0%nat = Some p /\ ps_context p = 0%nat)
    by (vm_compute; eauto).
  destruct Hp as (p & Hp & Hc).
  assert (Hs : is_Some (contexts loaded_120 !! ps_context p))
    by (rewrite Hc; vm_compute; eauto).
  destruct (failed_reload_cannot_be_played jingle corrupt loaded_120 0 p eq_refl Hp Hs)
    as (_ & Hn & _ & Hplay).
  split; [rewrite Hn; reflexivity|exact Hplay].
Defined.

End MoreLoading.

(** ** More on [formatTime] *)

Section FormatTimeMore.

Local Open Scope Z_scope.










End FormatTimeMore.

Section NegativeSeconds.

(** X22.  A negative number of seconds shows with a minus sign in front,
    unless it is so small that the division by 60 rounds to zero: from
    [-30 * 2^-1074] up to zero, which are the thirty negative doubles
    nearest to zero, [formatTime] gives "0:-1". *)
Theorem formatTime_negative_sign (s : Q) :
  (s < - (30 * 2 ^ (-1074)) ->
   exists rest, Binary64.formatTime (Binary64.Finite s) = String "-" rest) /\
  (- (30 * 2 ^ (-1074)) <= s -> s < 0 ->
   Binary64.formatTime (Binary64.Finite s) = "0:-1"%string).
Proof.
  assert (E30 : 30 * 2 ^ (-1074) == 60 * 2 ^ (-1075)).
  { rewrite <- (pow2_pred (-1074)). change (-1074 - 1)%Z with (-1075)%Z. ring. }
  pose proof (pow2_pos (-1075)) as Ptiny.
  split.
  - intros Hs.
    set (x := s / 60).
    assert (Ex : x * 60 == s) by (unfold x; field).
    assert (Hx : x < - 2 ^ (-1075)) by lra.
    assert (Hax : Qabs x == - x) by (apply Qabs_neg; lra).
    assert (Hp : 0 < Qabs x) by (rewrite Hax; lra).
    destruct (log2_floor_spec (Qabs x) Hp) as [HL1 _].
    set (L := Binary64.log2_floor (Qabs x)) in *. rewrite Hax in HL1.
    set (e := Binary64.ulp_exponent x).
    assert (He : 2 ^ (e - 1) < - x).
    { unfold e, Binary64.ulp_exponent. fold L.
      destruct (Z.max_spec (L - 52) (-1074)) as [[_ ->]|[_ ->]].
      - change (-1074 - 1)%Z with (-1075)%Z. lra.
      - eapply Qlt_le_trans; [|exact HL1]. apply pow2_lt. lia. }
    pose proof (pow2_pos e) as Pe. pose proof (pow2_inv e) as Pinv.
    pose proof (pow2_pred e) as Ppred. pose proof (pow2_pos (- e)) as Pne.
    assert (Hm : (Binary64.nearest_even (x / 2 ^ e) < 0)%Z).
    { apply nearest_even_lt. change (inject_Z 0) with 0.
      assert (Hdiv : x / 2 ^ e == x * 2 ^ (- e))
        by (unfold Qdiv; rewrite Qpower_opp; reflexivity).
      rewrite Hdiv.
      assert (H1 : 0 < (- x - 2 ^ (e - 1)) * 2 ^ (- e)) by (apply Qmult_lt_0_compat; lra).
      assert (H2 : 2 * 2 ^ (e - 1) * 2 ^ (- e) == 1) by (rewrite Ppred; exact Pinv).
      lra. }
    set (m := Binary64.nearest_even (x / 2 ^ e)) in *.
    assert (Hr : inject_Z m * 2 ^ e < 0).
    { assert (H : inject_Z m <= inject_Z (-1)) by (rewrite <- Zle_Qle; lia).
      change (inject_Z (-1)) with (-1) in H.
      assert (H1 : 0 <= (-1 - inject_Z m) * 2 ^ e) by (apply Qmult_le_0_compat; lra).
      lra. }
    unfold Binary64.formatTime, Binary64.div. fold x. unfold Binary64.round.
    assert (Hz : Qeq_bool x 0 = false).
    { destruct (Qeq_bool x 0) eqn:E; [|reflexivity]. apply Qeq_bool_iff in E. lra. }
    rewrite Hz. cbv zeta. fold e. fold m.
    destruct (Qle_bool (2 ^ 1024) (Qabs (inject_Z m * 2 ^ e))).
    + assert (Hneg : Qle_bool 0 x = false).
      { destruct (Qle_bool 0 x) eqn:E; [|reflexivity]. apply Qle_bool_iff in E. lra. }
      rewrite Hneg. eexists. reflexivity.
    + unfold Binary64.Math_floor at 1. unfold Binary64.toString at 1.
      assert (Hfl : (Qfloor (Qred (inject_Z m * 2 ^ e)) <? 0)%Z = true).
      { apply Z.ltb_lt. rewrite (Qfloor_comp _ _ (Qred_correct _)).
        rewrite Zlt_Qlt. eapply Qle_lt_trans; [apply Qfloor_le|exact Hr]. }
      rewrite Hfl. eexists. reflexivity.
  - intros Hlo Hneg.
    set (x := s / 60).
    assert (Ex : x * 60 == s) by (unfold x; field).
    assert (Hx1 : - 2 ^ (-1075) <= x) by lra.
    assert (Hx2 : x < 0) by lra.
    assert (Hax : Qabs x == - x) by (apply Qabs_neg; lra).
    assert (Hp : 0 < Qabs x) by (rewrite Hax; lra).
    destruct (log2_floor_spec (Qabs x) Hp) as [HL1 _].
    set (L := Binary64.log2_floor (Qabs x)) in *. rewrite Hax in HL1.
    assert (HL : (L <= -1075)%Z).
    { assert (H : 2 ^ L < 2 ^ (-1074)).
      { eapply Qle_lt_trans; [exact HL1|].
        rewrite <- (pow2_pred (-1074)). change (-1074 - 1)%Z with (-1075)%Z. lra. }
      apply pow2_lt_inv in H. lia. }
    assert (Ee : Binary64.ulp_exponent x = (-1074)%Z) by (unfold Binary64.ulp_exponent; fold L; lia).
    assert (Hq : - (1 # 2) <= x / 2 ^ (-1074) /\ x / 2 ^ (-1074) < 0).
    { assert (Hdiv : x / 2 ^ (-1074) == x * 2 ^ 1074)
        by (unfold Qdiv; rewrite <- Qpower_opp; reflexivity).
      rewrite Hdiv.
      assert (P : 2 ^ (-1075) * 2 ^ 1074 == 1 # 2) by (vm_compute; reflexivity).
      assert (P0 : 0 < 2 ^ 1074) by apply pow2_pos.
      assert (H1 : 0 <= (x + 2 ^ (-1075)) * 2 ^ 1074) by (apply Qmult_le_0_compat; lra).
      assert (H2 : 0 < (- x) * 2 ^ 1074) by (apply Qmult_lt_0_compat; lra).
      lra. }
    assert (Hm : Binary64.nearest_even (x / 2 ^ (-1074)) = 0%Z).
    { destruct Hq as [Hq1 Hq2]. unfold Binary64.nearest_even.
      assert (Hf : Qfloor (x / 2 ^ (-1074)) = (-1)%Z).
      { apply Qfloor_unique; [change (inject_Z (-1)) with (-1); lra|].
        change (inject_Z (-1 + 1)) with 0. exact Hq2. }
      rewrite Hf. change (inject_Z (-1)) with (-1).
      destruct (Qcompare (x / 2 ^ (-1074) - -1) (1 # 2)) eqn:E; [reflexivity| |reflexivity].
      apply Qlt_alt in E. lra. }
    assert (Hmins : Binary64.Math_floor (Binary64.div (Binary64.Finite s) 60) = Binary64.IFinite 0).
    { unfold Binary64.div. fold x. unfold Binary64.round.
      assert (Hz : Qeq_bool x 0 = false).
      { destruct (Qeq_bool x 0) eqn:E; [|reflexivity]. apply Qeq_bool_iff in E. lra. }
      rewrite Hz. cbv zeta. rewrite Ee, Hm. reflexivity. }
    assert (Hs1 : -1 < s).
    { assert (H : 30 * 2 ^ (-1074) < 1) by (vm_compute; reflexivity). lra. }
    assert (Hsecs : Binary64.Math_floor (Binary64.rem (Binary64.Finite s) 60) = Binary64.IFinite (-1)).
    { unfold Binary64.rem, Binary64.Math_floor, JS.rem, JS.trunc. f_equal.
      assert (Hd : Qle_bool 0 (s / 60) = false).
      { destruct (Qle_bool 0 (s / 60)) eqn:E; [|reflexivity].
        apply Qle_bool_iff in E. fold x in E. lra. }
      rewrite Hd.
      assert (Hc : Qceiling (s / 60) = 0%Z).
      { unfold Qceiling. fold x.
        assert (Hf : Qfloor (- x) = 0%Z).
        { apply Qfloor_unique; [change (inject_Z 0) with 0; lra|].
          change (inject_Z (0 + 1)) with 1. lra. }
        rewrite Hf. reflexivity. }
      rewrite Hc. apply Qfloor_unique.
      - change (inject_Z (-1)) with (-1). change (inject_Z 0) with 0. lra.
      - change (inject_Z (-1 + 1)) with 0. change (inject_Z 0) with 0. lra. }
    unfold Binary64.formatTime. cbv zeta. rewrite Hmins, Hsecs. reflexivity.
Qed.

Lemma formatTime_negative_sign_witness :
  (exists rest, Binary64.formatTime (Binary64.Finite (-5)) = String "-" rest) /\
  Binary64.formatTime (Binary64.Finite (- 2 ^ (-1074))) = "0:-1"%string.
Proof.
  split.
  - apply (proj1 (formatTime_negative_sign (-5))). vm_compute. reflexivity.
  - apply (proj2 (formatTime_negative_sign (- 2 ^ (-1074)))).
    + vm_compute. discriminate.
    + vm_compute. reflexivity.
Defined.

End NegativeSeconds.
